(** * TTauri GUI widgets: constraint binding, needs tracking, layout,
      draw and hit-box traversal of [TTauri::GUI::Widgets::Widget]

    A shallow embedding of [Widget.cpp].  A widget is a node of an ownership
    tree; its sizing constraints live in the window's constraint solver, its
    geometry is read back from the solver during the layout pass, and the
    draw and hit-box passes walk the tree.

    Numbers.  The source computes with [float] and [double].  Their finite
    values are embedded as rationals [Q]: the code compares them ([==],
    [!=], [>=], [<]), subtracts them, narrows the solver's [double] values
    to [float] and rounds them.  The narrowing is modelled with its
    rounding; NaN and the infinities are outside the embedding.  [!=] is
    [negb (Qeq_bool _ _)].

    Besides the widget, the file embeds the bit reader and the Huffman
    symbol table (modules [BitReader], [Huffman]), the helpers
    of [memory.hpp] ([Memory]), [QBezier::getContour] ([Bezier]) and
    [parse_error::get_line_position] ([ParseError]); machine integers are
    [Z] with their wrap-around written out. *)

From Stdlib Require Import ZArith QArith Qround List Bool Lia Lqa.
From Stdlib Require Import Qabs Qpower.
From Stdlib Require Import Sorted Permutation.
From Stdlib.Strings Require Byte.
Import ListNotations.

Set Implicit Arguments.

(* ================================================================== *)
(** * Geometry values *)

(** [vec]: only the first two lanes are used by the widget code;
    [width()] and [height()] read the same lanes as [x()] and [y()]. *)
Record vec : Type := mk_vec { vec_x : Q; vec_y : Q }.

Definition vec_width (v : vec) : Q := vec_x v.
Definition vec_height (v : vec) : Q := vec_y v.

(** [operator!=] on [vec], written positively. *)
Definition vec_eqb (a b : vec) : bool :=
  Qeq_bool (vec_x a) (vec_x b) && Qeq_bool (vec_y a) (vec_y b).

Definition vec_sub (a b : vec) : vec :=
  mk_vec (vec_x a - vec_x b) (vec_y a - vec_y b).

(** [aarect{x, y, width, height}]. *)
Record aarect : Type := mk_aarect {
  rect_x : Q; rect_y : Q; rect_width : Q; rect_height : Q
}.

Definition rect_offset (r : aarect) : vec := mk_vec (rect_x r) (rect_y r).
Definition rect_extent (r : aarect) : vec := mk_vec (rect_width r) (rect_height r).

(** Modelled from the spec: [round] on [aarect] is declared in a header that
    is not part of the sources; the solved values are "rounded to the nearest
    representable device unit", here the nearest integer (halves go up). *)
Definition round_unit (q : Q) : Q := inject_Z (Qfloor (q + (1 # 2))).

Definition round (r : aarect) : aarect :=
  mk_aarect (round_unit (rect_x r)) (round_unit (rect_y r))
            (round_unit (rect_width r)) (round_unit (rect_height r)).

(** The binary exponent of a positive rational [q]: the [e] with
    [2^e <= q < 2^(e+1)]. *)
Definition binade (q : Q) : Z :=
  let e := (Z.log2 (Qnum q) - Z.log2 (Zpos (Qden q)))%Z in
  if Qle_bool (2 ^ e) q then e else (e - 1)%Z.

(** The nearest integer, a half going to the even one. *)
Definition round_half_even (q : Q) : Z :=
  let f := Qfloor q in
  match (q - inject_Z f ?= 1 # 2)%Q with
  | Lt => f
  | Gt => (f + 1)%Z
  | Eq => if Z.even f then f else (f + 1)%Z
  end.

(** Modelled from the spec: [numeric_cast] is declared in a header that is
    not part of the sources.  The solved values are [double]s and the
    rectangle holds what is "representable" in [float]: the cast is taken
    as the conversion of a [double] to [float], which gives the nearest
    value with a 24-bit significand (in steps of 2^-149 at the bottom of the
    range), a tie going to the even significand.  A value beyond the largest
    [float] becomes an infinity in the source and is outside the embedding. *)
Definition numeric_cast_float (d : Q) : Q :=
  if Qeq_bool d 0 then 0
  else
    let k := Z.max (binade (Qabs d) - 23) (-149) in
    inject_Z (round_half_even (d / 2 ^ k)) * 2 ^ k.

(** [mat::T(x, y, z)]: a pure translation. *)
Record mat : Type := T { t_x : Q; t_y : Q; t_z : Q }.

(* ================================================================== *)
(** * The window's constraint solver *)

(** The four solver variables each widget owns. *)
Inductive Dim : Type := Left | Bottom | Width | Height.

Definition Dim_eqb (a b : Dim) : bool :=
  match a, b with
  | Left, Left | Bottom, Bottom | Width, Width | Height, Height => true
  | _, _ => false
  end.

(** A solver variable: the owning widget (its identity) and the dimension. *)
Definition Var : Type := (nat * Dim)%type.

Definition Var_eqb (a b : Var) : bool :=
  Nat.eqb (fst a) (fst b) && Dim_eqb (snd a) (snd b).

Inductive Rel : Type := Ge | Eq.
Inductive Strength : Type := Required | Strong | Weak.

(** The constraints the widget registers for its own extent:
    [var >= bound] or [var == bound] at a strength. *)
Record Constraint : Type := mk_constraint {
  c_var : Var; c_rel : Rel; c_bound : Q; c_strength : Strength
}.

(** [rhea::constraint] used as a handle. *)
Definition handle : Type := nat.

(** The default-constructed (null) [rhea::constraint]. *)
Definition null_constraint : handle := 0%nat.

Definition Store : Type := list (handle * Constraint).

(** The window as far as the widget sees it: the registered constraints,
    the next handle to hand out, and (ghost) every store the solver went
    through, newest first. *)
Record Window : Type := mk_Window {
  next_handle : handle;
  constraints : Store;
  past : list Store
}.

(** Window operations thread the window; an assertion that fails aborts
    ([None]). *)
Definition WinM (A : Type) : Type := Window -> option (A * Window).

Definition ret {A} (a : A) : WinM A := fun win => Some (a, win).

Definition bind {A B} (m : WinM A) (k : A -> WinM B) : WinM B :=
  fun win =>
    match m win with
    | Some (a, win') => k a win'
    | None => None
    end.

Notation "x <- m ;; k" := (bind m (fun x => k))
  (at level 61, m at next level, right associativity).
Notation "m ;;; k" := (bind m (fun _ => k))
  (at level 61, right associativity).

(** [ttauri_assert(cond)]: fatal when the condition is false. *)
Definition ttauri_assert (cond : bool) : WinM unit :=
  fun win => if cond then Some (tt, win) else None.

Definition store_remove (h : handle) (s : Store) : Store :=
  filter (fun e => negb (Nat.eqb (fst e) h)) s.

(** Modelled from the spec: [Window::addConstraint] is not part of the
    sources; [add_constraint(expr, strength) -> handle] registers the
    constraint and returns a handle for it. *)
Definition addConstraint (c : Constraint) : WinM handle :=
  fun win =>
    let h := next_handle win in
    Some (h, mk_Window (S h) (constraints win ++ [(h, c)])
                       (constraints win :: past win)).

(** Modelled from the spec: [Window::removeConstraint] is not part of the
    sources; [remove_constraint(handle)] drops the constraint. *)
Definition removeConstraint (h : handle) : WinM unit :=
  fun win =>
    Some (tt, mk_Window (next_handle win) (store_remove h (constraints win))
                        (constraints win :: past win)).

(** Modelled from the spec: [Window::replaceConstraint] is not part of the
    sources; [replace_constraint(handle, expr, strength) -> handle], with the
    "old handle removed only after the new one is successfully added". *)
Definition replaceConstraint (old : handle) (c : Constraint) : WinM handle :=
  new <- addConstraint c ;;
  removeConstraint old ;;;
  ret new.

(** What kind of sizing constraint a registered constraint is. *)
Inductive Kind : Type := Minimum | Prefered | Fixed.

Definition kind_of (c : Constraint) : Kind :=
  match c_rel c, c_strength c with
  | Eq, _ => Fixed
  | Ge, Required => Minimum
  | Ge, _ => Prefered
  end.

Definition Kind_eqb (a b : Kind) : bool :=
  match a, b with
  | Minimum, Minimum | Prefered, Prefered | Fixed, Fixed => true
  | _, _ => false
  end.

(** The store holds a constraint of kind [k] on variable [v]. *)
Definition registered (s : Store) (v : Var) (k : Kind) : bool :=
  existsb (fun e => Var_eqb (c_var (snd e)) v && Kind_eqb (kind_of (snd e)) k) s.


(** The stores the solver went through from [win] to a later [win']:
    every store of [win'] (current and past) that [win] had not left yet. *)
Definition stores_since (win win' : Window) : list Store :=
  constraints win' ::
  firstn (length (past win') - length (past win)) (past win').

(* ================================================================== *)
(** * Widget state *)

(** The extent model and the handles of the constraints bound to it. *)
Record Extents : Type := mk_Extents {
  minimumExtent : vec;
  preferedExtent : vec;
  fixedExtent : vec;
  minimumWidthConstraint : handle;
  minimumHeightConstraint : handle;
  preferedWidthConstraint : handle;
  preferedHeightConstraint : handle;
  fixedWidthConstraint : handle;
  fixedHeightConstraint : handle
}.

(** The sticky flags and the values cached for change detection. *)
Record Needs : Type := mk_Needs {
  forceLayout : bool;
  forceRedraw : bool;
  widthChangePreviousValue : Q;
  heightChangePreviousValue : Q
}.

(** What the layout pass stores. *)
Record Geometry : Type := mk_Geometry {
  extent : vec;
  offsetFromWindow : vec;
  offsetFromParent : vec;
  fromWindowTransform : mat;
  toWindowTransform : mat
}.

(** The members of one widget, children apart.  [this_] is the identity of
    the object ([this]); it names the widget's solver variables. *)
Record WidgetState : Type := mk_WidgetState {
  this_ : nat;
  elevation : Q;
  enabled : bool;
  hover : bool;
  focus : bool;
  extents : Extents;
  needs_state : Needs;
  geometry : Geometry
}.

Definition with_extents (e : Extents) (st : WidgetState) : WidgetState :=
  mk_WidgetState (this_ st) (elevation st) (enabled st) (hover st) (focus st)
                 e (needs_state st) (geometry st).

Definition with_needs (n : Needs) (st : WidgetState) : WidgetState :=
  mk_WidgetState (this_ st) (elevation st) (enabled st) (hover st) (focus st)
                 (extents st) n (geometry st).

Definition with_geometry (g : Geometry) (st : WidgetState) : WidgetState :=
  mk_WidgetState (this_ st) (elevation st) (enabled st) (hover st) (focus st)
                 (extents st) (needs_state st) g.

Definition set_forceLayout (b : bool) (st : WidgetState) : WidgetState :=
  let n := needs_state st in
  with_needs (mk_Needs b (forceRedraw n) (widthChangePreviousValue n)
                       (heightChangePreviousValue n)) st.

Definition set_forceRedraw (b : bool) (st : WidgetState) : WidgetState :=
  let n := needs_state st in
  with_needs (mk_Needs (forceLayout n) b (widthChangePreviousValue n)
                       (heightChangePreviousValue n)) st.

Definition set_changePreviousValues (w h : Q) (st : WidgetState) : WidgetState :=
  let n := needs_state st in
  with_needs (mk_Needs (forceLayout n) (forceRedraw n) w h) st.

(** The widget's solver variables. *)
Definition left (st : WidgetState) : Var := (this_ st, Left).
Definition bottom (st : WidgetState) : Var := (this_ st, Bottom).
Definition width (st : WidgetState) : Var := (this_ st, Width).
Definition height (st : WidgetState) : Var := (this_ st, Height).

(** A widget owns its children. *)
Unset Elimination Schemes.
Inductive Widget : Type :=
  Node (st : WidgetState) (children : list Widget).
Set Elimination Schemes.

Definition state (w : Widget) : WidgetState := let (st, _) := w in st.
Definition children (w : Widget) : list Widget := let (_, cs) := w in cs.

(* ================================================================== *)
(** * Construction and the extent model *)

(** [Widget::Widget(window, parent, defaultExtent)].  The member
    initialisers of the header are not part of the sources: [defaults]
    supplies the members the constructor body does not assign. *)
Definition Widget_new (this : nat) (parent : option WidgetState)
           (defaultExtent : vec) (defaults : WidgetState) : WinM WidgetState :=
  let width := (this, Width) in
  let height := (this, Height) in
  let e := extents defaults in
  minW <- addConstraint (mk_constraint width Ge (vec_width defaultExtent) Required) ;;
  minH <- addConstraint (mk_constraint height Ge (vec_height defaultExtent) Required) ;;
  prefW <- addConstraint (mk_constraint width Ge (vec_width defaultExtent) Strong) ;;
  prefH <- addConstraint (mk_constraint height Ge (vec_height defaultExtent) Strong) ;;
  ret (mk_WidgetState this
         (match parent with Some p => elevation p + 1 | None => 0 end)
         true (hover defaults) (focus defaults)
         (mk_Extents defaultExtent defaultExtent (fixedExtent e)
                     minW minH prefW prefH
                     (fixedWidthConstraint e) (fixedHeightConstraint e))
         (needs_state defaults) (geometry defaults)).

(** [Widget::~Widget()]. *)
Definition Widget_delete (st : WidgetState) : WinM unit :=
  let e := extents st in
  removeConstraint (minimumWidthConstraint e) ;;;
  removeConstraint (minimumHeightConstraint e) ;;;
  removeConstraint (preferedWidthConstraint e) ;;;
  removeConstraint (preferedHeightConstraint e).

Definition setMinimumExtent (newMinimumExtent : vec) (st : WidgetState)
  : WinM WidgetState :=
  let e := extents st in
  if negb (vec_eqb newMinimumExtent (minimumExtent e)) then
    minW <- replaceConstraint (minimumWidthConstraint e)
              (mk_constraint (width st) Ge (vec_width newMinimumExtent) Required) ;;
    minH <- replaceConstraint (minimumHeightConstraint e)
              (mk_constraint (height st) Ge (vec_height newMinimumExtent) Required) ;;
    ret (with_extents
           (mk_Extents newMinimumExtent (preferedExtent e) (fixedExtent e)
                       minW minH
                       (preferedWidthConstraint e) (preferedHeightConstraint e)
                       (fixedWidthConstraint e) (fixedHeightConstraint e)) st)
  else ret st.

Definition setPreferedExtent (newPreferedExtent : vec) (st : WidgetState)
  : WinM WidgetState :=
  let e := extents st in
  if negb (vec_eqb newPreferedExtent (preferedExtent e)) then
    prefW <- replaceConstraint (preferedWidthConstraint e)
               (mk_constraint (width st) Ge (vec_width newPreferedExtent) Weak) ;;
    prefH <- replaceConstraint (preferedHeightConstraint e)
               (mk_constraint (height st) Ge (vec_height newPreferedExtent) Weak) ;;
    ret (with_extents
           (mk_Extents (minimumExtent e) newPreferedExtent (fixedExtent e)
                       (minimumWidthConstraint e) (minimumHeightConstraint e)
                       prefW prefH
                       (fixedWidthConstraint e) (fixedHeightConstraint e)) st)
  else ret st.

(** The two assertions of [setFixedExtent]. *)
Definition fixed_width_ok (newFixedExtent : vec) (st : WidgetState) : bool :=
  Qeq_bool (vec_width newFixedExtent) 0
  || Qle_bool (vec_width (minimumExtent (extents st))) (vec_width newFixedExtent).

Definition fixed_height_ok (newFixedExtent : vec) (st : WidgetState) : bool :=
  Qeq_bool (vec_height newFixedExtent) 0
  || Qle_bool (vec_height (minimumExtent (extents st))) (vec_height newFixedExtent).

Definition setFixedExtent (newFixedExtent : vec) (st : WidgetState)
  : WinM WidgetState :=
  let e := extents st in
  ttauri_assert (fixed_width_ok newFixedExtent st) ;;;
  ttauri_assert (fixed_height_ok newFixedExtent st) ;;;
  if negb (vec_eqb newFixedExtent (fixedExtent e)) then
    (if negb (Qeq_bool (vec_width (fixedExtent e)) 0)
     then removeConstraint (fixedWidthConstraint e) else ret tt) ;;;
    (if negb (Qeq_bool (vec_height (fixedExtent e)) 0)
     then removeConstraint (fixedHeightConstraint e) else ret tt) ;;;
    fixW <- (if negb (Qeq_bool (vec_width newFixedExtent) 0)
             then addConstraint
                    (mk_constraint (width st) Eq (vec_width newFixedExtent) Required)
             else ret (fixedWidthConstraint e)) ;;
    fixH <- (if negb (Qeq_bool (vec_height newFixedExtent) 0)
             then addConstraint
                    (mk_constraint (height st) Eq (vec_height newFixedExtent) Required)
             else ret (fixedHeightConstraint e)) ;;
    ret (with_extents
           (mk_Extents (minimumExtent e) (preferedExtent e) newFixedExtent
                       (minimumWidthConstraint e) (minimumHeightConstraint e)
                       (preferedWidthConstraint e) (preferedHeightConstraint e)
                       fixW fixH) st)
  else ret st.

Definition setFixedHeight (height : Q) (st : WidgetState) : WinM WidgetState :=
  setFixedExtent (mk_vec 0 height) st.

Definition setFixedWidth (width : Q) (st : WidgetState) : WinM WidgetState :=
  setFixedExtent (mk_vec width 0) st.

(* ================================================================== *)
(** * Needs *)

(** The solver's answers, [variable.value()], as the passes read them. *)
Definition Values : Type := Var -> Q.

Definition widthOrHeightValueHasChanged (value : Values) (st : WidgetState)
  : bool * WidgetState :=
  let widthValue := value (width st) in
  let heightValue := value (height st) in
  let changed := false in
  let changed :=
    changed || negb (Qeq_bool widthValue (widthChangePreviousValue (needs_state st))) in
  let changed :=
    changed || negb (Qeq_bool heightValue (heightChangePreviousValue (needs_state st))) in
  (changed, set_changePreviousValues widthValue heightValue st).

(** [Widget::needs]: both flags are exchanged to [false]. *)
Definition needs (value : Values) (st : WidgetState) : Z * WidgetState :=
  let layout := forceLayout (needs_state st) in
  let st := set_forceLayout false st in
  let (changed, st) := widthOrHeightValueHasChanged value st in
  let layout := layout || changed in
  let redraw := layout in
  let redraw := redraw || forceRedraw (needs_state st) in
  let st := set_forceRedraw false st in
  let need := Z.lor (Z.shiftl (Z.b2z layout) 1) (Z.b2z redraw) in
  (need, st).

(* ================================================================== *)
(** * Layout *)

Definition makeWindowRectangle (value : Values) (st : WidgetState) : aarect :=
  round (mk_aarect (numeric_cast_float (value (left st)))
                   (numeric_cast_float (value (bottom st)))
                   (numeric_cast_float (value (width st)))
                   (numeric_cast_float (value (height st)))).

(** Modelled from the spec: [z()] is declared in the header; the transforms
    are translations "where z is elevation". *)
Definition z (st : WidgetState) : Q := elevation st.

(** [Widget::layout]; [parent] is the state of the widget [parent] points
    to, if any. *)
Definition layout (value : Values) (parent : option WidgetState)
           (st : WidgetState) : WidgetState :=
  let _windowRectangle := makeWindowRectangle value st in
  let g :=
    mk_Geometry
      (rect_extent _windowRectangle)
      (rect_offset _windowRectangle)
      (match parent with
       | Some p => vec_sub (rect_offset _windowRectangle)
                           (offsetFromWindow (geometry p))
       | None => rect_offset _windowRectangle
       end)
      (T (- rect_x _windowRectangle) (- rect_y _windowRectangle) (- z st))
      (T (rect_x _windowRectangle) (rect_y _windowRectangle) (z st)) in
  set_forceRedraw true (with_geometry g st).

(** The loop of [layoutChildren] over the children of a widget whose state
    is [this]; [rec] is [child->layoutChildren] for a child in its current
    state.  Returns the children after the pass and [total_need]. *)
Definition layoutChildren_loop (value : Values) (force : bool)
           (rec : WidgetState -> Widget -> list Widget * Z)
           (this : WidgetState) : list Widget -> Z -> list Widget * Z :=
  fix loop (cs : list Widget) (total_need : Z) : list Widget * Z :=
    match cs with
    | [] => ([], total_need)
    | child :: rest =>
        let (child_need, cst) := needs value (state child) in
        let total_need := Z.lor total_need child_need in
        let cst :=
          if force || (2 <=? child_need)%Z
          then layout value (Some this) cst else cst in
        let (grandchildren, sub_need) := rec cst child in
        let total_need := Z.lor total_need sub_need in
        let (rest', total_need) := loop rest total_need in
        (Node cst grandchildren :: rest', total_need)
    end.

(** [layoutChildren] of the widget [w], whose members are currently [this]
    (the state stored in [w] itself is the one before the pass reached it). *)
Fixpoint layoutChildren_from (value : Values) (force : bool)
         (this : WidgetState) (w : Widget) {struct w} : list Widget * Z :=
  match w with
  | Node _ cs =>
      layoutChildren_loop value force
        (fun cst child => layoutChildren_from value force cst child) this cs 0%Z
  end.

(** [Widget::layoutChildren(displayTimePoint, force)]. *)
Definition layoutChildren (value : Values) (force : bool) (w : Widget)
  : Widget * Z :=
  let (cs, total_need) := layoutChildren_from value force (state w) w in
  (Node (state w) cs, total_need).

(** The widgets strictly below [w], parents before children, siblings in
    order: the order in which every pass reaches them. *)
Fixpoint descendants (w : Widget) : list WidgetState :=
  match w with
  | Node _ cs => flat_map (fun c => state c :: descendants c) cs
  end.

Definition forest_descendants (cs : list Widget) : list WidgetState :=
  flat_map (fun c => state c :: descendants c) cs.

(* ================================================================== *)
(** * Draw *)

Section Draw.

(** The theme, [nestingLevel()] and [clippingRectangle()] are declared
    outside the sources and are taken as given. *)
Variable Color : Type.

Record Theme : Type := mk_Theme {
  borderColor : Z -> Color;
  fillColor : Z -> Color;
  accentColor : Color
}.

Variable theme : Theme.
Variable nestingLevel : WidgetState -> Z.
Variable clippingRectangle : WidgetState -> aarect.

(** The members of [DrawContext] that [Widget::draw] assigns. *)
Record DrawContext : Type := mk_DrawContext {
  ctx_clippingRectangle : aarect;
  ctx_transform : mat;
  ctx_color : Color;
  ctx_fillColor : Color
}.

Definition set_color (c : Color) (ctx : DrawContext) : DrawContext :=
  mk_DrawContext (ctx_clippingRectangle ctx) (ctx_transform ctx) c (ctx_fillColor ctx).

Definition set_fillColor (c : Color) (ctx : DrawContext) : DrawContext :=
  mk_DrawContext (ctx_clippingRectangle ctx) (ctx_transform ctx) (ctx_color ctx) c.

(** The context [Widget::draw] hands to [child], computed from the
    context variable as the previous iteration left it. *)
Definition child_context (childContext : DrawContext) (child : WidgetState)
  : DrawContext :=
  let childContext :=
    mk_DrawContext (clippingRectangle child) (toWindowTransform (geometry child))
                   (ctx_color childContext) (ctx_fillColor childContext) in
  let childNestingLevel := nestingLevel child in
  let childContext := set_color (borderColor theme childNestingLevel) childContext in
  let childContext := set_fillColor (fillColor theme childNestingLevel) childContext in
  if enabled child then
    let childContext :=
      if focus child then set_color (accentColor theme) childContext
      else if hover child
           then set_color (borderColor theme (childNestingLevel + 1)) childContext
           else childContext in
    if hover child
    then set_fillColor (fillColor theme (childNestingLevel + 1)) childContext
    else childContext
  else
    let childContext :=
      set_color (borderColor theme (childNestingLevel - 1)) childContext in
    set_fillColor (fillColor theme (childNestingLevel - 1)) childContext.

(** One [child->draw(childContext, ...)] call: the child and the context
    it is drawn with. *)
Definition DrawCall : Type := (WidgetState * DrawContext)%type.

(** The loop of [Widget::draw]; [childContext] is declared before the
    loop and reused by every iteration. *)
Definition draw_loop (rec : DrawContext -> Widget -> list DrawCall)
  : list Widget -> DrawContext -> list DrawCall :=
  fix loop (cs : list Widget) (childContext : DrawContext) : list DrawCall :=
    match cs with
    | [] => []
    | child :: rest =>
        let childContext := child_context childContext (state child) in
        (state child, childContext) :: rec childContext child
          ++ loop rest childContext
    end.

(** [Widget::draw]: the calls made on the widgets below [w], in order. *)
Fixpoint draw (drawContext : DrawContext) (w : Widget) {struct w}
  : list DrawCall :=
  match w with
  | Node _ cs =>
      let childContext := drawContext in
      draw_loop (fun ctx child => draw ctx child) cs childContext
  end.

End Draw.

(* ================================================================== *)
(** * Hit box *)

(** [HitBox{this, elevation}] or the empty [HitBox{}]. *)
Definition HitBox : Type := option (nat * Q).

(** Modelled from the spec: [operator<] of [HitBox] is declared outside the
    sources; results are compared "using elevation as the ordering key", and
    the empty result is below every hit. *)
Definition HitBox_ltb (a b : HitBox) : bool :=
  match a, b with
  | None, None => false
  | None, Some _ => true
  | Some _, None => false
  | Some (_, ea), Some (_, eb) => negb (Qle_bool eb ea)
  end.

(** [std::max(a, b)]: [b] if [a < b], else [a]. *)
Definition std_max (a b : HitBox) : HitBox := if HitBox_ltb a b then b else a.

Section HitBoxTest.

(** [rectangle()] and [aarect::contains] are declared outside the sources
    and are taken as given. *)
Variable rectangle : WidgetState -> aarect.
Variable contains : aarect -> vec -> bool.

Fixpoint hitBoxTest (w : Widget) (position : vec) {struct w} : HitBox :=
  match w with
  | Node st cs =>
      let r := if contains (rectangle st) position
               then Some (this_ st, elevation st) else None in
      fold_left
        (fun r child =>
           std_max r (hitBoxTest child
                        (vec_sub position (offsetFromParent (geometry (state child))))))
        cs r
  end.

(** The widgets of the tree whose rectangle contains the point, the point
    being moved into each child's coordinates on the way down; [w] first,
    then its children's in order. *)
Fixpoint hit_candidates (w : Widget) (position : vec) {struct w}
  : list (nat * Q) :=
  match w with
  | Node st cs =>
      (if contains (rectangle st) position
       then [(this_ st, elevation st)] else [])
      ++ flat_map
           (fun child =>
              hit_candidates child
                (vec_sub position (offsetFromParent (geometry (state child)))))
           cs
  end.

End HitBoxTest.

(* ================================================================== *)
(** * Notions the properties are stated with *)

(** The topmost of a list of hits: the first one of the highest elevation. *)
Definition topmost (hits : list (nat * Q)) (r : HitBox) : HitBox :=
  fold_left (fun r hit => std_max r (Some hit)) hits r.

(** What one iteration of the layout loop does to a child's own members:
    its needs are consumed, and it is laid out when the pass is forced or
    its need is at layout level. *)
Definition need_of (value : Values) (st : WidgetState) : Z := fst (needs value st).

Definition visit (value : Values) (force : bool) (this : WidgetState)
           (child : WidgetState) : WidgetState :=
  if force || (2 <=? need_of value child)%Z
  then layout value (Some this) (snd (needs value child))
  else snd (needs value child).

(** Bitwise OR of a list of needs. *)
Definition or_needs (needs : list Z) (total_need : Z) : Z :=
  fold_left Z.lor needs total_need.



(** A widget is settled when its layout flag is down and the cached width
    and height are the solver's current ones; it is quiet when the redraw
    flag is down as well. *)
Definition settled (value : Values) (d : WidgetState) : Prop :=
  forceLayout (needs_state d) = false
  /\ widthChangePreviousValue (needs_state d) = value (width d)
  /\ heightChangePreviousValue (needs_state d) = value (height d).

Definition quiet (d : WidgetState) : Prop :=
  forceLayout (needs_state d) = false /\ forceRedraw (needs_state d) = false.

(* ================================================================== *)
(** * The widget's binding in the window *)

(** The store holds, under handle [h], a constraint of kind [k] on [v]. *)
Definition holds (s : Store) (h : handle) (v : Var) (k : Kind) : bool :=
  existsb (fun e => Nat.eqb (fst e) h
                    && (Var_eqb (c_var (snd e)) v && Kind_eqb (kind_of (snd e)) k)) s.

(** The minimum and prefered handles of the widget are registered for its
    width and height, were handed out by this window, and differ per kind. *)
Definition well_bound (st : WidgetState) (win : Window) : bool :=
  let e := extents st in
  let s := constraints win in
  holds s (minimumWidthConstraint e) (width st) Minimum
  && holds s (minimumHeightConstraint e) (height st) Minimum
  && holds s (preferedWidthConstraint e) (width st) Prefered
  && holds s (preferedHeightConstraint e) (height st) Prefered
  && negb (Nat.eqb (minimumWidthConstraint e) (minimumHeightConstraint e))
  && negb (Nat.eqb (preferedWidthConstraint e) (preferedHeightConstraint e))
  && Nat.ltb (minimumWidthConstraint e) (next_handle win)
  && Nat.ltb (minimumHeightConstraint e) (next_handle win)
  && Nat.ltb (preferedWidthConstraint e) (next_handle win)
  && Nat.ltb (preferedHeightConstraint e) (next_handle win).

(** Every equality constraint on [v] in the store is the one under [h]. *)
Definition sole_fixed (s : Store) (v : Var) (h : handle) : bool :=
  forallb (fun e => implb (Var_eqb (c_var (snd e)) v && Kind_eqb (kind_of (snd e)) Fixed)
                          (Nat.eqb (fst e) h)) s.

(** The store once [setFixedExtent] has removed the widget's fixed
    constraints (those of its non-zero fixed dimensions). *)
Definition without_fixed (st : WidgetState) (s : Store) : Store :=
  let e := extents st in
  let s := if negb (Qeq_bool (vec_width (fixedExtent e)) 0)
           then store_remove (fixedWidthConstraint e) s else s in
  if negb (Qeq_bool (vec_height (fixedExtent e)) 0)
  then store_remove (fixedHeightConstraint e) s else s.

(** The fixed constraints [setFixedExtent] adds for the non-zero dimensions
    of the new extent, [n] being the next handle. *)
Definition fixed_added (newFixedExtent : vec) (st : WidgetState) (n : handle)
  : Store :=
  (if negb (Qeq_bool (vec_width newFixedExtent) 0)
   then [(n, mk_constraint (width st) Eq (vec_width newFixedExtent) Required)]
   else [])
  ++ (if negb (Qeq_bool (vec_height newFixedExtent) 0)
      then [(if negb (Qeq_bool (vec_width newFixedExtent) 0) then S n else n,
             mk_constraint (height st) Eq (vec_height newFixedExtent) Required)]
      else []).

(* ================================================================== *)
(** * Induction over widget trees *)

Section Widget_induction.

Variable P : Widget -> Prop.
Hypothesis P_Node : forall st cs, Forall P cs -> P (Node st cs).

Fixpoint Widget_ind (w : Widget) : P w :=
  match w with
  | Node st cs =>
      P_Node st
        ((fix children_ind (cs : list Widget) : Forall P cs :=
            match cs with
            | [] => Forall_nil P
            | c :: rest => Forall_cons c (Widget_ind c) (children_ind rest)
            end) cs)
  end.

End Widget_induction.

(* ================================================================== *)
(** * Data for the examples *)

(** A solver for the examples: a variable bound by an equality takes the
    bound of the first such constraint; otherwise it takes the largest
    required lower bound registered for it (0 if there is none).  The
    theorems below do not depend on it. *)
Definition demo_value (win : Window) : Values :=
  fun v =>
    let on_v := filter (fun e => Var_eqb (c_var (snd e)) v) (constraints win) in
    match find (fun e => Kind_eqb (kind_of (snd e)) Fixed) on_v with
    | Some e => c_bound (snd e)
    | None =>
        fold_left
          (fun m e =>
             if Kind_eqb (kind_of (snd e)) Minimum && Qle_bool m (c_bound (snd e))
             then c_bound (snd e) else m)
          on_v 0
    end.

Definition empty_window : Window := mk_Window 1%nat [] [].

(** Member defaults for the examples: nothing fixed, no handles, both flags
    raised, nothing cached, nothing laid out. *)
Definition demo_defaults : WidgetState :=
  mk_WidgetState 0%nat 0 true false false
    (mk_Extents (mk_vec 0 0) (mk_vec 0 0) (mk_vec 0 0)
                null_constraint null_constraint null_constraint
                null_constraint null_constraint null_constraint)
    (mk_Needs true true 0 0)
    (mk_Geometry (mk_vec 0 0) (mk_vec 0 0) (mk_vec 0 0) (T 0 0 0) (T 0 0 0)).

(** A laid-out widget for the examples. *)
Definition demo_widget (this : nat) (elevation : Q) (enabled hover focus : bool)
           (extent offsetFromParent : vec) : WidgetState :=
  mk_WidgetState this elevation enabled hover focus
    (extents demo_defaults) (mk_Needs false false 0 0)
    (mk_Geometry extent offsetFromParent offsetFromParent (T 0 0 0) (T 0 0 0)).

(** For the examples: [rectangle()] is the widget's extent at its own
    origin, and a rectangle contains the points from its lower-left corner
    up to, not including, its upper-right corner. *)
Definition demo_rectangle (st : WidgetState) : aarect :=
  mk_aarect 0 0 (vec_width (extent (geometry st))) (vec_height (extent (geometry st))).

Definition demo_contains (r : aarect) (p : vec) : bool :=
  Qle_bool (rect_x r) (vec_x p) && negb (Qle_bool (rect_x r + rect_width r) (vec_x p))
  && Qle_bool (rect_y r) (vec_y p) && negb (Qle_bool (rect_y r + rect_height r) (vec_y p)).

(** A window-sized root with two overlapping children A (elevation 1) and
    B (elevation 2). *)
Definition demo_overlap : Widget :=
  Node (demo_widget 0 0 true false false (mk_vec 100 100) (mk_vec 0 0))
       [ Node (demo_widget 1 1 true false false (mk_vec 50 50) (mk_vec 10 10)) [];
         Node (demo_widget 2 2 true false false (mk_vec 50 50) (mk_vec 20 20)) [] ].

(** A widget made by the constructor with a 10 x 10 default extent, then
    fixed at 100 x 50, its needs consumed once under the solver's answers. *)
Definition demo_fixed : option (WidgetState * Window) :=
  (st <- Widget_new 1 None (mk_vec 10 10) demo_defaults ;;
   st <- setFixedExtent (mk_vec 100 50) st ;;
   fun win => Some (snd (needs (demo_value win) st), win)) empty_window.

(** A widget made by the constructor with a 10 x 20 default extent. *)
Definition demo_fresh : option (WidgetState * Window) :=
  Widget_new 1 None (mk_vec 10 20) demo_defaults empty_window.

Definition demo_fixed_state : WidgetState :=
  Eval vm_compute in
    match demo_fixed with Some (st, _) => st | None => demo_defaults end.

Definition demo_fixed_window : Window :=
  Eval vm_compute in
    match demo_fixed with Some (_, win) => win | None => empty_window end.

(** ... and then given the prefered extent 20 x 20. *)
Definition demo_prefered_state : WidgetState :=
  Eval vm_compute in
    match setPreferedExtent (mk_vec 20 20) demo_fixed_state demo_fixed_window with
    | Some (st, _) => st
    | None => demo_defaults
    end.

Definition demo_prefered_window : Window :=
  Eval vm_compute in
    match setPreferedExtent (mk_vec 20 20) demo_fixed_state demo_fixed_window with
    | Some (_, win) => win
    | None => empty_window
    end.

Definition demo_fresh_state : WidgetState :=
  Eval vm_compute in
    match demo_fresh with Some (st, _) => st | None => demo_defaults end.

Definition demo_fresh_window : Window :=
  Eval vm_compute in
    match demo_fresh with Some (_, win) => win | None => empty_window end.

(** The answers of a solver that has not solved anything yet: every
    variable still at 0. *)
Definition unsolved : Values := fun _ => 0.

(** A chain root > middle > leaf for the layout pass.  The solver's answers
    are [demo_layout_value]; the middle widget is clean (flags down, cached
    size current), the leaf has [forceLayout] raised. *)
Definition demo_layout_value : Values :=
  fun v =>
    match v with
    | (1%nat, Left) => 10 | (1%nat, Bottom) => 10
    | (1%nat, Width) => 100 | (1%nat, Height) => 50
    | (2%nat, Left) => 15 | (2%nat, Bottom) => 17
    | (2%nat, Width) => 30 | (2%nat, Height) => 20
    | _ => 0
    end.

Definition demo_member (this : nat) (elevation : Q) (forceLayout : bool)
           (cachedWidth cachedHeight : Q) : WidgetState :=
  mk_WidgetState this elevation true false false (extents demo_defaults)
    (mk_Needs forceLayout false cachedWidth cachedHeight) (geometry demo_defaults).

(** A root whose needs were consumed and which was then laid out, as the
    pass does to every widget below it, over one child that has not been
    visited yet. *)
Definition demo_laid_out : Widget :=
  Node (layout demo_layout_value None
               (snd (needs demo_layout_value (demo_member 0 0 true 0 0))))
       [ Node (demo_member 1 1 true 0 0) [] ].

Definition demo_chain : Widget :=
  Node (demo_member 0 0 false 0 0)
       [ Node (demo_member 1 1 false 100 50)
              [ Node (demo_member 2 2 true 30 20) [] ] ].

(** A theme for the examples: colours are numbers, the border colour of a
    level is the level, the fill colour 100 more, the accent colour 999. *)
Definition demo_theme : Theme Z :=
  mk_Theme (fun level => level) (fun level => (100 + level)%Z) 999%Z.

Definition demo_nestingLevel (st : WidgetState) : Z := Qfloor (elevation st).

(** A root with one child at nesting level 1 that is hovered, focused and
    disabled. *)
Definition demo_disabled_child : WidgetState :=
  demo_widget 1 1 false true true (mk_vec 50 50) (mk_vec 10 10).

Definition demo_disabled : Widget :=
  Node (demo_widget 0 0 true false false (mk_vec 100 100) (mk_vec 0 0))
       [ Node demo_disabled_child [] ].

(** A widget made by the constructor with a 10.5 x 20 default extent. *)
Definition demo_half : option (WidgetState * Window) :=
  Widget_new 1 None (mk_vec (21 # 2) 20) demo_defaults empty_window.



(** The answers of a solver that holds 16777217 x 33554435 for widget 1. *)
Definition demo_large_value : Values :=
  fun v =>
    match v with
    | (1%nat, Width) => 16777217
    | (1%nat, Height) => 33554435
    | _ => 0
    end.

(** The precondition of [setFixedExtent] in the words of its contract: a
    non-zero fixed dimension is at least the minimum dimension. *)
Definition fixed_precondition (newFixedExtent : vec) (st : WidgetState) : Prop :=
  (~ vec_width newFixedExtent == 0 ->
   vec_width (minimumExtent (extents st)) <= vec_width newFixedExtent)%Q
  /\ (~ vec_height newFixedExtent == 0 ->
      vec_height (minimumExtent (extents st)) <= vec_height newFixedExtent)%Q.

(* ================================================================== *)
(** * The binding invariant of a widget *)

(** The handles of the four constraints every widget registers. *)
Definition base_handles (st : WidgetState) : list handle :=
  let e := extents st in
  [ minimumWidthConstraint e; minimumHeightConstraint e;
    preferedWidthConstraint e; preferedHeightConstraint e ].

Fixpoint distinct (hs : list handle) : bool :=
  match hs with
  | [] => true
  | h :: rest => negb (existsb (Nat.eqb h) rest) && distinct rest
  end.

(** A non-zero fixed dimension has its equality constraint registered
    under a handle of its own. *)
Definition fixed_bound (st : WidgetState) (win : Window)
           (dimension : Q) (h : handle) (v : Var) : bool :=
  Qeq_bool dimension 0
  || (holds (constraints win) h v Fixed
      && negb (existsb (Nat.eqb h) (base_handles st))
      && Nat.ltb h (next_handle win)).

(** The widget's four base constraints are registered under four different
    handles this window handed out, and so is the equality constraint of
    each non-zero fixed dimension. *)
Definition bound_inv (st : WidgetState) (win : Window) : bool :=
  let e := extents st in
  let s := constraints win in
  holds s (minimumWidthConstraint e) (width st) Minimum
  && holds s (minimumHeightConstraint e) (height st) Minimum
  && holds s (preferedWidthConstraint e) (width st) Prefered
  && holds s (preferedHeightConstraint e) (height st) Prefered
  && distinct (base_handles st)
  && forallb (fun h => Nat.ltb h (next_handle win)) (base_handles st)
  && fixed_bound st win (vec_width (fixedExtent e)) (fixedWidthConstraint e) (width st)
  && fixed_bound st win (vec_height (fixedExtent e)) (fixedHeightConstraint e) (height st).

(** Every handle in the store was handed out by this window. *)
Definition handles_fresh (win : Window) : bool :=
  forallb (fun e => Nat.ltb (fst e) (next_handle win)) (constraints win).

(** After a layout every widget's offset from its parent is its offset
    from the window less the parent's, all the way down. *)
Fixpoint offsets_agree (parent : WidgetState) (w : Widget) {struct w} : bool :=
  match w with
  | Node st cs =>
      vec_eqb (offsetFromParent (geometry st))
              (vec_sub (offsetFromWindow (geometry st))
                       (offsetFromWindow (geometry parent)))
      && forallb (offsets_agree st) cs
  end.

(** The geometry [layout] derives from the solver's rectangle alone. *)
Definition solved_geometry (value : Values) (st : WidgetState)
  : vec * vec * mat * mat :=
  let r := makeWindowRectangle value st in
  (rect_extent r, rect_offset r,
   T (- rect_x r) (- rect_y r) (- elevation st),
   T (rect_x r) (rect_y r) (elevation st)).

(* ================================================================== *)
(** * Reading bits from a span of bytes *)

Module BitReader.

Local Open Scope Z_scope.

(** The value of a [std::byte], 0 to 255. *)
Definition byte_val (b : Byte.byte) : Z := Z.of_N (Byte.to_N b).

(** [int] arithmetic keeps the low 32 bits, read as a signed number;
    [size_t] arithmetic keeps the low 64 bits. *)
Definition int32 (z : Z) : Z := (z + 2 ^ 31) mod 2 ^ 32 - 2 ^ 31.
Definition size_t (z : Z) : Z := z mod 2 ^ 64.

(** What a read comes to: a value, the bounds check of [gsl::span] failing
    (the program terminates), or the loop not finished within the fuel. *)
Inductive Outcome : Type :=
| Ok (value : Z)
| OutOfRange
| OutOfFuel.

(** [bytes[byte_index]] on a [gsl::span]. *)
Definition at_index (bytes : list Byte.byte) (byte_index : Z) : option Z :=
  if byte_index <? 0 then None
  else option_map byte_val (nth_error bytes (Z.to_nat byte_index)).

Definition get_bit (bytes : list Byte.byte) (index : Z) : Outcome :=
  let byte_index := Z.shiftr index 3 in
  let bit_index := Z.land index 7 in
  match at_index bytes byte_index with
  | Some b => Ok (Z.land (Z.shiftr b bit_index) 1)
  | None => OutOfRange
  end.

(** The [while (todo)] loop of [get_bits]; every iteration takes at least
    one bit, so [length] iterations are always enough. *)
Fixpoint get_bits_loop (fuel : nat) (bytes : list Byte.byte)
         (index value todo done : Z) : Outcome :=
  if todo =? 0 then Ok value
  else
    match fuel with
    | O => OutOfFuel
    | S fuel =>
        let byte_index := Z.shiftr index 3 in
        let bit_index := Z.land index 7 in
        let available_bits := 8 - bit_index in
        let nr_bits := if available_bits <? todo then available_bits else todo in
        let mask := int32 (int32 (Z.shiftl 1 nr_bits) - 1) in
        match at_index bytes byte_index with
        | None => OutOfRange
        | Some b =>
            let tmp := Z.land (Z.shiftr b bit_index) mask in
            let value := Z.lor value (int32 (Z.shiftl tmp done)) in
            get_bits_loop fuel bytes (size_t (index + nr_bits)) value
                          (int32 (todo - nr_bits)) (int32 (done + nr_bits))
        end
    end.

(** [get_bits(bytes, index, length)].  A negative [length] is outside the
    function's domain (it would shift by a negative count); the embedding
    gives it no fuel. *)
Definition get_bits (bytes : list Byte.byte) (index length : Z) : Outcome :=
  get_bits_loop (Z.to_nat length) bytes index 0 length 0.

(** The bytes as one number, byte 0 lowest: "as if the byte array is laid
    out from right to left". *)
Fixpoint le_value (bytes : list Byte.byte) : Z :=
  match bytes with
  | [] => 0
  | b :: rest => byte_val b + 256 * le_value rest
  end.

(** Five bytes for the examples: 0x96, 0x3c, 0xff, 0x00, 0x81. *)
Definition demo_bytes : list Byte.byte :=
  [ Byte.x96; Byte.x3c; Byte.xff; Byte.x00; Byte.x81 ].

End BitReader.

(* ================================================================== *)
(** * The Huffman symbol table *)

Module Huffman.

Local Open Scope Z_scope.

Record huffman_symbol : Type := mk_huffman_symbol {
  symbol : Z;
  code : Z;
  length : Z
}.

(** The comparison handed to [std::sort]: by length, then by symbol. *)
Definition less (a b : huffman_symbol) : bool :=
  if length a =? length b then symbol a <? symbol b else length a <? length b.

(** [std::sort] with [less], as an insertion sort: entries that compare
    equal differ in [code] only, which the loop below overwrites. *)
Fixpoint insert (x : huffman_symbol) (table : list huffman_symbol)
  : list huffman_symbol :=
  match table with
  | [] => [x]
  | y :: rest => if less x y then x :: y :: rest else y :: insert x rest
  end.

Definition sort (table : list huffman_symbol) : list huffman_symbol :=
  fold_right insert [] table.

(** The loop over the sorted table.  [code] runs along; [length] is the
    local that is initialised to 0 and never assigned.  Shifts are [int]
    shifts: a length below 0 or above 31 is outside the domain. *)
Fixpoint assign_codes (code length_ : Z) (table : list huffman_symbol)
  : list huffman_symbol :=
  match table with
  | [] => []
  | entry :: rest =>
      let shift := BitReader.int32 (length entry - length_) in
      let code := BitReader.int32 (Z.shiftl code shift) in
      let entry' := mk_huffman_symbol (symbol entry) code (length entry) in
      let code := if negb (length entry =? 0) then BitReader.int32 (code + 1)
                  else code in
      entry' :: assign_codes code length_ rest
  end.

Definition huffman_symbol_table_from_length (table : list huffman_symbol)
  : list huffman_symbol :=
  let table := sort table in
  let code := 0 in
  let length_ := 0 in
  assign_codes code length_ table.

(** The key of an entry, and its order. *)
Definition key (e : huffman_symbol) : Z * Z := (length e, symbol e).

Definition key_le (a b : huffman_symbol) : Prop :=
  length a < length b \/ (length a = length b /\ symbol a <= symbol b).

(** A table for the examples: symbols 0 to 4 with lengths 2, 0, 1, 3, 0. *)
Definition demo_table : list huffman_symbol :=
  [ mk_huffman_symbol 0 99 2; mk_huffman_symbol 1 99 0; mk_huffman_symbol 2 99 1;
    mk_huffman_symbol 3 99 3; mk_huffman_symbol 4 99 0 ].

End Huffman.

(* ================================================================== *)
(** * Memory helpers: alignment, weak-pointer cleanup, caches, moves *)

Module Memory.

Local Open Scope Z_scope.

(** Arithmetic on [size_t] and on pointers converted to it: modulo 2^64. *)
Definition uint64 (z : Z) : Z := z mod 2 ^ 64.

(** [floor(value, alignment)] and [ceil(value, alignment)] at [T = size_t].
    An [alignment] of 0 divides by zero and is outside the domain. *)
Definition floor (value alignment : Z) : Z :=
  uint64 (uint64 (value / alignment) * alignment).

Definition ceil (value alignment : Z) : Z :=
  floor (uint64 (value + uint64 (alignment - 1))) alignment.




Section WeakPointers.

(** A [std::weak_ptr<T>] as far as the cleanup looks at it. *)
Variable weak_ptr : Type.
Variable expired : weak_ptr -> bool.

(** [v.erase(i)]. *)
Definition erase {A : Type} (v : list A) (i : nat) : list A :=
  firstn i v ++ skipn (S i) v.

(** The loop of [cleanupWeakPointers] on a vector: [i] is the position of
    the iterator, [v.end()] is [length v]. *)
Fixpoint cleanup_vector_loop (fuel : nat) (v : list weak_ptr) (i : nat)
  : option (list weak_ptr) :=
  if Nat.eqb i (List.length v) then Some v
  else
    match fuel with
    | O => None
    | S fuel =>
        match nth_error v i with
        | None => None
        | Some p =>
            if expired p then cleanup_vector_loop fuel (erase v i) i
            else cleanup_vector_loop fuel v (S i)
        end
    end.

Definition cleanupWeakPointers (v : list weak_ptr) : option (list weak_ptr) :=
  cleanup_vector_loop (List.length v) v 0.

(** The same loop on a map from keys to vectors of weak pointers, the map
    taken in its iteration order: each vector is cleaned, and the entries
    whose vector came out empty are erased. *)
Fixpoint cleanup_map_loop {K : Type} (fuel : nat) (v : list (K * list weak_ptr))
         (i : nat) : option (list (K * list weak_ptr)) :=
  if Nat.eqb i (List.length v) then Some v
  else
    match fuel with
    | O => None
    | S fuel =>
        match nth_error v i with
        | None => None
        | Some (k, second) =>
            match cleanupWeakPointers second with
            | None => None
            | Some second =>
                let v := firstn i v ++ (k, second) :: skipn (S i) v in
                if Nat.eqb (List.length second) 0
                then cleanup_map_loop fuel (erase v i) i
                else cleanup_map_loop fuel v (S i)
            end
        end
    end.

Definition cleanupWeakPointers_map {K : Type} (v : list (K * list weak_ptr))
  : option (list (K * list weak_ptr)) :=
  cleanup_map_loop (List.length v) v 0.

End WeakPointers.

Section TryMakeShared.

(** A map as [find] sees it. *)
Variable K V : Type.
Variable K_eqb : K -> K -> bool.

Definition Map : Type := K -> option V.

Definition insert_or_assign (map : Map) (key : K) (value : V) : Map :=
  fun k => if K_eqb k key then Some value else map k.

(** [try_make_shared<Value>(map, key, args...)]; [make args] is
    [std::make_shared<Value>(args...)]. *)
Definition try_make_shared {Args : Type} (make : Args -> V)
           (map : Map) (key : K) (args : Args) : V * Map :=
  match map key with
  | None =>
      let value := make args in
      (value, insert_or_assign map key value)
  | Some value => (value, map)
  end.

End TryMakeShared.

Section Placement.

Variable T : Type.

(** An array of storage: each slot holds a live object or none. *)
Definition Storage : Type := nat -> option T.

(** [placement_move(src, dst)]: the object is move-constructed at [dst]
    and destroyed at [src].  [src == dst] is undefined behaviour. *)
Definition placement_move (src dst : nat) (mem : Storage) : Storage :=
  fun p => if Nat.eqb p src then None
           else if Nat.eqb p dst then mem src
           else mem p.

(** [while (src != src_last) placement_move(src++, dst++)], [n] objects
    to go. *)
Fixpoint move_up (n : nat) (src dst : nat) (mem : Storage) : Storage :=
  match n with
  | O => mem
  | S n => move_up n (S src) (S dst) (placement_move src dst mem)
  end.

(** [while (src != src_first) placement_move(--src, --dst)], [n] objects
    to go, [src] and [dst] one past the next object. *)
Fixpoint move_down (n : nat) (src dst : nat) (mem : Storage) : Storage :=
  match n with
  | O => mem
  | S n => move_down n (Nat.pred src) (Nat.pred dst)
                     (placement_move (Nat.pred src) (Nat.pred dst) mem)
  end.

(** [tt_axiom(cond)], declared in a header that is not part of the
    sources: past a violated axiom nothing is defined. *)
Definition tt_axiom {A : Type} (cond : bool) (k : A) : option A :=
  if cond then Some k else None.

Definition placement_move_within_array (src_first src_last dst_first : nat)
           (mem : Storage) : option Storage :=
  tt_axiom (Nat.leb src_first src_last)
    (if Nat.ltb src_first dst_first then
       let dst_last := (dst_first + (src_last - src_first))%nat in
       move_down (src_last - src_first) src_last dst_last mem
     else if Nat.ltb dst_first src_first then
       move_up (src_last - src_first) src_first dst_first mem
     else mem).

(** [placement_move(src, src_last, dst)]. *)
Definition placement_move_range (src src_last dst : nat) (mem : Storage)
  : option Storage :=
  tt_axiom (Nat.leb src src_last) (move_up (src_last - src) src dst mem).

(** What a move of [n] objects from [src_first] to [dst_first] is meant to
    leave: the objects in the destination, nothing in the slots of the
    source that are not also destination, everything else as it was. *)
Definition moved (src_first dst_first n : nat) (mem : Storage) : Storage :=
  fun p =>
    if andb (Nat.leb dst_first p) (Nat.ltb p (dst_first + n))
    then mem (src_first + (p - dst_first))%nat
    else if andb (Nat.leb src_first p) (Nat.ltb p (src_first + n)) then None
    else mem p.

End Placement.

Arguments moved {T} src_first dst_first n mem p.

Definition demo_storage : Storage nat :=
  fun p => if Nat.ltb p 4 then Some (10 * p)%nat else None.

End Memory.

(* ================================================================== *)
(** * Quadratic Bezier contours *)

Module Bezier.

(** [glm::vec2]. *)
Definition vec2 : Type := (Q * Q)%type.

(** [BezierPoint], declared in a header that is not part of the sources, as
    far as [getContour] reads it. *)
Record BezierPoint : Type := mk_BezierPoint {
  p : vec2;
  onCurve : bool
}.

Record QBezier : Type := mk_QBezier {
  P0 : vec2;
  P1 : vec2;
  P2 : vec2
}.

(** [contour.back().P2 = x] on a vector that is not empty. *)
Fixpoint set_back_P2 (contour : list QBezier) (x : vec2) : list QBezier :=
  match contour with
  | [] => []
  | [q] => [mk_QBezier (P0 q) (P1 q) x]
  | q :: rest => q :: set_back_P2 rest x
  end.

(** The loop of [getContour]: two points are taken per iteration.  A failed
    [assert], or taking the second point of a pair that is not there, gives
    no result. *)
Fixpoint contour_loop (normalizedPoints : list BezierPoint)
         (contour : list QBezier) : option (list QBezier) :=
  match normalizedPoints with
  | [] => Some contour
  | [_] => None
  | onCurvePoint :: offCurvePoint :: rest =>
      if negb (onCurve onCurvePoint) then None
      else if onCurve offCurvePoint then None
      else
        let contour :=
          if Nat.eqb (List.length contour) 0 then contour
          else set_back_P2 contour (p onCurvePoint) in
        contour_loop rest
          (contour ++ [mk_QBezier (p onCurvePoint) (p offCurvePoint) (0, 0)])
  end.

Section GetContour.

(** [BezierPoint::normalizePoints], declared in the same header. *)
Variable normalizePoints : list BezierPoint -> list BezierPoint.

(** [QBezier::getContour(points)]; [back()] and [front()] of an empty
    contour have no result. *)
Definition getContour (points : list BezierPoint) : option (list QBezier) :=
  let normalizedPoints := normalizePoints points in
  match contour_loop normalizedPoints [] with
  | None => None
  | Some [] => None
  | Some (front :: rest) =>
      Some (set_back_P2 (front :: rest) (P0 front))
  end.

End GetContour.

(** The points of a contour given as pairs of an on-curve point and the
    off-curve point after it. *)
Definition alternate (pairs : list (vec2 * vec2)) : list BezierPoint :=
  flat_map (fun ab => [mk_BezierPoint (fst ab) true; mk_BezierPoint (snd ab) false])
           pairs.

(** The curves through such pairs: each ends where the next starts, the
    last one at [last]. *)
Fixpoint chain (a b : vec2) (pairs : list (vec2 * vec2)) (last : vec2)
  : list QBezier :=
  match pairs with
  | [] => [mk_QBezier a b last]
  | (a', b') :: rest => mk_QBezier a b a' :: chain a' b' rest last
  end.

(** Every curve of the contour ends where the next one starts, and the
    last one where [first] starts. *)
Fixpoint closed_from (first : vec2) (contour : list QBezier) : Prop :=
  match contour with
  | [] => True
  | [q] => P2 q = first
  | q :: ((q' :: _) as rest) => P2 q = P0 q' /\ closed_from first rest
  end.

Definition closed (contour : list QBezier) : Prop :=
  match contour with
  | [] => False
  | q :: _ => closed_from (P0 q) contour
  end.

Definition demo_pairs : list (vec2 * vec2) :=
  [ ((0, 0), (1, 0)); ((1, 1), (0, 2)); ((-1 # 1, 1), (-1 # 1, 0)) ].

End Bezier.

(* ================================================================== *)
(** * Line and column of a position in UTF-8 text *)

Module ParseError.

Local Open Scope Z_scope.

(** [char32_t] arithmetic keeps the low 32 bits. *)
Definition char32_t (z : Z) : Z := z mod 2 ^ 32.

(** [std::countl_one] on a [char8_t]: how many of its eight bits are set
    from the top down to the first clear one. *)
Definition countl_one (c8 : Z) : Z :=
  if c8 <? 128 then 0
  else if c8 <? 192 then 1
  else if c8 <? 224 then 2
  else if c8 <? 240 then 3
  else if c8 <? 248 then 4
  else if c8 <? 252 then 5
  else if c8 <? 254 then 6
  else if c8 <? 255 then 7
  else 8.

(** The locals of [get_line_position]. *)
Record Position : Type := mk_Position {
  line_nr : Z;
  column_nr : Z;
  c32 : Z;
  continue_count : Z
}.

(** The first half of the loop body: the byte [c8] is taken into the code
    point being read. *)
Definition decode (c8 : Z) (s : Position) : Position :=
  if Z.land c8 192 =? 128 then
    let continue_count := BitReader.int32 (continue_count s - 1) in
    let c32 := char32_t (Z.shiftl (c32 s) 6) in
    let c32 := Z.lor c32 (Z.land c8 63) in
    mk_Position (line_nr s) (column_nr s) c32 continue_count
  else if negb (Z.land c8 128 =? 0) then
    let continue_count := countl_one c8 - 1 in
    let c32 := Z.land c8 (Z.shiftr 63 continue_count) in
    mk_Position (line_nr s) (column_nr s) c32 continue_count
  else
    mk_Position (line_nr s) (column_nr s) c8 0.

(** The second half: a finished code point moves the position.  A
    [tab_size] of 0 divides by zero at the first tab and is outside the
    domain. *)
Definition advance (tab_size : Z) (s : Position) : Position :=
  if continue_count s =? 0 then
    let column_nr := BitReader.size_t (column_nr s + 1) in
    let c := c32 s in
    if (c =? 10) || (c =? 11) || (c =? 12)
       || (c =? 133) || (c =? 8232) || (c =? 8233)
    then mk_Position (BitReader.size_t (line_nr s + 1)) 0 c (continue_count s)
    else if c =? 13
    then mk_Position (line_nr s) 0 c (continue_count s)
    else if c =? 9
    then mk_Position (line_nr s)
           (BitReader.size_t (BitReader.size_t (column_nr / tab_size) * tab_size))
           c (continue_count s)
    else mk_Position (line_nr s) column_nr c (continue_count s)
  else s.

Definition scan (tab_size : Z) (s : Position) (text : list Z) : Position :=
  fold_left (fun s c8 => advance tab_size (decode c8 s)) text s.

(** [parse_error::get_line_position(first, last, tab_size)]; [text] holds
    the bytes from [first] up to [last] as [char8_t] values. *)
Definition get_line_position (text : list Z) (tab_size : Z) : Z * Z :=
  let s := scan tab_size (mk_Position 0 0 0 0) text in
  (line_nr s, column_nr s).

(** The UTF-8 encoding of a code point below 2^21. *)
Definition utf8 (cp : Z) : list Z :=
  if cp <? 128 then [cp]
  else if cp <? 2048 then [192 + cp / 64; 128 + cp mod 64]
  else if cp <? 65536 then
    [224 + cp / 4096; 128 + cp / 64 mod 64; 128 + cp mod 64]
  else
    [240 + cp / 262144; 128 + cp / 4096 mod 64; 128 + cp / 64 mod 64;
     128 + cp mod 64].

(** The code points that end a line, and those that move the column in a
    way of their own. *)
Definition line_break (cp : Z) : bool :=
  (cp =? 10) || (cp =? 11) || (cp =? 12)
  || (cp =? 133) || (cp =? 8232) || (cp =? 8233).

Definition plain (cp : Z) : bool :=
  negb (line_break cp) && negb (cp =? 13) && negb (cp =? 9).

(** Where one character takes the position [(line, column)]. *)
Definition moved_by (tab_size cp : Z) (position : Z * Z) : Z * Z :=
  let (line, column) := position in
  if line_break cp then (BitReader.size_t (line + 1), 0)
  else if cp =? 13 then (line, 0)
  else if cp =? 9 then
    (line,
     BitReader.size_t
       (BitReader.size_t (BitReader.size_t (column + 1) / tab_size) * tab_size))
  else (line, BitReader.size_t (column + 1)).

End ParseError.

Unset Implicit Arguments.

(* ================================================================== *)
(** * Needs: the combined signal *)

Lemma needs_value (value : Values) (st : WidgetState) :
  fst (needs value st) =
  let layout :=
    forceLayout (needs_state st)
    || (negb (Qeq_bool (value (width st)) (widthChangePreviousValue (needs_state st)))
        || negb (Qeq_bool (value (height st)) (heightChangePreviousValue (needs_state st)))) in
  Z.lor (Z.shiftl (Z.b2z layout) 1)
        (Z.b2z (layout || forceRedraw (needs_state st))).
Proof. reflexivity. Qed.

Lemma needs_state_after (value : Values) (st : WidgetState) :
  snd (needs value st) =
  with_needs (mk_Needs false false (value (width st)) (value (height st))) st.
Proof. reflexivity. Qed.

(** C6: the combined signal of [needs] is 0, 1 or 3, never 2: whenever the
    layout bit (bit 1) is set, the redraw bit (bit 0) is set too. *)
Theorem needs_layout_implies_redraw (value : Values) (st : WidgetState) :
  let need := fst (needs value st) in
  (need = 0 \/ need = 1 \/ need = 3)%Z
  /\ need <> 2%Z
  /\ (Z.testbit need 1 = true -> Z.testbit need 0 = true).
Proof.
  cbv zeta. rewrite needs_value. cbv zeta.
  destruct (forceLayout (needs_state st) || _) eqn:Hlayout.
  - cbn. repeat split; auto; discriminate.
  - destruct (forceRedraw (needs_state st)); cbn;
      repeat split; auto; discriminate.
Qed.

(* ================================================================== *)
(** * setFixedExtent: the assertions *)

Lemma fixed_precondition_asserts (newFixedExtent : vec) (st : WidgetState) :
  fixed_precondition newFixedExtent st <->
  fixed_width_ok newFixedExtent st && fixed_height_ok newFixedExtent st = true.
Proof.
  unfold fixed_precondition, fixed_width_ok, fixed_height_ok.
  rewrite andb_true_iff, !orb_true_iff, !Qeq_bool_iff, !Qle_bool_iff.
  split; intros [Hw Hh]; split.
  - destruct (Qeq_dec (vec_width newFixedExtent) 0); auto.
  - destruct (Qeq_dec (vec_height newFixedExtent) 0); auto.
  - intros Hnz. destruct Hw; [contradiction | assumption].
  - intros Hnz. destruct Hh; [contradiction | assumption].
Qed.

Lemma setFixedExtent_aborts_iff (newFixedExtent : vec) (st : WidgetState) (win : Window) :
  setFixedExtent newFixedExtent st win = None <->
  fixed_width_ok newFixedExtent st && fixed_height_ok newFixedExtent st = false.
Proof.
  unfold setFixedExtent, bind, ttauri_assert.
  destruct (fixed_width_ok newFixedExtent st); cbn; [| tauto].
  destruct (fixed_height_ok newFixedExtent st); cbn; [| tauto].
  split; [| discriminate].
  destruct (negb (vec_eqb newFixedExtent (fixedExtent (extents st)))); [| discriminate].
  destruct (negb (Qeq_bool (vec_width (fixedExtent (extents st))) 0));
    destruct (negb (Qeq_bool (vec_height (fixedExtent (extents st))) 0));
    destruct (negb (Qeq_bool (vec_width newFixedExtent) 0));
    destruct (negb (Qeq_bool (vec_height newFixedExtent) 0));
    cbn; discriminate.
Qed.

(** C8: [setFixedExtent] asserts that each non-zero fixed dimension is at
    least the corresponding minimum dimension.  When that holds no assertion
    fires and the call returns; when it does not, the call aborts. *)
Theorem setFixedExtent_precondition
        (newFixedExtent : vec) (st : WidgetState) (win : Window) :
  (fixed_precondition newFixedExtent st <->
   exists st' win', setFixedExtent newFixedExtent st win = Some (st', win'))
  /\ (~ fixed_precondition newFixedExtent st <->
      setFixedExtent newFixedExtent st win = None).
Proof.
  pose proof (setFixedExtent_aborts_iff newFixedExtent st win) as Habort.
  rewrite fixed_precondition_asserts.
  destruct (setFixedExtent newFixedExtent st win) as [[st' win'] |];
    destruct (fixed_width_ok newFixedExtent st && fixed_height_ok newFixedExtent st).
  - repeat split; try congruence. eauto.
  - destruct Habort as [_ Habort]. discriminate (Habort eq_refl).
  - destruct Habort as [Habort _]. discriminate (Habort eq_refl).
  - repeat split; try congruence. intros (st' & win' & Hrun). discriminate.
Qed.

(* ================================================================== *)
(** * Draw: colour policy *)

Section DrawPolicy.

Variable Color : Type.
Variable theme : Theme Color.
Variable nestingLevel : WidgetState -> Z.
Variable clippingRectangle : WidgetState -> aarect.

Local Abbreviation draw' := (draw theme nestingLevel clippingRectangle).
Local Abbreviation child_context' := (child_context theme nestingLevel clippingRectangle).

Lemma child_context_disabled (prev : DrawContext Color) (child : WidgetState) :
  enabled child = false ->
  ctx_color (child_context' prev child) = borderColor theme (nestingLevel child - 1)
  /\ ctx_fillColor (child_context' prev child) = fillColor theme (nestingLevel child - 1).
Proof.
  intros Hdisabled. unfold child_context. rewrite Hdisabled. split; reflexivity.
Qed.

Lemma draw_Node (ctx : DrawContext Color) (st : WidgetState) (c : Widget)
      (rest : list Widget) :
  draw' ctx (Node st (c :: rest)) =
  (state c, child_context' ctx (state c))
    :: draw' (child_context' ctx (state c)) c
    ++ draw' (child_context' ctx (state c)) (Node st rest).
Proof. reflexivity. Qed.

(** Every call the pass makes hands the child a context computed by
    [child_context] for that very child. *)
Lemma draw_calls_child_context (w : Widget) :
  forall ctx : DrawContext Color,
    Forall (fun call => exists prev, snd call = child_context' prev (fst call))
           (draw' ctx w).
Proof.
  induction w as [st cs IH] using Widget_ind.
  induction IH as [| c rest Hc _ IHrest]; intros ctx.
  - constructor.
  - rewrite draw_Node. constructor.
    + cbn. eauto.
    + apply Forall_app. split; [apply Hc | apply IHrest].
Qed.

(** The pass calls [draw] on every widget below the one it starts from. *)
Lemma draw_reaches_descendants (w : Widget) :
  forall ctx : DrawContext Color, map fst (draw' ctx w) = descendants w.
Proof.
  induction w as [st cs IH] using Widget_ind.
  induction IH as [| c rest Hc _ IHrest]; intros ctx.
  - reflexivity.
  - rewrite draw_Node. cbn [map fst]. rewrite map_app, Hc, IHrest.
    reflexivity.
Qed.

(** C7: every widget below the one the draw pass starts from is drawn, and
    a child with [enabled = false] is drawn with the border and fill
    colours of one nesting level less, whatever its [hover] and [focus]
    are; so a hovered, disabled child gets the disabled colours. *)
Theorem draw_disabled_overrides (ctx : DrawContext Color) (w : Widget) :
  map fst (draw' ctx w) = descendants w
  /\ forall child childContext,
       In (child, childContext) (draw' ctx w) ->
       enabled child = false ->
       ctx_color childContext = borderColor theme (nestingLevel child - 1)
       /\ ctx_fillColor childContext = fillColor theme (nestingLevel child - 1).
Proof.
  split; [apply draw_reaches_descendants |].
  intros child childContext Hin Hdisabled.
  pose proof (draw_calls_child_context w ctx) as Hcalls.
  rewrite Forall_forall in Hcalls.
  destruct (Hcalls _ Hin) as [prev Hctx]. cbn in Hctx. subst childContext.
  now apply child_context_disabled.
Qed.

End DrawPolicy.

(* ================================================================== *)
(** * Hit box: the topmost widget under a point *)

Lemma HitBox_ltb_spec (a b : HitBox) :
  HitBox_ltb a b = true <->
  match a, b with
  | _, None => False
  | None, Some _ => True
  | Some (_, ea), Some (_, eb) => (ea < eb)%Q
  end.
Proof.
  destruct a as [[wa ea] |], b as [[wb eb] |]; cbn;
    try tauto; try (split; [discriminate | contradiction]).
  rewrite negb_true_iff. split.
  - intros Hle. apply Qnot_le_lt. intros H. apply Qle_bool_iff in H. congruence.
  - intros Hlt. destruct (Qle_bool eb ea) eqn:Hle; [| reflexivity].
    apply Qle_bool_iff in Hle. lra.
Qed.

Lemma std_max_None_r (a : HitBox) : std_max a None = a.
Proof. destruct a as [[w e] |]; reflexivity. Qed.

Lemma std_max_None_l (a : HitBox) : std_max None a = a.
Proof. destruct a as [[w e] |]; reflexivity. Qed.

Lemma std_max_assoc (a b c : HitBox) :
  std_max (std_max a b) c = std_max a (std_max b c).
Proof.
  unfold std_max.
  destruct (HitBox_ltb a b) eqn:Hab; destruct (HitBox_ltb b c) eqn:Hbc;
    try rewrite Hab; try rewrite Hbc; try reflexivity.
  - destruct (HitBox_ltb a c) eqn:Hac; [reflexivity |].
    apply HitBox_ltb_spec in Hab, Hbc.
    assert (Hnot : ~ HitBox_ltb a c = true) by congruence.
    rewrite HitBox_ltb_spec in Hnot.
    destruct a as [[wa ea] |], b as [[wb eb] |], c as [[wc ec] |];
      try contradiction; try (exfalso; apply Hnot; exact I).
    exfalso. apply Hnot. lra.
  - destruct (HitBox_ltb a c) eqn:Hac; [| reflexivity].
    apply HitBox_ltb_spec in Hac.
    assert (Hnab : ~ HitBox_ltb a b = true) by congruence.
    assert (Hnbc : ~ HitBox_ltb b c = true) by congruence.
    rewrite HitBox_ltb_spec in Hnab, Hnbc.
    destruct a as [[wa ea] |], b as [[wb eb] |], c as [[wc ec] |];
      try contradiction; try (exfalso; apply Hnab; exact I);
      try (exfalso; apply Hnbc; exact I).
    exfalso. apply Hnbc. apply Qnot_le_lt. intros Hle. apply Hnab. lra.
Qed.

Lemma topmost_app (l1 l2 : list (nat * Q)) (r : HitBox) :
  topmost (l1 ++ l2) r = topmost l2 (topmost l1 r).
Proof. apply fold_left_app. Qed.

Lemma topmost_cons (hit : nat * Q) (l : list (nat * Q)) (r : HitBox) :
  topmost (hit :: l) r = topmost l (std_max r (Some hit)).
Proof. reflexivity. Qed.

Lemma topmost_from (l : list (nat * Q)) (r : HitBox) :
  topmost l r = std_max r (topmost l None).
Proof.
  revert r. induction l as [| hit l IH]; intros r.
  - cbn. now rewrite std_max_None_r.
  - rewrite !topmost_cons, std_max_None_l.
    rewrite (IH (std_max r (Some hit))), (IH (Some hit)).
    apply std_max_assoc.
Qed.

Lemma topmost_None (l : list (nat * Q)) : topmost l None = None <-> l = [].
Proof.
  split; [| intros ->; reflexivity].
  destruct l as [| hit l]; [reflexivity |].
  rewrite topmost_cons, std_max_None_l, topmost_from. unfold std_max.
  destruct (HitBox_ltb (Some hit) (topmost l None)) eqn:Hlt; [| discriminate].
  intros Hnone. rewrite Hnone in Hlt. destruct hit. discriminate.
Qed.

(** The topmost hit is one of the hits and no hit lies above it. *)
Lemma topmost_max (l : list (nat * Q)) (r : HitBox) (w : nat) (e : Q) :
  topmost l r = Some (w, e) ->
  (r = Some (w, e) \/ In (w, e) l)
  /\ (forall w' e', r = Some (w', e') \/ In (w', e') l -> (e' <= e)%Q).
Proof.
  revert r. induction l as [| [wh eh] l IH]; intros r Htop.
  - cbn in Htop. subst r. split; [now left |].
    intros w' e' [Heq | []]. injection Heq as -> ->. lra.
  - rewrite topmost_cons in Htop. apply IH in Htop. destruct Htop as [Hin Hmax]. split.
    + destruct Hin as [Hin | Hin]; [| right; now right].
      unfold std_max in Hin.
      destruct (HitBox_ltb r (Some (wh, eh))); [right; left; congruence | now left].
    + assert (Hstep : forall w' e', std_max r (Some (wh, eh)) = Some (w', e') ->
                                   (e' <= e)%Q)
        by (intros w0 e0 H0; apply (Hmax w0 e0); now left).
      intros w' e' [Hr | [Hh | Hl]].
      * unfold std_max in Hstep.
        destruct (HitBox_ltb r (Some (wh, eh))) eqn:Hlt.
        -- apply HitBox_ltb_spec in Hlt. subst r.
           specialize (Hstep _ _ eq_refl). lra.
        -- subst r. eauto.
      * injection Hh as -> ->. unfold std_max in Hstep.
        destruct (HitBox_ltb r (Some (w', e'))) eqn:Hlt; [eauto |].
        assert (Hn : ~ HitBox_ltb r (Some (w', e')) = true) by congruence.
        rewrite HitBox_ltb_spec in Hn.
        destruct r as [[wr er] |]; [| exfalso; apply Hn; exact I].
        specialize (Hstep _ _ eq_refl).
        assert (~ (er < e')%Q) by exact Hn. lra.
      * apply (Hmax w' e'). now right.
Qed.

Lemma hit_eq_dec (a b : nat * Q) : {a = b} + {a <> b}.
Proof. repeat decide equality. Qed.

Section HitBoxTopmost.

Variable rectangle : WidgetState -> aarect.
Variable contains : aarect -> vec -> bool.

Local Abbreviation hitBoxTest' := (hitBoxTest rectangle contains).
Local Abbreviation hit_candidates' := (hit_candidates rectangle contains).

Lemma fold_std_max_topmost (f : Widget -> HitBox) (g : Widget -> list (nat * Q))
      (cs : list Widget) :
  Forall (fun c => f c = topmost (g c) None) cs ->
  forall r, fold_left (fun r c => std_max r (f c)) cs r = topmost (flat_map g cs) r.
Proof.
  induction 1 as [| c rest Hc _ IHrest]; intros r.
  - reflexivity.
  - cbn [fold_left flat_map]. rewrite IHrest, topmost_app, Hc.
    f_equal. symmetry. apply topmost_from.
Qed.

(** The recursion of [hitBoxTest] computes the topmost of all the widgets
    of the tree that contain the point. *)
Lemma hitBoxTest_topmost (w : Widget) :
  forall position, hitBoxTest' w position = topmost (hit_candidates' w position) None.
Proof.
  induction w as [st cs IH] using Widget_ind. intros position.
  cbn [hitBoxTest hit_candidates]. rewrite topmost_app.
  rewrite (fold_std_max_topmost
             (fun child => hitBoxTest' child
                (vec_sub position (offsetFromParent (geometry (state child)))))
             (fun child => hit_candidates' child
                (vec_sub position (offsetFromParent (geometry (state child)))))).
  - f_equal. destruct (contains (rectangle st) position); reflexivity.
  - eapply Forall_impl; [| exact IH]. intros c Hc. apply Hc.
Qed.

(** C5: [hitBoxTest] returns a widget of highest elevation among the
    widgets of the tree (this one and everything below it) whose rectangle
    contains the point, the point being translated by each child's offset
    on the way down; it returns the empty hit box exactly when no widget
    contains the point; and a widget containing the point whose elevation
    is above that of every other such widget (as B at elevation 2 over its
    sibling A at elevation 1) is the result. *)
Theorem hitBoxTest_highest_elevation (w : Widget) (position : vec) :
  (hitBoxTest' w position = None <-> hit_candidates' w position = [])
  /\ (forall h e,
        hitBoxTest' w position = Some (h, e) ->
        In (h, e) (hit_candidates' w position)
        /\ forall h' e', In (h', e') (hit_candidates' w position) -> (e' <= e)%Q)
  /\ (forall b,
        In b (hit_candidates' w position) ->
        (forall c, In c (hit_candidates' w position) -> c <> b -> (snd c < snd b)%Q) ->
        hitBoxTest' w position = Some b).
Proof.
  rewrite hitBoxTest_topmost.
  assert (Hmax : forall h e,
    topmost (hit_candidates' w position) None = Some (h, e) ->
    In (h, e) (hit_candidates' w position)
    /\ forall h' e', In (h', e') (hit_candidates' w position) -> (e' <= e)%Q).
  { intros h e Htop. apply topmost_max in Htop. destruct Htop as [Hin Hle]. split.
    - destruct Hin as [Hin | Hin]; [discriminate | assumption].
    - intros h' e' Hin'. apply (Hle h' e'). now right. }
  split; [apply topmost_None |]. split; [exact Hmax |].
  intros b Hb Habove.
  destruct (topmost (hit_candidates' w position) None) as [[h e] |] eqn:Htop.
  - destruct (Hmax _ _ eq_refl) as [Hin Hle].
    destruct (hit_eq_dec (h, e) b) as [-> | Hne]; [reflexivity |].
    specialize (Habove _ Hin Hne). destruct b as [hb eb].
    specialize (Hle _ _ Hb). cbn in Habove. lra.
  - apply topmost_None in Htop. rewrite Htop in Hb. destruct Hb.
Qed.

End HitBoxTopmost.

(** Witness of C5 on the overlapping siblings: the point (30, 30) lies in
    the root, in A (elevation 1) and in B (elevation 2); B is returned. *)
Lemma hitBoxTest_highest_elevation_witness :
  hitBoxTest demo_rectangle demo_contains demo_overlap (mk_vec 30 30)
  = Some (2%nat, 2).
Proof.
  apply (proj2 (proj2 (hitBoxTest_highest_elevation
                         demo_rectangle demo_contains demo_overlap (mk_vec 30 30)))).
  - vm_compute. right. right. left. reflexivity.
  - intros c Hc Hne. vm_compute in Hc.
    destruct Hc as [<- | [<- | [<- | []]]];
      [reflexivity | reflexivity | now elim Hne].
Defined.

(* ================================================================== *)
(** * Layout pass: who is laid out, and what is returned *)

Lemma or_needs_from (l : list Z) (a : Z) : or_needs l a = Z.lor a (or_needs l 0).
Proof.
  unfold or_needs. revert a. induction l as [| n l IH]; intros a; cbn [fold_left].
  - now rewrite Z.lor_0_r.
  - rewrite IH, (IH (Z.lor 0 n)), Z.lor_0_l. now rewrite Z.lor_assoc.
Qed.

Lemma or_needs_app (l1 l2 : list Z) (a : Z) :
  or_needs (l1 ++ l2) a = or_needs l2 (or_needs l1 a).
Proof. apply fold_left_app. Qed.

Lemma layoutChildren_from_Node (value : Values) (force : bool)
      (this st : WidgetState) (cs : list Widget) :
  layoutChildren_from value force this (Node st cs) =
  layoutChildren_loop value force (layoutChildren_from value force) this cs 0%Z.
Proof. reflexivity. Qed.

Lemma layoutChildren_loop_cons (value : Values) (force : bool)
      (rec : WidgetState -> Widget -> list Widget * Z) (this : WidgetState)
      (child : Widget) (rest : list Widget) (total_need : Z) :
  layoutChildren_loop value force rec this (child :: rest) total_need =
  let cst := visit value force this (state child) in
  let (grandchildren, sub_need) := rec cst child in
  let (rest', total_need') :=
    layoutChildren_loop value force rec this rest
      (Z.lor (Z.lor total_need (need_of value (state child))) sub_need) in
  (Node cst grandchildren :: rest', total_need').
Proof. reflexivity. Qed.

Lemma descendants_Node (st : WidgetState) (cs : list Widget) :
  descendants (Node st cs) = forest_descendants cs.
Proof. reflexivity. Qed.

Lemma forest_descendants_cons (c : Widget) (rest : list Widget) :
  forest_descendants (c :: rest) =
  state c :: descendants c ++ forest_descendants rest.
Proof. reflexivity. Qed.

(** The pass below a widget, whatever state [this] the widget itself is in:
    every widget below is visited, and the needs returned are the OR of the
    needs of all of them. *)
Lemma layoutChildren_from_spec (value : Values) (force : bool) (w : Widget) :
  forall this,
    snd (layoutChildren_from value force this w)
    = or_needs (map (need_of value) (descendants w)) 0
    /\ Forall2 (fun d d' => exists parent, d' = visit value force parent d)
               (descendants w)
               (forest_descendants (fst (layoutChildren_from value force this w))).
Proof.
  induction w as [st cs IH] using Widget_ind. intros this.
  rewrite layoutChildren_from_Node, descendants_Node.
  generalize 0%Z as total_need.
  induction IH as [| c rest Hc _ IHrest]; intros total_need.
  - split; [reflexivity | constructor].
  - rewrite layoutChildren_loop_cons. cbv zeta.
    specialize (Hc (visit value force this (state c))).
    destruct (layoutChildren_from value force (visit value force this (state c)) c)
      as [grandchildren sub_need].
    cbn [fst snd] in Hc. destruct Hc as [Hsub Hgrand].
    specialize (IHrest (Z.lor (Z.lor total_need (need_of value (state c))) sub_need)).
    destruct (layoutChildren_loop value force (layoutChildren_from value force)
                this rest
                (Z.lor (Z.lor total_need (need_of value (state c))) sub_need))
      as [rest' total_need'].
    cbn [fst snd] in IHrest |- *. destruct IHrest as [Htotal Hrest].
    rewrite !forest_descendants_cons. split.
    + rewrite Htotal. cbn [map]. rewrite map_app.
      change (or_needs (?n :: ?l) ?a) with (or_needs l (Z.lor a n)).
      rewrite or_needs_app. f_equal.
      rewrite (or_needs_from (map _ (descendants c))). now rewrite Hsub.
    + constructor; [now exists this |].
      apply Forall2_app; assumption.
Qed.

Lemma visit_forceRedraw (value : Values) (force : bool) (parent d : WidgetState) :
  forceRedraw (needs_state (visit value force parent d))
  = (force || (2 <=? need_of value d)%Z).
Proof.
  unfold visit. destruct (force || (2 <=? need_of value d)%Z); reflexivity.
Qed.

(** The pass from a widget: its own members are left alone, every widget
    below it is visited, and the needs of all of them are returned. *)
Lemma layoutChildren_visits (value : Values) (force : bool) (w : Widget) :
  state (fst (layoutChildren value force w)) = state w
  /\ Forall2 (fun d d' => exists parent, d' = visit value force parent d)
             (descendants w) (descendants (fst (layoutChildren value force w)))
  /\ snd (layoutChildren value force w)
     = or_needs (map (need_of value) (descendants w)) 0.
Proof.
  unfold layoutChildren.
  destruct (layoutChildren_from_spec value force w (state w)) as [Htotal Hvisit].
  destruct (layoutChildren_from value force (state w) w) as [cs total_need].
  cbn [fst snd] in *. rewrite descendants_Node.
  split; [reflexivity |]. split; assumption.
Qed.

(** C3: [layoutChildren] visits every widget below the one it is called
    on, in order, whether or not the widgets in between were laid out.  A
    visited widget has its needs consumed and is laid out exactly when
    [force] is set or its own need is at least 2 (which shows in its
    [forceRedraw], raised by [layout] alone); the value returned is the
    bitwise OR of the needs of all the widgets below. *)
Theorem layoutChildren_policy (value : Values) (force : bool) (w : Widget) :
  state (fst (layoutChildren value force w)) = state w
  /\ Forall2
       (fun d d' =>
          (exists parent,
              d' = if force || (2 <=? fst (needs value d))%Z
                   then layout value (Some parent) (snd (needs value d))
                   else snd (needs value d))
          /\ forceRedraw (needs_state d') = (force || (2 <=? fst (needs value d))%Z))
       (descendants w) (descendants (fst (layoutChildren value force w)))
  /\ snd (layoutChildren value force w)
     = fold_left Z.lor (map (fun d => fst (needs value d)) (descendants w)) 0%Z.
Proof.
  destruct (layoutChildren_visits value force w) as (Hroot & Hvisit & Htotal).
  split; [exact Hroot |]. split; [| exact Htotal].
  eapply Forall2_impl; [| exact Hvisit].
  intros d d' [parent ->]. split; [now exists parent |].
  apply visit_forceRedraw.
Qed.

(* ================================================================== *)
(** * Layout pass: running it again *)

(** A visited widget is settled: [needs] will report no layout for it. *)
Lemma visit_settled (value : Values) (force : bool) (parent d : WidgetState) :
  let d' := visit value force parent d in
  this_ d' = this_ d
  /\ forceLayout (needs_state d') = false
  /\ widthChangePreviousValue (needs_state d') = value (width d)
  /\ heightChangePreviousValue (needs_state d') = value (height d).
Proof.
  unfold visit. destruct (force || (2 <=? need_of value d)%Z);
    rewrite needs_state_after; repeat split; reflexivity.
Qed.

Lemma settled_need (value : Values) (d : WidgetState) :
  forceLayout (needs_state d) = false ->
  widthChangePreviousValue (needs_state d) = value (width d) ->
  heightChangePreviousValue (needs_state d) = value (height d) ->
  need_of value d = Z.b2z (forceRedraw (needs_state d)).
Proof.
  intros Hflag Hw Hh. unfold need_of. rewrite needs_value. cbv zeta.
  rewrite Hflag, Hw, Hh, !Qeq_bool_refl. cbn. reflexivity.
Qed.

(** Visiting a settled widget without force only takes its redraw flag
    down. *)
Lemma visit_again (value : Values) (parent d : WidgetState) :
  forceLayout (needs_state d) = false ->
  widthChangePreviousValue (needs_state d) = value (width d) ->
  heightChangePreviousValue (needs_state d) = value (height d) ->
  visit value false parent d = set_forceRedraw false d.
Proof.
  intros Hflag Hw Hh. unfold visit.
  rewrite (settled_need value d Hflag Hw Hh), needs_state_after.
  replace (false || (2 <=? Z.b2z (forceRedraw (needs_state d)))%Z) with false
    by (destruct (forceRedraw (needs_state d)); reflexivity).
  unfold set_forceRedraw. now rewrite Hflag, <- Hw, <- Hh.
Qed.

Lemma Forall2_map_eq {A B : Type} (f : A -> B) (l l' : list A) :
  Forall2 (fun a a' => f a' = f a) l l' -> map f l' = map f l.
Proof. induction 1; cbn; congruence. Qed.

Lemma Forall2_Forall_r {A : Type} (R : A -> A -> Prop) (P : A -> Prop)
      (l l' : list A) :
  (forall a a', R a a' -> P a') -> Forall2 R l l' -> Forall P l'.
Proof. intros HR. induction 1; constructor; eauto. Qed.

Lemma Forall2_strengthen {A : Type} (R R' : A -> A -> Prop) (P : A -> Prop)
      (l l' : list A) :
  (forall a a', P a -> R a a' -> R' a a') ->
  Forall P l -> Forall2 R l l' -> Forall2 R' l l'.
Proof.
  intros HR HP H2. induction H2 as [| a a' l l' Ha _ IH]; constructor.
  - inversion HP; subst. eauto.
  - inversion HP; subst. auto.
Qed.

Lemma layoutChildren_settles (value : Values) (force : bool) (w : Widget) :
  Forall (settled value) (descendants (fst (layoutChildren value force w))).
Proof.
  destruct (layoutChildren_visits value force w) as (_ & Hvisit & _).
  eapply Forall2_Forall_r; [| exact Hvisit].
  intros d d' [parent ->].
  destruct (visit_settled value force parent d) as (Hthis & Hflag & Hw & Hh).
  unfold visit, need_of, settled, width, height in *. rewrite Hthis.
  now repeat split.
Qed.

(** After a pass, a further pass without force only takes the redraw
    flags down. *)
Lemma layoutChildren_again (value : Values) (w : Widget) :
  Forall (settled value) (descendants w) ->
  Forall2 (fun d d' => d' = set_forceRedraw false d)
          (descendants w) (descendants (fst (layoutChildren value false w))).
Proof.
  intros Hsettled.
  destruct (layoutChildren_visits value false w) as (_ & Hvisit & _).
  eapply Forall2_strengthen; [| exact Hsettled | exact Hvisit].
  intros d d' (Hflag & Hw & Hh) [parent ->].
  apply (visit_again value parent d Hflag Hw Hh).
Qed.

Lemma Forall2_eq_list {A : Type} (l l' : list A) :
  Forall2 (fun a a' => a' = a) l l' -> l' = l.
Proof. induction 1; congruence. Qed.

Lemma set_forceRedraw_quiet (d : WidgetState) :
  forceRedraw (needs_state d) = false -> set_forceRedraw false d = d.
Proof.
  destruct d as [this elev en hov foc ext [fl fr pw ph] geo]. cbn.
  intros ->. reflexivity.
Qed.

Lemma or_needs_zero (l : list Z) :
  Forall (fun n => n = 0%Z) l -> or_needs l 0 = 0%Z.
Proof.
  unfold or_needs. induction 1 as [| n l -> _ IH]; [reflexivity | exact IH].
Qed.

(** Once every widget below [w] is settled, a pass without force leaves
    them quiet and their geometry alone. *)
Lemma layoutChildren_quiets (value : Values) (w : Widget) :
  Forall (settled value) (descendants w) ->
  let w' := fst (layoutChildren value false w) in
  map geometry (descendants w') = map geometry (descendants w)
  /\ Forall quiet (descendants w').
Proof.
  intros Hsettled w'. pose proof (layoutChildren_again value w Hsettled) as Hagain.
  fold w' in Hagain. split.
  - apply (Forall2_map_eq geometry). eapply Forall2_impl; [| exact Hagain].
    intros d d' ->. reflexivity.
  - apply (Forall2_Forall_r
             (fun d d' => d' = set_forceRedraw false d /\ settled value d)
             quiet (descendants w) (descendants w')).
    + intros d d' [-> (Hflag & _)]. split; [exact Hflag | reflexivity].
    + eapply Forall2_strengthen; [| exact Hsettled | exact Hagain].
      intros d d' Hd ->. now split.
Qed.

(** Once every widget below [w] is settled and quiet, a pass without force
    changes nothing and reports no need. *)
Lemma layoutChildren_fixpoint (value : Values) (w : Widget) :
  Forall (settled value) (descendants w) ->
  Forall quiet (descendants w) ->
  descendants (fst (layoutChildren value false w)) = descendants w
  /\ snd (layoutChildren value false w) = 0%Z.
Proof.
  intros Hsettled Hquiet. split.
  - apply Forall2_eq_list.
    eapply Forall2_strengthen; [| exact Hquiet | exact (layoutChildren_again value w Hsettled)].
    intros d d' [_ Hredraw] ->. now apply set_forceRedraw_quiet.
  - destruct (layoutChildren_visits value false w) as (_ & _ & ->).
    apply or_needs_zero. apply Forall_map.
    rewrite Forall_forall in Hsettled, Hquiet. apply Forall_forall. intros d Hd.
    destruct (Hsettled d Hd) as (Hflag & Hw & Hh). destruct (Hquiet d Hd) as [_ Hredraw].
    change (need_of value d = 0%Z).
    now rewrite (settled_need value d Hflag Hw Hh), Hredraw.
Qed.

(** C4 (as the code has it): after a layout pass (forced or not), running
    [layoutChildren] again without force, with the solver's values
    unchanged, leaves the geometry of every widget of the tree as it was,
    and both [forceLayout] and [forceRedraw] are down on every widget below
    the receiver afterwards; a further run changes nothing at all and
    reports no need.  The receiver's own members, its two flags among them,
    are what they were before the first pass: no pass reads or writes
    them. *)
Theorem layoutChildren_idempotent (value : Values) (force : bool) (w : Widget) :
  let w1 := fst (layoutChildren value force w) in
  let w2 := fst (layoutChildren value false w1) in
  let w3 := fst (layoutChildren value false w2) in
  (geometry (state w2) = geometry (state w1)
   /\ map geometry (descendants w2) = map geometry (descendants w1))
  /\ (state w3 = state w2 /\ descendants w3 = descendants w2)
  /\ Forall (fun d => forceLayout (needs_state d) = false
                      /\ forceRedraw (needs_state d) = false)
            (descendants w2)
  /\ (state w1 = state w /\ state w2 = state w)
  /\ snd (layoutChildren value false w2) = 0%Z.
Proof.
  cbv zeta.
  set (w1 := fst (layoutChildren value force w)).
  set (w2 := fst (layoutChildren value false w1)).
  pose proof (layoutChildren_settles value force w) as Hs1. fold w1 in Hs1.
  pose proof (layoutChildren_settles value false w1) as Hs2. fold w2 in Hs2.
  destruct (layoutChildren_quiets value w1 Hs1) as [Hgeo Hquiet].
  fold w2 in Hgeo, Hquiet.
  destruct (layoutChildren_fixpoint value w2 Hs2 Hquiet) as [Hsame Hzero].
  destruct (layoutChildren_visits value force w) as (Hroot1 & _).
  fold w1 in Hroot1.
  destruct (layoutChildren_visits value false w1) as (Hroot2 & _).
  fold w2 in Hroot2.
  repeat split.
  - now rewrite Hroot2.
  - exact Hgeo.
  - now destruct (layoutChildren_visits value false w2) as (Hroot & _).
  - exact Hsame.
  - exact Hquiet.
  - exact Hroot1.
  - now rewrite Hroot2.
  - exact Hzero.
Qed.

(** Counterexample to C4 as stated: the root of [demo_laid_out] had its
    needs consumed and was laid out, which raised its [forceRedraw]; after a
    forced pass and two passes without force the flag is still raised, and
    so is a [forceLayout] raised on the root meanwhile.  The rectangles are
    the same after both passes and the child's flags are down. *)
Lemma layoutChildren_leaves_receiver_flags :
  let w1 := fst (layoutChildren demo_layout_value true demo_laid_out) in
  let w2 := fst (layoutChildren demo_layout_value false w1) in
  let w3 := fst (layoutChildren demo_layout_value false w2) in
  (forceLayout (needs_state (state demo_laid_out)) = false
   /\ forceRedraw (needs_state (state demo_laid_out)) = true)
  /\ map geometry (state w3 :: descendants w3)
     = map geometry (state w2 :: descendants w2)
  /\ map (fun d => (this_ d, forceLayout (needs_state d), forceRedraw (needs_state d)))
         (state w3 :: descendants w3)
     = [ (0%nat, false, true); (1%nat, false, false) ]
  /\ ~ Forall quiet (state w3 :: descendants w3)
  /\ (let raised :=
        Node (set_forceLayout true (state w1)) (children w1) in
      let w2' := fst (layoutChildren demo_layout_value false raised) in
      let w3' := fst (layoutChildren demo_layout_value false w2') in
      map (fun d => (this_ d, forceLayout (needs_state d), forceRedraw (needs_state d)))
          (state w3' :: descendants w3')
      = [ (0%nat, true, true); (1%nat, false, false) ]).
Proof.
  cbv zeta. split; [split; vm_compute; reflexivity |].
  split; [vm_compute; reflexivity |].
  split; [vm_compute; reflexivity |]. split; [| vm_compute; reflexivity].
  intros Hquiet. apply Forall_inv in Hquiet. destruct Hquiet as [_ Hredraw].
  vm_compute in Hredraw. discriminate Hredraw.
Qed.

(* ================================================================== *)
(** * The extent model and the needs flags *)

Lemma with_extents_same (st : WidgetState) : with_extents (extents st) st = st.
Proof. destruct st; reflexivity. Qed.

(** The setters write the extent model and nothing else of the widget. *)
Lemma setMinimumExtent_frame (new : vec) (st st' : WidgetState) (win win' : Window) :
  setMinimumExtent new st win = Some (st', win') ->
  exists e, st' = with_extents e st.
Proof.
  unfold setMinimumExtent.
  destruct (negb (vec_eqb new (minimumExtent (extents st)))); cbn; intros Hrun;
    injection Hrun as <- _; eauto using eq_sym, with_extents_same.
Qed.

Lemma setPreferedExtent_frame (new : vec) (st st' : WidgetState) (win win' : Window) :
  setPreferedExtent new st win = Some (st', win') ->
  exists e, st' = with_extents e st.
Proof.
  unfold setPreferedExtent.
  destruct (negb (vec_eqb new (preferedExtent (extents st)))); cbn; intros Hrun;
    injection Hrun as <- _; eauto using eq_sym, with_extents_same.
Qed.

Lemma setFixedExtent_frame (new : vec) (st st' : WidgetState) (win win' : Window) :
  setFixedExtent new st win = Some (st', win') ->
  exists e, st' = with_extents e st.
Proof.
  unfold setFixedExtent, bind, ttauri_assert.
  destruct (fixed_width_ok new st); [| discriminate].
  destruct (fixed_height_ok new st); [| discriminate].
  destruct (negb (vec_eqb new (fixedExtent (extents st))));
    [| cbn; intros Hrun; injection Hrun as <- _;
       eauto using eq_sym, with_extents_same].
  destruct (negb (Qeq_bool (vec_width (fixedExtent (extents st))) 0));
    destruct (negb (Qeq_bool (vec_height (fixedExtent (extents st))) 0));
    destruct (negb (Qeq_bool (vec_width new) 0));
    destruct (negb (Qeq_bool (vec_height new) 0));
    cbn; intros Hrun; injection Hrun as <- _; eauto.
Qed.

Lemma layout_level (layout redraw : bool) :
  (2 <=? Z.lor (Z.shiftl (Z.b2z layout) 1) (Z.b2z (layout || redraw)))%Z = layout.
Proof. destruct layout, redraw; reflexivity. Qed.

(** C1 (as the code has it): the extent setters never touch the needs
    flags or the cached values.  After a setter that changed a constraint
    the next [needs] is at layout level exactly when [forceLayout] had been
    raised otherwise, or the solver now answers a width or height different
    from the cached one; whatever the solver is. *)
Theorem setters_leave_needs_flags
        (solver : Window -> Values) (new : vec)
        (st st' : WidgetState) (win win' : Window) :
  setMinimumExtent new st win = Some (st', win')
  \/ setPreferedExtent new st win = Some (st', win')
  \/ setFixedExtent new st win = Some (st', win') ->
  needs_state st' = needs_state st
  /\ (2 <=? fst (needs (solver win') st'))%Z
     = (forceLayout (needs_state st)
        || (negb (Qeq_bool (solver win' (width st))
                           (widthChangePreviousValue (needs_state st)))
            || negb (Qeq_bool (solver win' (height st))
                              (heightChangePreviousValue (needs_state st))))).
Proof.
  intros Hrun.
  assert (Hframe : exists e, st' = with_extents e st).
  { destruct Hrun as [Hrun | [Hrun | Hrun]];
      eauto using setMinimumExtent_frame, setPreferedExtent_frame, setFixedExtent_frame. }
  destruct Hframe as [e ->]. split; [reflexivity |].
  rewrite needs_value. cbv zeta. apply layout_level.
Qed.

Lemma setters_leave_needs_flags_witness :
  setPreferedExtent (mk_vec 20 20) demo_fixed_state demo_fixed_window
  = Some (demo_prefered_state, demo_prefered_window)
  /\ needs_state demo_prefered_state = needs_state demo_fixed_state
  /\ (2 <=? fst (needs (demo_value demo_prefered_window) demo_prefered_state))%Z
     = (forceLayout (needs_state demo_fixed_state)
        || (negb (Qeq_bool (demo_value demo_prefered_window (width demo_fixed_state))
                           (widthChangePreviousValue (needs_state demo_fixed_state)))
            || negb (Qeq_bool (demo_value demo_prefered_window (height demo_fixed_state))
                              (heightChangePreviousValue (needs_state demo_fixed_state))))).
Proof.
  split; [reflexivity |].
  apply (setters_leave_needs_flags demo_value (mk_vec 20 20)
           demo_fixed_state demo_prefered_state demo_fixed_window demo_prefered_window).
  right. left. reflexivity.
Defined.

(** Counterexample to C1 as stated: a widget fixed at 100 x 50 whose needs
    have been consumed is given a new prefered extent.  The prefered
    constraints are replaced, yet [forceLayout] stays down and the next
    [needs] reports 0: the solved width and height are still 100 and 50. *)
Lemma setPreferedExtent_reports_no_layout :
  vec_eqb (mk_vec 20 20) (preferedExtent (extents demo_fixed_state)) = false
  /\ setPreferedExtent (mk_vec 20 20) demo_fixed_state demo_fixed_window
     = Some (demo_prefered_state, demo_prefered_window)
  /\ constraints demo_prefered_window <> constraints demo_fixed_window
  /\ forceLayout (needs_state demo_prefered_state) = false
  /\ fst (needs (demo_value demo_prefered_window) demo_prefered_state) = 0%Z.
Proof.
  repeat split; try reflexivity.
  vm_compute. discriminate.
Qed.

(* ================================================================== *)
(** * Reading the solved geometry *)




















(* ================================================================== *)
(** * Replacing constraints: what the solver passes through *)

Lemma Dim_eqb_refl (d : Dim) : Dim_eqb d d = true.
Proof. destruct d; reflexivity. Qed.

Lemma Var_eqb_refl (v : Var) : Var_eqb v v = true.
Proof. unfold Var_eqb. now rewrite Nat.eqb_refl, Dim_eqb_refl. Qed.

Lemma holds_registered (s : Store) (h : handle) (v : Var) (k : Kind) :
  holds s h v k = true -> registered s v k = true.
Proof.
  unfold holds, registered. rewrite !existsb_exists.
  intros (e & Hin & He). exists e. split; [assumption |].
  apply andb_true_iff in He. tauto.
Qed.

Lemma holds_app (s s' : Store) (h : handle) (v : Var) (k : Kind) :
  holds (s ++ s') h v k = holds s h v k || holds s' h v k.
Proof. apply existsb_app. Qed.

Lemma holds_added (s : Store) (h : handle) (c : Constraint) :
  holds (s ++ [(h, c)]) h (c_var c) (kind_of c) = true.
Proof.
  rewrite holds_app. apply orb_true_iff. right. cbn.
  rewrite Nat.eqb_refl, Var_eqb_refl. now destruct (kind_of c).
Qed.

Lemma holds_remove (s : Store) (h h' : handle) (v : Var) (k : Kind) :
  h <> h' -> holds (store_remove h' s) h v k = holds s h v k.
Proof.
  intros Hne. unfold holds, store_remove.
  induction s as [| [he ce] s IH]; [reflexivity |]. cbn [filter existsb fst snd].
  destruct (Nat.eqb he h') eqn:He; cbn [negb existsb fst snd]; rewrite IH;
    [| reflexivity].
  apply Nat.eqb_eq in He.
  replace (Nat.eqb he h) with false; [reflexivity |].
  symmetry. apply Nat.eqb_neq. congruence.
Qed.

Lemma firstn_prefix {A : Type} (pre p : list A) :
  firstn (length (pre ++ p) - length p) (pre ++ p) = pre.
Proof.
  rewrite length_app.
  replace (length pre + length p - length p)%nat with (length pre + 0)%nat by lia.
  now rewrite firstn_app_2, app_nil_r.
Qed.

Lemma stores_since_prefix (win win' : Window) (pre : list Store) :
  past win' = pre ++ past win ->
  stores_since win win' = constraints win' :: pre.
Proof. intros Hpast. unfold stores_since. now rewrite Hpast, firstn_prefix. Qed.

(** One [replaceConstraint]: the new constraint is added, then the old one
    removed. *)
Lemma replaceConstraint_run (old : handle) (c : Constraint) (win : Window) :
  replaceConstraint old c win =
  Some (next_handle win,
        mk_Window (S (next_handle win))
                  (store_remove old (constraints win ++ [(next_handle win, c)]))
                  ((constraints win ++ [(next_handle win, c)])
                     :: constraints win :: past win)).
Proof. reflexivity. Qed.

(** Replacing the constraints [hw] (on [vw]) and [hh] (on [vh]) of one kind
    in turn, as [setMinimumExtent] and [setPreferedExtent] do: each of the
    five stores the solver passes through holds a constraint of that kind
    on both variables. *)
Lemma replace_pair_keeps (k : Kind) (vw vh : Var) (hw hh : handle)
      (cw ch : Constraint) (win : Window) :
  c_var cw = vw -> kind_of cw = k -> c_var ch = vh -> kind_of ch = k ->
  holds (constraints win) hw vw k = true ->
  holds (constraints win) hh vh k = true ->
  hw <> hh -> (hw < next_handle win)%nat -> (hh < next_handle win)%nat ->
  let s0 := constraints win in
  let s1 := s0 ++ [(next_handle win, cw)] in
  let s2 := store_remove hw s1 in
  let s3 := s2 ++ [(S (next_handle win), ch)] in
  let s4 := store_remove hh s3 in
  Forall (fun s => registered s vw k && registered s vh k = true)
         [s4; s3; s2; s1; s0]
  /\ holds s4 (next_handle win) vw k = true
  /\ holds s4 (S (next_handle win)) vh k = true.
Proof.
  intros <- <- <- Hk Hw Hh Hne Hlw Hlh s0 s1 s2 s3 s4.
  change (constraints win) with s0 in Hw, Hh.
  assert (Hw1 : holds s1 (next_handle win) (c_var cw) (kind_of cw) = true)
    by apply holds_added.
  assert (Hh1 : holds s1 hh (c_var ch) (kind_of cw) = true).
  { unfold s1. now rewrite holds_app, Hh. }
  assert (Hw2 : holds s2 (next_handle win) (c_var cw) (kind_of cw) = true).
  { unfold s2. rewrite holds_remove; [assumption | lia]. }
  assert (Hh2 : holds s2 hh (c_var ch) (kind_of cw) = true).
  { unfold s2. rewrite holds_remove; [assumption | congruence]. }
  assert (Hw3 : holds s3 (next_handle win) (c_var cw) (kind_of cw) = true).
  { unfold s3. now rewrite holds_app, Hw2. }
  assert (Hh3 : holds s3 (S (next_handle win)) (c_var ch) (kind_of cw) = true).
  { unfold s3. rewrite <- Hk. apply holds_added. }
  assert (Hw4 : holds s4 (next_handle win) (c_var cw) (kind_of cw) = true).
  { unfold s4. rewrite holds_remove; [assumption | lia]. }
  assert (Hh4 : holds s4 (S (next_handle win)) (c_var ch) (kind_of cw) = true).
  { unfold s4. rewrite holds_remove; [assumption | lia]. }
  split; [| split; assumption].
  repeat constructor; apply andb_true_iff; split;
    eauto using holds_registered.
Qed.

Lemma registered_app (s s' : Store) (v : Var) (k : Kind) :
  registered (s ++ s') v k = registered s v k || registered s' v k.
Proof. apply existsb_app. Qed.

Lemma registered_remove_false (s : Store) (h : handle) (v : Var) (k : Kind) :
  registered s v k = false -> registered (store_remove h s) v k = false.
Proof.
  unfold registered, store_remove.
  induction s as [| [he ce] s IH]; [reflexivity |]. cbn [filter existsb fst snd].
  intros Hs. apply orb_false_iff in Hs. destruct Hs as [He Hs].
  destruct (negb (Nat.eqb he h)); cbn [existsb fst snd]; [rewrite He |]; auto.
Qed.

Lemma sole_fixed_remove (s : Store) (v : Var) (h h' : handle) :
  sole_fixed s v h = true -> sole_fixed (store_remove h' s) v h = true.
Proof.
  unfold sole_fixed, store_remove.
  induction s as [| [he ce] s IH]; [reflexivity |]. cbn [filter forallb fst snd].
  intros Hs. apply andb_true_iff in Hs. destruct Hs as [He Hs].
  destruct (negb (Nat.eqb he h')); cbn [forallb fst snd]; [rewrite He |]; auto.
Qed.

(** Removing the handle of the only equality constraint on [v] leaves [v]
    without one. *)
Lemma registered_remove_sole (s : Store) (v : Var) (h : handle) :
  sole_fixed s v h = true -> registered (store_remove h s) v Fixed = false.
Proof.
  unfold sole_fixed, registered, store_remove.
  induction s as [| [he ce] s IH]; [reflexivity |]. cbn [filter forallb fst snd].
  intros Hs. apply andb_true_iff in Hs. destruct Hs as [He Hs].
  destruct (Nat.eqb he h) eqn:Hh; cbn [negb existsb fst snd]; [auto |].
  rewrite (IH Hs), orb_false_r.
  destruct (Var_eqb (c_var ce) v && Kind_eqb (kind_of ce) Fixed);
    [discriminate | reflexivity].
Qed.

Lemma Qeq_bool_comm (a b : Q) : Qeq_bool a b = Qeq_bool b a.
Proof.
  destruct (Qeq_bool a b) eqn:Hab, (Qeq_bool b a) eqn:Hba; try reflexivity.
  - apply Qeq_bool_iff in Hab. symmetry in Hab. apply Qeq_bool_iff in Hab. congruence.
  - apply Qeq_bool_iff in Hba. symmetry in Hba. apply Qeq_bool_iff in Hba. congruence.
Qed.

Ltac stores_since_known :=
  first
    [ rewrite (stores_since_prefix _ _ []) by reflexivity
    | erewrite (stores_since_prefix _ _ [_]) by reflexivity
    | erewrite (stores_since_prefix _ _ [_; _]) by reflexivity
    | erewrite (stores_since_prefix _ _ [_; _; _]) by reflexivity
    | erewrite (stores_since_prefix _ _ [_; _; _; _]) by reflexivity ].

(** [setFixedExtent] with a differing value: the old fixed constraints are
    removed, which takes the solver to [without_fixed]; the new ones are
    added to that store. *)
Lemma setFixedExtent_run (new : vec) (st st' : WidgetState) (win win' : Window) :
  setFixedExtent new st win = Some (st', win') ->
  vec_eqb new (fixedExtent (extents st)) = false ->
  constraints win'
  = without_fixed st (constraints win) ++ fixed_added new st (next_handle win)
  /\ In (without_fixed st (constraints win)) (stores_since win win')
  /\ fixedExtent (extents st') = new.
Proof.
  unfold setFixedExtent, bind, ttauri_assert, without_fixed, fixed_added.
  destruct (fixed_width_ok new st); [| discriminate].
  destruct (fixed_height_ok new st); [| discriminate].
  intros Hrun Hdiff. rewrite Hdiff in Hrun. cbn [negb] in Hrun.
  destruct (negb (Qeq_bool (vec_width (fixedExtent (extents st))) 0));
    destruct (negb (Qeq_bool (vec_height (fixedExtent (extents st))) 0));
    destruct (negb (Qeq_bool (vec_width new) 0));
    destruct (negb (Qeq_bool (vec_height new) 0));
    cbn in Hrun; injection Hrun as <- <-; cbn [constraints];
    (split; [now rewrite <- ?app_assoc, ?app_nil_r
            | split; [stores_since_known; cbn; tauto | reflexivity]]).
Qed.

Lemma well_bound_parts (st : WidgetState) (win : Window) :
  well_bound st win = true ->
  let e := extents st in
  let s := constraints win in
  (holds s (minimumWidthConstraint e) (width st) Minimum = true
   /\ holds s (minimumHeightConstraint e) (height st) Minimum = true
   /\ minimumWidthConstraint e <> minimumHeightConstraint e
   /\ (minimumWidthConstraint e < next_handle win)%nat
   /\ (minimumHeightConstraint e < next_handle win)%nat)
  /\ (holds s (preferedWidthConstraint e) (width st) Prefered = true
      /\ holds s (preferedHeightConstraint e) (height st) Prefered = true
      /\ preferedWidthConstraint e <> preferedHeightConstraint e
      /\ (preferedWidthConstraint e < next_handle win)%nat
      /\ (preferedHeightConstraint e < next_handle win)%nat).
Proof.
  unfold well_bound. rewrite !andb_true_iff, !negb_true_iff, !Nat.eqb_neq, !Nat.ltb_lt.
  cbv zeta. tauto.
Qed.

(** C2 (as the code has it): for a widget whose minimum and prefered
    constraints are registered, [setMinimumExtent] and [setPreferedExtent]
    with a differing value replace their width and height constraints
    through [replaceConstraint], and each of the five stores the solver
    passes through holds a constraint of that kind on the width and on the
    height.  [setFixedExtent] with a differing value works the other way
    round: the old fixed constraints are removed first, the solver passes
    through the store without them, and the new fixed constraints are added
    to that store. *)
Theorem constraint_replacement_order (new : vec) (st : WidgetState) (win : Window) :
  well_bound st win = true ->
  (vec_eqb new (minimumExtent (extents st)) = false ->
   exists st' win',
     setMinimumExtent new st win = Some (st', win')
     /\ length (stores_since win win') = 5%nat
     /\ Forall (fun s => registered s (width st) Minimum
                         && registered s (height st) Minimum = true)
               (stores_since win win'))
  /\ (vec_eqb new (preferedExtent (extents st)) = false ->
      exists st' win',
        setPreferedExtent new st win = Some (st', win')
        /\ length (stores_since win win') = 5%nat
        /\ Forall (fun s => registered s (width st) Prefered
                            && registered s (height st) Prefered = true)
                  (stores_since win win'))
  /\ (vec_eqb new (fixedExtent (extents st)) = false ->
      forall st' win',
        setFixedExtent new st win = Some (st', win') ->
        In (without_fixed st (constraints win)) (stores_since win win')
        /\ constraints win'
           = without_fixed st (constraints win)
               ++ fixed_added new st (next_handle win)).
Proof.
  intros Hbound. apply well_bound_parts in Hbound. cbv zeta in Hbound.
  destruct Hbound as [(Hmw & Hmh & Hmne & Hmlw & Hmlh) (Hpw & Hph & Hpne & Hplw & Hplh)].
  split; [| split].
  - intros Hdiff. unfold setMinimumExtent. rewrite Hdiff. cbn [negb].
    unfold bind. rewrite !replaceConstraint_run. cbn [next_handle constraints past].
    do 2 eexists. split; [reflexivity |].
    stores_since_known. split; [reflexivity |]. cbn [constraints].
    eapply replace_pair_keeps; eauto.
  - intros Hdiff. unfold setPreferedExtent. rewrite Hdiff. cbn [negb].
    unfold bind. rewrite !replaceConstraint_run. cbn [next_handle constraints past].
    do 2 eexists. split; [reflexivity |].
    stores_since_known. split; [reflexivity |]. cbn [constraints].
    eapply replace_pair_keeps; eauto.
  - intros Hdiff st' win' Hrun.
    destruct (setFixedExtent_run new st st' win win' Hrun Hdiff) as (Hfinal & Hmid & _).
    now split.
Qed.

Lemma constraint_replacement_order_witness :
  well_bound demo_fixed_state demo_fixed_window = true
  /\ ((vec_eqb (mk_vec 30 30) (minimumExtent (extents demo_fixed_state)) = false ->
       exists st' win',
         setMinimumExtent (mk_vec 30 30) demo_fixed_state demo_fixed_window
         = Some (st', win')
         /\ length (stores_since demo_fixed_window win') = 5%nat
         /\ Forall (fun s => registered s (width demo_fixed_state) Minimum
                             && registered s (height demo_fixed_state) Minimum = true)
                   (stores_since demo_fixed_window win'))
      /\ (vec_eqb (mk_vec 30 30) (preferedExtent (extents demo_fixed_state)) = false ->
          exists st' win',
            setPreferedExtent (mk_vec 30 30) demo_fixed_state demo_fixed_window
            = Some (st', win')
            /\ length (stores_since demo_fixed_window win') = 5%nat
            /\ Forall (fun s => registered s (width demo_fixed_state) Prefered
                                && registered s (height demo_fixed_state) Prefered = true)
                      (stores_since demo_fixed_window win'))
      /\ (vec_eqb (mk_vec 30 30) (fixedExtent (extents demo_fixed_state)) = false ->
          forall st' win',
            setFixedExtent (mk_vec 30 30) demo_fixed_state demo_fixed_window
            = Some (st', win') ->
            In (without_fixed demo_fixed_state (constraints demo_fixed_window))
               (stores_since demo_fixed_window win')
            /\ constraints win'
               = without_fixed demo_fixed_state (constraints demo_fixed_window)
                   ++ fixed_added (mk_vec 30 30) demo_fixed_state
                        (next_handle demo_fixed_window))).
Proof.
  split; [reflexivity |].
  apply (constraint_replacement_order (mk_vec 30 30) demo_fixed_state demo_fixed_window).
  reflexivity.
Defined.

(** Counterexample to C2 as stated: the widget fixed at 100 x 50 is given
    the fixed extent 200 x 50.  Its width is bound by an equality before
    and after the call, but one of the stores the solver passes through
    during the call has no equality on the width. *)
Lemma setFixedExtent_leaves_gap :
  match setFixedExtent (mk_vec 200 50) demo_fixed_state demo_fixed_window with
  | Some (st', win') =>
      registered (constraints demo_fixed_window) (width demo_fixed_state) Fixed = true
      /\ registered (constraints win') (width demo_fixed_state) Fixed = true
      /\ existsb (fun s => negb (registered s (width demo_fixed_state) Fixed))
                 (stores_since demo_fixed_window win') = true
  | None => False
  end.
Proof. vm_compute. repeat split. Qed.

(* ================================================================== *)
(** * The single-axis setters *)

(** C10: [setFixedWidth(w)] is [setFixedExtent((w, 0))] and
    [setFixedHeight(h)] is [setFixedExtent((0, h))].  So when the widget
    had a fixed height, bound by the sole equality on its height variable,
    a successful [setFixedWidth] leaves the fixed extent at [(w, 0)] and the
    height without any equality constraint; and likewise [setFixedHeight]
    for a fixed width. *)
Theorem single_axis_setter_drops_other_axis (st : WidgetState) (win : Window) :
  (forall w, setFixedWidth w st win = setFixedExtent (mk_vec w 0) st win)
  /\ (forall h, setFixedHeight h st win = setFixedExtent (mk_vec 0 h) st win)
  /\ (forall w st' win',
        setFixedWidth w st win = Some (st', win') ->
        Qeq_bool (vec_height (fixedExtent (extents st))) 0 = false ->
        sole_fixed (constraints win) (height st)
                   (fixedHeightConstraint (extents st)) = true ->
        fixedExtent (extents st') = mk_vec w 0
        /\ registered (constraints win') (height st) Fixed = false)
  /\ (forall h st' win',
        setFixedHeight h st win = Some (st', win') ->
        Qeq_bool (vec_width (fixedExtent (extents st))) 0 = false ->
        sole_fixed (constraints win) (width st)
                   (fixedWidthConstraint (extents st)) = true ->
        fixedExtent (extents st') = mk_vec 0 h
        /\ registered (constraints win') (width st) Fixed = false).
Proof.
  split; [reflexivity |]. split; [reflexivity |]. split.
  - intros w st' win' Hrun Hold Hsole. unfold setFixedWidth in Hrun.
    assert (Hdiff : vec_eqb (mk_vec w 0) (fixedExtent (extents st)) = false).
    { unfold vec_eqb. cbn [vec_x vec_y].
      change (vec_y (fixedExtent (extents st)))
        with (vec_height (fixedExtent (extents st))).
      now rewrite (Qeq_bool_comm 0), Hold, andb_false_r. }
    destruct (setFixedExtent_run _ _ _ _ _ Hrun Hdiff) as (Hfinal & _ & Hext).
    split; [exact Hext |].
    rewrite Hfinal, registered_app. apply orb_false_iff. split.
    + unfold without_fixed. rewrite Hold. cbn [negb].
      apply registered_remove_sole.
      destruct (negb (Qeq_bool (vec_width (fixedExtent (extents st))) 0));
        [now apply sole_fixed_remove | assumption].
    + unfold fixed_added. cbn [vec_width vec_height vec_x vec_y].
      change (Qeq_bool 0 0) with true. cbn [negb]. rewrite app_nil_r.
      destruct (negb (Qeq_bool w 0)); [| reflexivity].
      unfold registered, width, height, Var_eqb. cbn.
      now rewrite andb_false_r.
  - intros h st' win' Hrun Hold Hsole. unfold setFixedHeight in Hrun.
    assert (Hdiff : vec_eqb (mk_vec 0 h) (fixedExtent (extents st)) = false).
    { unfold vec_eqb. cbn [vec_x vec_y].
      change (vec_x (fixedExtent (extents st)))
        with (vec_width (fixedExtent (extents st))).
      now rewrite (Qeq_bool_comm 0), Hold. }
    destruct (setFixedExtent_run _ _ _ _ _ Hrun Hdiff) as (Hfinal & _ & Hext).
    split; [exact Hext |].
    rewrite Hfinal, registered_app. apply orb_false_iff. split.
    + unfold without_fixed. rewrite Hold. cbn [negb].
      assert (Hgone : registered (store_remove (fixedWidthConstraint (extents st))
                                               (constraints win))
                                 (width st) Fixed = false)
        by now apply registered_remove_sole.
      destruct (negb (Qeq_bool (vec_height (fixedExtent (extents st))) 0));
        [now apply registered_remove_false | assumption].
    + unfold fixed_added. cbn [vec_width vec_height vec_x vec_y].
      change (Qeq_bool 0 0) with true. cbn [negb app].
      destruct (negb (Qeq_bool h 0)); [| reflexivity].
      unfold registered, width, height, Var_eqb. cbn.
      now rewrite andb_false_r.
Qed.

Lemma single_axis_setter_drops_other_axis_witness :
  holds (constraints demo_fixed_window)
        (fixedHeightConstraint (extents demo_fixed_state))
        (height demo_fixed_state) Fixed = true
  /\ exists st' win',
       setFixedWidth 150 demo_fixed_state demo_fixed_window = Some (st', win')
       /\ fixedExtent (extents st') = mk_vec 150 0
       /\ registered (constraints win') (height demo_fixed_state) Fixed = false.
Proof.
  split; [reflexivity |].
  destruct (setFixedWidth 150 demo_fixed_state demo_fixed_window)
    as [[st' win'] |] eqn:Hrun; [| discriminate Hrun].
  exists st', win'. split; [reflexivity |].
  apply (proj1 (proj2 (proj2 (single_axis_setter_drops_other_axis
                                demo_fixed_state demo_fixed_window)))
           150 st' win' Hrun); reflexivity.
Defined.

(* ================================================================== *)
(** * The passes on the example trees *)

(** Layout without force over the chain: the clean middle widget is not
    laid out, the dirty leaf below it is, and the pass returns 3. *)
Example layoutChildren_reaches_dirty_leaf :
  let (w', total_need) := layoutChildren demo_layout_value false demo_chain in
  total_need = 3%Z
  /\ map (fun d => (this_ d, extent (geometry d), forceRedraw (needs_state d)))
         (descendants w')
     = [ (1%nat, mk_vec 0 0, false); (2%nat, mk_vec 30 20, true) ].
Proof. vm_compute. split; reflexivity. Qed.

(** The same pass forced: both widgets are laid out, the leaf's offset
    from its parent is taken against the parent's new offset. *)
Example layoutChildren_forced :
  let (w', total_need) := layoutChildren demo_layout_value true demo_chain in
  total_need = 3%Z
  /\ map (fun d => (this_ d, extent (geometry d), offsetFromParent (geometry d)))
         (descendants w')
     = [ (1%nat, mk_vec 100 50, mk_vec 10 10); (2%nat, mk_vec 30 20, mk_vec 5 7) ].
Proof. vm_compute. split; reflexivity. Qed.

(** Three runs over the chain: the second consumes the redraw flag the
    first one's layout raised, the third finds nothing to do. *)
Example layoutChildren_three_runs :
  let w1 := fst (layoutChildren demo_layout_value false demo_chain) in
  let w2 := fst (layoutChildren demo_layout_value false w1) in
  map (fun d => forceRedraw (needs_state d)) (descendants w1) = [false; true]
  /\ snd (layoutChildren demo_layout_value false w1) = 1%Z
  /\ map (fun d => forceRedraw (needs_state d)) (descendants w2) = [false; false]
  /\ layoutChildren demo_layout_value false w2 = (w2, 0%Z).
Proof. vm_compute. repeat split; reflexivity. Qed.

(** The needs of the four flag combinations of a widget whose size did not
    change. *)
Example needs_of_flags :
  map (fun flags : bool * bool =>
         fst (needs unsolved
                (with_needs (mk_Needs (fst flags) (snd flags) 0 0) demo_defaults)))
      [ (false, false); (false, true); (true, false); (true, true) ]
  = [ 0; 1; 3; 3 ]%Z.
Proof. reflexivity. Qed.

(** A hovered, focused but disabled child at nesting level 1 is drawn with
    the colours of level 0; enabled, it would get the accent colour and the
    fill of level 2. *)
Example draw_hovered_disabled_child :
  map (fun call => (this_ (fst call), ctx_color (snd call), ctx_fillColor (snd call)))
      (draw demo_theme demo_nestingLevel demo_rectangle
            (mk_DrawContext (mk_aarect 0 0 100 100) (T 0 0 0) 7%Z 7%Z)
            demo_disabled)
  = [ (1%nat, 0%Z, 100%Z) ]
  /\ (let enabled_child :=
        demo_widget 1 1 true true true (mk_vec 50 50) (mk_vec 10 10) in
      let ctx := child_context demo_theme demo_nestingLevel demo_rectangle
                   (mk_DrawContext (mk_aarect 0 0 100 100) (T 0 0 0) 7%Z 7%Z)
                   enabled_child in
      (ctx_color ctx, ctx_fillColor ctx) = (999%Z, 102%Z)).
Proof. vm_compute. split; reflexivity. Qed.

(** [setFixedExtent] on the widget of minimum extent 10 x 10: a fixed
    width of 5 aborts, a fixed extent of 0 x 10 goes through. *)
Example setFixedExtent_asserts :
  setFixedExtent (mk_vec 5 50) demo_fixed_state demo_fixed_window = None
  /\ setFixedExtent (mk_vec 0 10) demo_fixed_state demo_fixed_window <> None.
Proof. vm_compute. split; [reflexivity | discriminate]. Qed.

(** Even when the solver answers exactly the minimum extent, here
    10.5 x 20, the rectangle has the rounded size 11 x 20. *)
Example makeWindowRectangle_rounds_minimum :
  match demo_half with
  | Some (st, win) =>
      (demo_value win (width st), demo_value win (height st)) = (21 # 2, 20)
      /\ rect_extent (makeWindowRectangle (demo_value win) st) = mk_vec 11 20
  | None => False
  end.
Proof. vm_compute. split; reflexivity. Qed.

(** Narrowing shows above 2^24: with the solver at 16777217 x 33554435
    the rectangle has the size 16777216 x 33554436. *)
Example makeWindowRectangle_narrows :
  rect_extent (makeWindowRectangle demo_large_value demo_fresh_state)
  = mk_vec 16777216 33554436.
Proof. vm_compute. reflexivity. Qed.

(** At a point outside every widget the hit box is empty. *)
Example hitBoxTest_miss :
  hitBoxTest demo_rectangle demo_contains demo_overlap (mk_vec 200 200) = None.
Proof. reflexivity. Qed.

(* ================================================================== *)
(** * Needs are consumed *)

(** [needs] consumes what it reports: asked again at once, with the
    solver's answers unchanged, it reports 0 and leaves the widget as it
    is. *)
Theorem needs_consumed (value : Values) (st : WidgetState) :
  needs value (snd (needs value st)) = (0%Z, snd (needs value st)).
Proof.
  rewrite (surjective_pairing (needs value (snd (needs value st)))).
  rewrite needs_value, !needs_state_after. cbn.
  now rewrite !Qeq_bool_refl.
Qed.

(* ================================================================== *)
(** * A forced layout pass *)

Lemma vec_eqb_refl (v : vec) : vec_eqb v v = true.
Proof. unfold vec_eqb. now rewrite !Qeq_bool_refl. Qed.

Lemma visit_forced (value : Values) (parent d : WidgetState) :
  visit value true parent d = layout value (Some parent) (snd (needs value d)).
Proof. reflexivity. Qed.

(** Below a widget in state [this], a forced pass leaves every widget with
    an offset from its parent that agrees with the two offsets from the
    window. *)
Lemma layoutChildren_from_offsets (value : Values) (w : Widget) :
  forall this,
    forallb (offsets_agree this) (fst (layoutChildren_from value true this w)) = true.
Proof.
  induction w as [st cs IH] using Widget_ind. intros this.
  rewrite layoutChildren_from_Node.
  generalize 0%Z as total_need.
  induction IH as [| c rest Hc _ IHrest]; intros total_need.
  - reflexivity.
  - rewrite layoutChildren_loop_cons. cbv zeta.
    specialize (Hc (visit value true this (state c))).
    destruct (layoutChildren_from value true (visit value true this (state c)) c)
      as [grandchildren sub_need].
    cbn [fst] in Hc.
    specialize (IHrest (Z.lor (Z.lor total_need (need_of value (state c))) sub_need)).
    destruct (layoutChildren_loop value true (layoutChildren_from value true)
                this rest
                (Z.lor (Z.lor total_need (need_of value (state c))) sub_need))
      as [rest' total_need'].
    cbn [fst] in IHrest |- *. cbn [forallb offsets_agree].
    rewrite Hc, IHrest, !andb_true_r. rewrite visit_forced.
    apply vec_eqb_refl.
Qed.

(** A forced [layoutChildren] gives every widget below the receiver the
    solver's rounded rectangle (extent, offset from the window, and the two
    translations by it and the elevation), raises its [forceRedraw], and
    leaves the offsets from parents in agreement with the offsets from the
    window throughout the tree. *)
Theorem layoutChildren_forced_geometry (value : Values) (w : Widget) :
  let w' := fst (layoutChildren value true w) in
  map (fun d => (extent (geometry d), offsetFromWindow (geometry d),
                 fromWindowTransform (geometry d), toWindowTransform (geometry d)))
      (descendants w')
  = map (solved_geometry value) (descendants w)
  /\ Forall (fun d => forceRedraw (needs_state d) = true) (descendants w')
  /\ forallb (offsets_agree (state w)) (children w') = true.
Proof.
  cbv zeta. destruct (layoutChildren_visits value true w) as (_ & Hvisit & _).
  split; [| split].
  - induction Hvisit as [| d d' l l' [parent ->] _ IH]; [reflexivity |].
    cbn [map]. now rewrite IH, visit_forced.
  - eapply Forall2_Forall_r; [| exact Hvisit].
    intros d d' [parent ->]. reflexivity.
  - unfold layoutChildren.
    pose proof (layoutChildren_from_offsets value w (state w)) as Hagree.
    destruct (layoutChildren_from value true (state w) w) as [cs total_need].
    exact Hagree.
Qed.

(* ================================================================== *)
(** * The binding invariant: established, kept, released *)

Lemma holds_single (h : handle) (c : Constraint) (v : Var) (k : Kind) :
  c_var c = v -> kind_of c = k -> holds [(h, c)] h v k = true.
Proof.
  intros <- <-. unfold holds. cbn.
  rewrite Nat.eqb_refl, Var_eqb_refl. now destruct (kind_of c).
Qed.

Lemma holds_single_other (h h' : handle) (c : Constraint) (v : Var) (k : Kind) :
  h <> h' -> holds [(h', c)] h v k = false.
Proof.
  intros Hne. unfold holds. cbn.
  replace (Nat.eqb h' h) with false; [reflexivity |].
  symmetry. apply Nat.eqb_neq. congruence.
Qed.

Lemma store_remove_app (h : handle) (s s' : Store) :
  store_remove h (s ++ s') = store_remove h s ++ store_remove h s'.
Proof. apply filter_app. Qed.

Lemma store_remove_absent (h : handle) (s : Store) (n : handle) :
  forallb (fun e => Nat.ltb (fst e) n) s = true -> (n <= h)%nat ->
  store_remove h s = s.
Proof.
  intros Hfresh Hh. unfold store_remove.
  induction s as [| [he ce] s IH]; [reflexivity |].
  cbn [forallb fst] in Hfresh. apply andb_true_iff in Hfresh.
  destruct Hfresh as [He Hs]. apply Nat.ltb_lt in He. cbn [filter fst].
  replace (Nat.eqb he h) with false by (symmetry; apply Nat.eqb_neq; lia).
  cbn [negb]. now rewrite IH.
Qed.

Lemma store_remove_single_same (h : handle) (c : Constraint) :
  store_remove h [(h, c)] = [].
Proof. unfold store_remove. cbn. now rewrite Nat.eqb_refl. Qed.

Lemma store_remove_single_other (h h' : handle) (c : Constraint) :
  h <> h' -> store_remove h [(h', c)] = [(h', c)].
Proof.
  intros Hne. unfold store_remove. cbn.
  replace (Nat.eqb h' h) with false; [reflexivity |].
  symmetry. apply Nat.eqb_neq. congruence.
Qed.



Lemma handles_fresh_add (win : Window) (c : Constraint) (h : handle) (win' : Window) :
  addConstraint c win = Some (h, win') ->
  handles_fresh win = true -> handles_fresh win' = true.
Proof.
  unfold addConstraint, handles_fresh. intros Hrun Hfresh.
  injection Hrun as <- <-. cbn [constraints next_handle].
  rewrite forallb_app. apply andb_true_iff. split.
  - rewrite forallb_forall in Hfresh |- *. intros e He.
    specialize (Hfresh e He). apply Nat.ltb_lt in Hfresh. apply Nat.ltb_lt. lia.
  - cbn [forallb fst]. rewrite andb_true_r. apply Nat.ltb_lt. lia.
Qed.

(** Decide the comparisons of handles that occur in the goal. *)
Ltac handle_bools :=
  repeat match goal with
         | |- context [Nat.eqb ?a ?b] =>
             first [ replace (Nat.eqb a b) with true
                       by (symmetry; apply Nat.eqb_eq; lia)
                   | replace (Nat.eqb a b) with false
                       by (symmetry; apply Nat.eqb_neq; lia) ]
         | |- context [Nat.ltb ?a ?b] =>
             first [ replace (Nat.ltb a b) with true
                       by (symmetry; apply Nat.ltb_lt; lia)
                   | replace (Nat.ltb a b) with false
                       by (symmetry; apply Nat.ltb_ge; lia) ]
         end.

(** Push [holds] through the additions and removals that made the store. *)
Ltac holds_through :=
  repeat first
    [ rewrite holds_app
    | rewrite holds_remove by lia
    | rewrite holds_single by reflexivity
    | rewrite holds_single_other by lia ].


Lemma Widget_new_run (this : nat) (parent : option WidgetState) (defaultExtent : vec)
      (defaults : WidgetState) (win : Window) :
  let n := next_handle win in
  let e := extents defaults in
  Widget_new this parent defaultExtent defaults win =
  Some (mk_WidgetState this
          (match parent with Some p => elevation p + 1 | None => 0 end)
          true (hover defaults) (focus defaults)
          (mk_Extents defaultExtent defaultExtent (fixedExtent e)
                      n (S n) (S (S n)) (S (S (S n)))
                      (fixedWidthConstraint e) (fixedHeightConstraint e))
          (needs_state defaults) (geometry defaults),
        mk_Window (S (S (S (S n))))
          ((((constraints win
              ++ [(n, mk_constraint (this, Width) Ge (vec_width defaultExtent) Required)])
             ++ [(S n, mk_constraint (this, Height) Ge (vec_height defaultExtent) Required)])
            ++ [(S (S n), mk_constraint (this, Width) Ge (vec_width defaultExtent) Strong)])
           ++ [(S (S (S n)),
                mk_constraint (this, Height) Ge (vec_height defaultExtent) Strong)])
          ((((constraints win
              ++ [(n, mk_constraint (this, Width) Ge (vec_width defaultExtent) Required)])
             ++ [(S n, mk_constraint (this, Height) Ge (vec_height defaultExtent) Required)])
            ++ [(S (S n), mk_constraint (this, Width) Ge (vec_width defaultExtent) Strong)])
           :: ((constraints win
                ++ [(n, mk_constraint (this, Width) Ge (vec_width defaultExtent) Required)])
               ++ [(S n, mk_constraint (this, Height) Ge (vec_height defaultExtent) Required)])
           :: (constraints win
               ++ [(n, mk_constraint (this, Width) Ge (vec_width defaultExtent) Required)])
           :: constraints win :: past win)).
Proof. reflexivity. Qed.

(** The constructor registers the four base constraints for the default
    extent and leaves the widget bound: minimum and prefered extent are the
    default extent, the elevation is one above the parent's (0 without
    parent), and the binding invariant holds in the new window. *)
Theorem Widget_new_bound (this : nat) (parent : option WidgetState)
        (defaultExtent : vec) (defaults : WidgetState) (win : Window) :
  vec_eqb (fixedExtent (extents defaults)) (mk_vec 0 0) = true ->
  exists st win',
    Widget_new this parent defaultExtent defaults win = Some (st, win')
    /\ minimumExtent (extents st) = defaultExtent
    /\ preferedExtent (extents st) = defaultExtent
    /\ elevation st = match parent with Some p => elevation p + 1 | None => 0 end
    /\ enabled st = true
    /\ bound_inv st win' = true
    /\ (handles_fresh win = true -> handles_fresh win' = true).
Proof.
  intros Hunfixed. unfold vec_eqb in Hunfixed. cbn [vec_x vec_y] in Hunfixed.
  apply andb_true_iff in Hunfixed. destruct Hunfixed as [Hfw Hfh].
  rewrite Widget_new_run. cbv zeta. do 2 eexists. split; [reflexivity |].
  repeat (split; [reflexivity |]). split.
  - unfold bound_inv, fixed_bound, base_handles, width, height, vec_width, vec_height.
    cbn [extents constraints next_handle this_ fixedExtent
         minimumWidthConstraint minimumHeightConstraint
         preferedWidthConstraint preferedHeightConstraint distinct existsb forallb].
    rewrite Hfw, Hfh. holds_through. handle_bools.
    now rewrite ?orb_false_r, ?orb_true_r.
  - intros Hfresh. unfold handles_fresh in *. cbn [constraints next_handle].
    rewrite !forallb_app. cbn [forallb fst]. handle_bools.
    rewrite !andb_true_r. rewrite forallb_forall in Hfresh |- *. intros e He.
    specialize (Hfresh e He). apply Nat.ltb_lt in Hfresh. apply Nat.ltb_lt. lia.
Qed.

Lemma Widget_new_bound_witness :
  vec_eqb (fixedExtent (extents demo_defaults)) (mk_vec 0 0) = true
  /\ exists st win',
       Widget_new 1 None (mk_vec 10 20) demo_defaults empty_window = Some (st, win')
       /\ minimumExtent (extents st) = mk_vec 10 20
       /\ preferedExtent (extents st) = mk_vec 10 20
       /\ elevation st = 0
       /\ enabled st = true
       /\ bound_inv st win' = true
       /\ (handles_fresh empty_window = true -> handles_fresh win' = true).
Proof.
  split; [reflexivity |].
  apply (Widget_new_bound 1 None (mk_vec 10 20) demo_defaults empty_window).
  reflexivity.
Defined.

Lemma store_remove_nil (h : handle) : store_remove h [] = [].
Proof. reflexivity. Qed.

Lemma Widget_delete_run (st : WidgetState) (win : Window) :
  exists win',
    Widget_delete st win = Some (tt, win')
    /\ next_handle win' = next_handle win
    /\ constraints win'
       = store_remove (preferedHeightConstraint (extents st))
           (store_remove (preferedWidthConstraint (extents st))
              (store_remove (minimumHeightConstraint (extents st))
                 (store_remove (minimumWidthConstraint (extents st))
                    (constraints win)))).
Proof. eexists. split; [reflexivity |]. split; reflexivity. Qed.

(** Constructing a widget and destroying it again leaves the window's
    constraints as they were, provided the window hands out fresh
    handles. *)
Theorem Widget_new_delete_restores (this : nat) (parent : option WidgetState)
        (defaultExtent : vec) (defaults : WidgetState) (win : Window) :
  handles_fresh win = true ->
  exists st win1 win2,
    Widget_new this parent defaultExtent defaults win = Some (st, win1)
    /\ Widget_delete st win1 = Some (tt, win2)
    /\ constraints win2 = constraints win.
Proof.
  intros Hfresh. unfold handles_fresh in Hfresh.
  rewrite Widget_new_run. cbv zeta. do 2 eexists.
  match goal with
  | |- exists win2, Some (?st, ?win1) = _ /\ _ =>
      destruct (Widget_delete_run st win1) as (win2 & Hdel & _ & Hstore);
      exists win2
  end.
  split; [reflexivity |]. split; [exact Hdel |]. rewrite Hstore.
  cbn [extents constraints minimumWidthConstraint minimumHeightConstraint
       preferedWidthConstraint preferedHeightConstraint].
  rewrite !store_remove_app.
  rewrite !(store_remove_absent _ (constraints win) (next_handle win)) by (assumption || lia).
  repeat first [ rewrite store_remove_single_same
               | rewrite store_remove_single_other by lia
               | rewrite store_remove_nil ].
  now rewrite !app_nil_r.
Qed.


Lemma Widget_new_delete_restores_witness :
  handles_fresh demo_fixed_window = true
  /\ exists st win1 win2,
       Widget_new 2 (Some demo_fixed_state) (mk_vec 30 30) demo_defaults
                  demo_fixed_window = Some (st, win1)
       /\ Widget_delete st win1 = Some (tt, win2)
       /\ constraints win2 = constraints demo_fixed_window.
Proof.
  split; [reflexivity |].
  apply (Widget_new_delete_restores 2 (Some demo_fixed_state) (mk_vec 30 30)
           demo_defaults demo_fixed_window).
  reflexivity.
Defined.











(** What a [setFixedExtent] with a differing value leaves behind. *)
Lemma setFixedExtent_result (new : vec) (st st' : WidgetState) (win win' : Window) :
  setFixedExtent new st win = Some (st', win') ->
  vec_eqb new (fixedExtent (extents st)) = false ->
  let e := extents st in
  let n := next_handle win in
  st' = with_extents
          (mk_Extents (minimumExtent e) (preferedExtent e) new
             (minimumWidthConstraint e) (minimumHeightConstraint e)
             (preferedWidthConstraint e) (preferedHeightConstraint e)
             (if negb (Qeq_bool (vec_width new) 0) then n
              else fixedWidthConstraint e)
             (if negb (Qeq_bool (vec_height new) 0)
              then (if negb (Qeq_bool (vec_width new) 0) then S n else n)
              else fixedHeightConstraint e)) st
  /\ constraints win' = without_fixed st (constraints win) ++ fixed_added new st n
  /\ next_handle win' = (length (fixed_added new st n) + n)%nat.
Proof.
  unfold setFixedExtent, bind, ttauri_assert, without_fixed, fixed_added.
  destruct (fixed_width_ok new st); [| discriminate].
  destruct (fixed_height_ok new st); [| discriminate].
  intros Hrun Hdiff. rewrite Hdiff in Hrun. cbn [negb] in Hrun. cbv zeta.
  destruct (negb (Qeq_bool (vec_width (fixedExtent (extents st))) 0));
    destruct (negb (Qeq_bool (vec_height (fixedExtent (extents st))) 0));
    destruct (negb (Qeq_bool (vec_width new) 0));
    destruct (negb (Qeq_bool (vec_height new) 0));
    unfold removeConstraint, addConstraint, ret in Hrun;
    cbn [next_handle constraints past] in Hrun; injection Hrun as <- <-;
    cbn [constraints next_handle];
    (split; [reflexivity | split; [now rewrite <- ?app_assoc, ?app_nil_r | reflexivity]]).
Qed.







Lemma Qeq_bool_zero_r (a b : Q) :
  Qeq_bool b 0 = true -> Qeq_bool a b = Qeq_bool a 0.
Proof.
  intros Hb. apply Qeq_bool_iff in Hb.
  destruct (Qeq_bool a b) eqn:Hab, (Qeq_bool a 0) eqn:Ha; try reflexivity.
  - apply Qeq_bool_iff in Hab. rewrite Hb in Hab. apply Qeq_bool_iff in Hab. congruence.
  - apply Qeq_bool_iff in Ha. rewrite <- Hb in Ha. apply Qeq_bool_iff in Ha. congruence.
Qed.

Lemma setFixedExtent_zero_asserts (st : WidgetState) :
  fixed_width_ok (mk_vec 0 0) st && fixed_height_ok (mk_vec 0 0) st = true.
Proof. reflexivity. Qed.

(** Fixing an unfixed widget and unfixing it again (fixed extent 0 x 0)
    leaves the window's constraints as they were, provided the window
    hands out fresh handles and the fixed extent passes the assertions. *)
Theorem setFixedExtent_zero_restores (new : vec) (st : WidgetState) (win : Window) :
  handles_fresh win = true ->
  vec_eqb (fixedExtent (extents st)) (mk_vec 0 0) = true ->
  fixed_width_ok new st && fixed_height_ok new st = true ->
  exists st1 win1 st2 win2,
    setFixedExtent new st win = Some (st1, win1)
    /\ setFixedExtent (mk_vec 0 0) st1 win1 = Some (st2, win2)
    /\ constraints win2 = constraints win
    /\ vec_eqb (fixedExtent (extents st2)) (mk_vec 0 0) = true.
Proof.
  intros Hfresh Hold Hok. unfold handles_fresh in Hfresh.
  unfold vec_eqb in Hold. cbn [vec_x vec_y] in Hold.
  apply andb_true_iff in Hold. destruct Hold as [Hzw Hzh].
  destruct (setFixedExtent new st win) as [[st1 win1] |] eqn:Hrun1.
  2:{ apply setFixedExtent_aborts_iff in Hrun1. congruence. }
  destruct (setFixedExtent (mk_vec 0 0) st1 win1) as [[st2 win2] |] eqn:Hrun2.
  2:{ apply setFixedExtent_aborts_iff in Hrun2.
      rewrite setFixedExtent_zero_asserts in Hrun2. discriminate. }
  exists st1, win1, st2, win2. split; [reflexivity |]. split; [exact Hrun2 |].
  destruct (vec_eqb new (fixedExtent (extents st))) eqn:Hdiff1.
  - (* the first call changes nothing, and so does the second *)
    assert (Hsame1 : st1 = st /\ win1 = win).
    { unfold setFixedExtent, bind, ttauri_assert in Hrun1. rewrite Hdiff1 in Hrun1.
      destruct (fixed_width_ok new st); [| discriminate].
      destruct (fixed_height_ok new st); [| discriminate].
      injection Hrun1 as <- <-. now split. }
    destruct Hsame1 as [-> ->].
    assert (Hdiff2 : vec_eqb (mk_vec 0 0) (fixedExtent (extents st)) = true).
    { unfold vec_eqb. cbn [vec_x vec_y].
      now rewrite (Qeq_bool_zero_r _ _ Hzw), (Qeq_bool_zero_r _ _ Hzh). }
    unfold setFixedExtent, bind, ttauri_assert in Hrun2. rewrite Hdiff2 in Hrun2.
    cbn in Hrun2. injection Hrun2 as <- <-. split; [reflexivity |].
    unfold vec_eqb. cbn [vec_x vec_y]. now rewrite Hzw, Hzh.
  - destruct (setFixedExtent_result new st st1 win win1 Hrun1 Hdiff1)
      as (-> & Hstore1 & Hnext1). cbv zeta in *.
    assert (Hnz : Qeq_bool (vec_x new) 0 && Qeq_bool (vec_y new) 0 = false).
    { unfold vec_eqb in Hdiff1.
      now rewrite (Qeq_bool_zero_r _ _ Hzw), (Qeq_bool_zero_r _ _ Hzh) in Hdiff1. }
    assert (Hdiff2 : vec_eqb (mk_vec 0 0) new = false).
    { unfold vec_eqb. cbn [vec_x vec_y].
      now rewrite (Qeq_bool_comm 0), (Qeq_bool_comm 0 (vec_y new)). }
    destruct (setFixedExtent_result (mk_vec 0 0) _ st2 win1 win2 Hrun2 Hdiff2)
      as (-> & Hstore2 & _). cbv zeta in *.
    split; [| reflexivity].
    rewrite Hstore2, Hstore1. unfold fixed_added, without_fixed.
    cbn [extents fixedExtent with_extents fixedWidthConstraint fixedHeightConstraint].
    unfold vec_width, vec_height. cbn [vec_x vec_y].
    change (Qeq_bool 0 0) with true. rewrite Hzw, Hzh. cbn [negb].
    destruct (Qeq_bool (vec_x new) 0); destruct (Qeq_bool (vec_y new) 0);
      try discriminate; cbn [negb];
      repeat first [ rewrite store_remove_app
                   | rewrite store_remove_single_same
                   | rewrite store_remove_single_other by lia
                   | rewrite store_remove_nil
                   | rewrite app_nil_r
                   | rewrite app_nil_l
                   | rewrite (store_remove_absent _ (constraints win) (next_handle win))
                       by (assumption || lia) ];
      reflexivity.
Qed.

Lemma setFixedExtent_zero_restores_witness :
  handles_fresh demo_fresh_window = true
  /\ vec_eqb (fixedExtent (extents demo_fresh_state)) (mk_vec 0 0) = true
  /\ fixed_width_ok (mk_vec 100 50) demo_fresh_state
     && fixed_height_ok (mk_vec 100 50) demo_fresh_state = true
  /\ exists st1 win1 st2 win2,
       setFixedExtent (mk_vec 100 50) demo_fresh_state demo_fresh_window
       = Some (st1, win1)
       /\ setFixedExtent (mk_vec 0 0) st1 win1 = Some (st2, win2)
       /\ constraints win2 = constraints demo_fresh_window
       /\ vec_eqb (fixedExtent (extents st2)) (mk_vec 0 0) = true.
Proof.
  split; [reflexivity |]. split; [reflexivity |]. split; [reflexivity |].
  apply (setFixedExtent_zero_restores (mk_vec 100 50) demo_fresh_state
           demo_fresh_window); reflexivity.
Defined.

(* ================================================================== *)
(** * Reading bits: what is read *)

Module BitReaderFacts.

Import BitReader.
Local Open Scope Z_scope.

Lemma byte_val_range (b : Byte.byte) : 0 <= byte_val b < 256.
Proof.
  unfold byte_val. pose proof (Byte.to_N_bounded b) as Hb. lia.
Qed.

Lemma int32_small (z : Z) : - 2 ^ 31 <= z < 2 ^ 31 -> int32 z = z.
Proof. intros Hz. unfold int32. rewrite Z.mod_small; lia. Qed.

Lemma size_t_small (z : Z) : 0 <= z < 2 ^ 64 -> size_t z = z.
Proof. intros Hz. unfold size_t. now apply Z.mod_small. Qed.

Lemma at_index_Some (bytes : list Byte.byte) (q b : Z) :
  at_index bytes q = Some b ->
  0 <= q < Z.of_nat (length bytes) /\ 0 <= b < 256.
Proof.
  unfold at_index. destruct (q <? 0) eqn:Hq; [discriminate |].
  apply Z.ltb_ge in Hq.
  destruct (nth_error bytes (Z.to_nat q)) as [x |] eqn:Hnth; [| discriminate].
  cbn. intros Hb. injection Hb as <-.
  assert (Hlen : (Z.to_nat q < length bytes)%nat).
  { apply nth_error_Some. congruence. }
  split; [lia | apply byte_val_range].
Qed.

Lemma at_index_None (bytes : list Byte.byte) (q : Z) :
  at_index bytes q = None <-> q < 0 \/ Z.of_nat (length bytes) <= q.
Proof.
  unfold at_index. destruct (q <? 0) eqn:Hq.
  - apply Z.ltb_lt in Hq. split; [now left | reflexivity].
  - apply Z.ltb_ge in Hq.
    destruct (nth_error bytes (Z.to_nat q)) as [x |] eqn:Hnth; cbn.
    + assert (Hlen : (Z.to_nat q < length bytes)%nat).
      { apply nth_error_Some. congruence. }
      split; [discriminate | lia].
    + apply nth_error_None in Hnth. split; [lia | reflexivity].
Qed.

Lemma at_index_cons (b : Byte.byte) (rest : list Byte.byte) (q : Z) :
  1 <= q -> at_index (b :: rest) q = at_index rest (q - 1).
Proof.
  intros Hq. unfold at_index.
  replace (q <? 0) with false by (symmetry; apply Z.ltb_ge; lia).
  replace (q - 1 <? 0) with false by (symmetry; apply Z.ltb_ge; lia).
  replace (Z.to_nat q) with (S (Z.to_nat (q - 1))) by lia. reflexivity.
Qed.

Lemma le_value_cons_bits (b : Byte.byte) (rest : list Byte.byte) (i : Z) :
  0 <= i ->
  Z.testbit (le_value (b :: rest)) i
  = if i <? 8 then Z.testbit (byte_val b) i else Z.testbit (le_value rest) (i - 8).
Proof.
  intros Hi. cbn [le_value]. pose proof (byte_val_range b) as Hb.
  destruct (i <? 8) eqn:Hlt.
  - apply Z.ltb_lt in Hlt.
    rewrite <- (Z.mod_pow2_bits_low _ 8 i) by lia.
    change (2 ^ 8) with 256.
    rewrite (Z.mul_comm 256), Z_mod_plus_full, Z.mod_small by lia. reflexivity.
  - apply Z.ltb_ge in Hlt.
    replace i with (i - 8 + 8) at 1 by lia.
    rewrite <- Z.div_pow2_bits by lia. change (2 ^ 8) with 256.
    rewrite (Z.mul_comm 256), Z.div_add, Z.div_small by lia. reflexivity.
Qed.

(** Bit [r] of byte [q] is bit [8 q + r] of the bytes read as one number. *)
Lemma le_value_bit (bytes : list Byte.byte) :
  forall q r, 0 <= q -> 0 <= r < 8 ->
    Z.testbit (le_value bytes) (8 * q + r)
    = match at_index bytes q with
      | Some b => Z.testbit b r
      | None => false
      end.
Proof.
  induction bytes as [| b rest IH]; intros q r Hq Hr.
  - cbn [le_value]. rewrite Z.bits_0.
    replace (at_index [] q) with (@None Z); [reflexivity |].
    symmetry. apply at_index_None. cbn. lia.
  - rewrite le_value_cons_bits by lia.
    destruct (Z.eq_dec q 0) as [-> | Hne].
    + replace (8 * 0 + r <? 8) with true by (symmetry; apply Z.ltb_lt; lia).
      replace (8 * 0 + r) with r by lia. reflexivity.
    + replace (8 * q + r <? 8) with false by (symmetry; apply Z.ltb_ge; lia).
      replace (8 * q + r - 8) with (8 * (q - 1) + r) by lia.
      rewrite IH by lia. now rewrite at_index_cons by lia.
Qed.

Lemma index_split (index : Z) :
  0 <= index ->
  Z.shiftr index 3 = index / 8 /\ Z.land index 7 = index mod 8.
Proof.
  intros Hi. split.
  - now rewrite Z.shiftr_div_pow2 by lia.
  - change 7 with (Z.ones 3). now rewrite Z.land_ones by lia.
Qed.

Lemma land_1_bit (x : Z) : Z.land x 1 = Z.b2z (Z.testbit x 0).
Proof.
  change 1 with (Z.ones 1) at 1. rewrite Z.land_ones by lia.
  rewrite Z.testbit_spec' by lia. now rewrite Z.pow_0_r, Z.div_1_r.
Qed.

(** [get_bit] reads bit [index] of the bytes taken as one little-endian
    number; an index at or beyond the last bit fails the bounds check. *)
Theorem get_bit_spec (bytes : list Byte.byte) (index : Z) :
  0 <= index ->
  get_bit bytes index
  = if index <? 8 * Z.of_nat (length bytes)
    then Ok (Z.b2z (Z.testbit (le_value bytes) index))
    else OutOfRange.
Proof.
  intros Hi. unfold get_bit. destruct (index_split index Hi) as [-> ->].
  pose proof (Z.mod_pos_bound index 8 ltac:(lia)) as Hr.
  pose proof (Z.div_mod index 8 ltac:(lia)) as Hdm.
  assert (Hq : 0 <= index / 8) by (apply Z.div_pos; lia).
  rewrite Hdm at 3. rewrite le_value_bit by lia.
  destruct (at_index bytes (index / 8)) as [b |] eqn:Hat.
  - apply at_index_Some in Hat.
    replace (index <? 8 * Z.of_nat (length bytes)) with true
      by (symmetry; apply Z.ltb_lt; lia).
    rewrite land_1_bit, Z.shiftr_spec by lia. reflexivity.
  - apply at_index_None in Hat.
    replace (index <? 8 * Z.of_nat (length bytes)) with false
      by (symmetry; apply Z.ltb_ge; lia).
    reflexivity.
Qed.

Section Loop.

Variable bytes : list Byte.byte.
Variable index0 length : Z.
Hypothesis index0_nonneg : 0 <= index0.
Hypothesis length_range : 0 <= length <= 31.
Hypothesis span_size : 8 * Z.of_nat (List.length bytes) < 2 ^ 64.

(** The number of bits one iteration takes. *)
Lemma nr_bits_range (r todo : Z) :
  0 <= r < 8 -> 0 < todo ->
  let nr_bits := if 8 - r <? todo then 8 - r else todo in
  1 <= nr_bits <= 8 - r /\ nr_bits <= todo.
Proof.
  intros Hr Htodo. cbv zeta.
  destruct (8 - r <? todo) eqn:Hlt;
    [apply Z.ltb_lt in Hlt | apply Z.ltb_ge in Hlt]; lia.
Qed.

Lemma mask_ones (nr_bits : Z) :
  1 <= nr_bits <= 8 -> int32 (int32 (Z.shiftl 1 nr_bits) - 1) = Z.ones nr_bits.
Proof.
  intros Hnr. rewrite Z.shiftl_1_l, Z.ones_equiv.
  assert (H2 : 2 ^ 1 <= 2 ^ nr_bits <= 2 ^ 8)
    by (split; apply Z.pow_le_mono_r; lia).
  rewrite (int32_small (2 ^ nr_bits)) by lia.
  rewrite int32_small by lia. lia.
Qed.

(** While the bits asked for lie inside the span, the loop ends with the
    [length] bits of the span that start at [index0]. *)
Lemma get_bits_loop_in_range :
  index0 + length <= 8 * Z.of_nat (List.length bytes) ->
  forall fuel todo done value,
    0 <= done -> 0 <= todo -> done + todo = length ->
    (Z.to_nat todo <= fuel)%nat ->
    value = Z.land (Z.shiftr (le_value bytes) index0) (Z.ones done) ->
    get_bits_loop fuel bytes (index0 + done) value todo done
    = Ok (Z.land (Z.shiftr (le_value bytes) index0) (Z.ones length)).
Proof.
  intros Hin. induction fuel as [| fuel IH];
    intros todo done value Hdone Htodo Hsum Hfuel Hvalue.
  - assert (todo = 0) by lia. subst todo. cbn.
    replace length with done by lia. now rewrite Hvalue.
  - cbn [get_bits_loop]. destruct (todo =? 0) eqn:Hz.
    { apply Z.eqb_eq in Hz. replace length with done by lia. now rewrite Hvalue. }
    apply Z.eqb_neq in Hz.
    assert (Hidx : 0 <= index0 + done) by lia.
    destruct (index_split (index0 + done) Hidx) as [-> ->].
    pose proof (Z.mod_pos_bound (index0 + done) 8 ltac:(lia)) as Hr.
    pose proof (Z.div_mod (index0 + done) 8 ltac:(lia)) as Hdm.
    assert (Hq : 0 <= (index0 + done) / 8) by (apply Z.div_pos; lia).
    set (q := (index0 + done) / 8) in *. set (r := (index0 + done) mod 8) in *.
    destruct (nr_bits_range r todo Hr ltac:(lia)) as [Hnr Hnr_todo].
    set (nr_bits := if 8 - r <? todo then 8 - r else todo) in *.
    rewrite mask_ones by lia.
    destruct (at_index bytes q) as [b |] eqn:Hat.
    2:{ apply at_index_None in Hat. lia. }
    assert (Htmp : 0 <= Z.land (Z.shiftr b r) (Z.ones nr_bits) < 2 ^ nr_bits).
    { rewrite Z.land_ones by lia. apply Z.mod_pos_bound. apply Z.pow_pos_nonneg; lia. }
    assert (Hshift : 0 <= Z.shiftl (Z.land (Z.shiftr b r) (Z.ones nr_bits)) done
                     < 2 ^ 31).
    { rewrite Z.shiftl_mul_pow2 by lia.
      assert (Hpd : 0 < 2 ^ done) by (apply Z.pow_pos_nonneg; lia).
      assert (Hle : 2 ^ (nr_bits + done) <= 2 ^ 31) by (apply Z.pow_le_mono_r; lia).
      rewrite Z.pow_add_r in Hle by lia. nia. }
    rewrite (int32_small (Z.shiftl _ done)) by lia.
    rewrite (int32_small (todo - nr_bits)), (int32_small (done + nr_bits)) by lia.
    rewrite size_t_small by lia.
    replace (index0 + done + nr_bits) with (index0 + (done + nr_bits)) by lia.
    apply IH; try lia.
    apply Z.bits_inj'. intros i Hi.
    rewrite Hvalue, Z.lor_spec, !Z.land_spec, !Z.testbit_ones_nonneg by lia.
    rewrite Z.shiftl_spec by lia.
    destruct (i <? done) eqn:Hid; [apply Z.ltb_lt in Hid | apply Z.ltb_ge in Hid].
    + rewrite (Z.testbit_neg_r _ (i - done)) by lia.
      replace (i <? done + nr_bits) with true by (symmetry; apply Z.ltb_lt; lia).
      now rewrite orb_false_r.
    + rewrite Z.land_spec, Z.testbit_ones_nonneg by lia.
      rewrite andb_false_r, orb_false_l.
      replace (i - done <? nr_bits) with (i <? done + nr_bits).
      2:{ destruct (i <? done + nr_bits) eqn:H1; symmetry;
            [apply Z.ltb_lt in H1; apply Z.ltb_lt | apply Z.ltb_ge in H1; apply Z.ltb_ge];
            lia. }
      destruct (i <? done + nr_bits) eqn:Hin_bits;
        [apply Z.ltb_lt in Hin_bits | now rewrite !andb_false_r].
      rewrite !andb_true_r, !Z.shiftr_spec by lia.
      replace (i + index0) with (8 * q + (i - done + r)) by lia.
      rewrite le_value_bit, Hat by lia. reflexivity.
Qed.

(** When the bits asked for reach beyond the span, the loop runs into the
    bounds check. *)
Lemma get_bits_loop_out_of_range :
  forall fuel todo done value,
    0 <= done -> 0 < todo -> done + todo = length ->
    (Z.to_nat todo <= fuel)%nat ->
    8 * Z.of_nat (List.length bytes) < index0 + length ->
    index0 + done <= 8 * Z.of_nat (List.length bytes) ->
    get_bits_loop fuel bytes (index0 + done) value todo done = OutOfRange.
Proof.
  induction fuel as [| fuel IH];
    intros todo done value Hdone Htodo Hsum Hfuel Hout Hidx_in; [lia |].
  cbn [get_bits_loop].
  replace (todo =? 0) with false by (symmetry; apply Z.eqb_neq; lia).
  assert (Hidx : 0 <= index0 + done) by lia.
  destruct (index_split (index0 + done) Hidx) as [-> ->].
  pose proof (Z.mod_pos_bound (index0 + done) 8 ltac:(lia)) as Hr.
  pose proof (Z.div_mod (index0 + done) 8 ltac:(lia)) as Hdm.
  assert (Hq : 0 <= (index0 + done) / 8) by (apply Z.div_pos; lia).
  set (q := (index0 + done) / 8) in *. set (r := (index0 + done) mod 8) in *.
  destruct (nr_bits_range r todo Hr Htodo) as [Hnr Hnr_todo].
  set (nr_bits := if 8 - r <? todo then 8 - r else todo) in *.
  destruct (at_index bytes q) as [b |] eqn:Hat; [| reflexivity].
  apply at_index_Some in Hat.
  rewrite (int32_small (todo - nr_bits)), (int32_small (done + nr_bits)) by lia.
  rewrite size_t_small by lia.
  replace (index0 + done + nr_bits) with (index0 + (done + nr_bits)) by lia.
  apply IH; lia.
Qed.

End Loop.

Lemma get_bits_zero (bytes : list Byte.byte) (index : Z) :
  get_bits bytes index 0 = Ok 0.
Proof. reflexivity. Qed.

Lemma get_bits_in_range (bytes : list Byte.byte) (index length : Z) :
  0 <= index -> 0 <= length <= 31 ->
  8 * Z.of_nat (List.length bytes) < 2 ^ 64 ->
  index + length <= 8 * Z.of_nat (List.length bytes) ->
  get_bits bytes index length = Ok ((le_value bytes / 2 ^ index) mod 2 ^ length).
Proof.
  intros Hindex Hlength Hspan Hin.
  destruct (Z.eq_dec length 0) as [-> | Hz].
  - rewrite get_bits_zero. now rewrite Z.mod_1_r.
  - unfold get_bits. replace index with (index + 0) at 1 by lia.
    rewrite (get_bits_loop_in_range bytes index length Hindex Hlength Hspan Hin
               (Z.to_nat length) length 0 0);
      [ now rewrite Z.land_ones, Z.shiftr_div_pow2 by lia
      | lia | lia | lia | lia
      | change (Z.ones 0) with 0; now rewrite Z.land_0_r ].
Qed.

(** [get_bits] returns the [length] bits that start at bit [index] of the
    bytes taken as one little-endian number, lowest bit first.  Asking for
    no bits reads nothing and returns 0; asking for bits beyond the span
    fails the bounds check. *)
Theorem get_bits_spec (bytes : list Byte.byte) (index length : Z) :
  0 <= index -> 0 <= length <= 31 ->
  8 * Z.of_nat (List.length bytes) < 2 ^ 64 ->
  get_bits bytes index length
  = if (length =? 0) || (index + length <=? 8 * Z.of_nat (List.length bytes))
    then Ok ((le_value bytes / 2 ^ index) mod 2 ^ length)
    else OutOfRange.
Proof.
  intros Hindex Hlength Hspan.
  destruct (length =? 0) eqn:Hz.
  - apply Z.eqb_eq in Hz. subst length. cbn. now rewrite Z.mod_1_r.
  - apply Z.eqb_neq in Hz. cbn [orb].
    destruct (index + length <=? 8 * Z.of_nat (List.length bytes)) eqn:Hin;
      [apply Z.leb_le in Hin | apply Z.leb_gt in Hin].
    + now apply get_bits_in_range.
    + unfold get_bits. replace index with (index + 0) at 1 by lia.
      destruct (Z_le_gt_dec index (8 * Z.of_nat (List.length bytes))) as [Hle | Hgt].
      * apply (get_bits_loop_out_of_range bytes index length Hindex Hlength Hspan); lia.
      * (* the very first read is out of range *)
        destruct (Z.to_nat length) as [| fuel] eqn:Hfuel; [lia |].
        cbn [get_bits_loop].
        replace (length =? 0) with false by (symmetry; apply Z.eqb_neq; lia).
        rewrite Z.add_0_r.
        destruct (index_split index Hindex) as [-> _].
        replace (at_index bytes (index / 8)) with (@None Z); [reflexivity |].
        symmetry. apply at_index_None. right.
        apply Z.div_le_lower_bound; lia.
Qed.

Lemma get_bits_spec_witness :
  0 <= 6 /\ 0 <= 5 <= 31 /\ 8 * Z.of_nat (List.length demo_bytes) < 2 ^ 64
  /\ get_bits demo_bytes 6 5
     = if (5 =? 0) || (6 + 5 <=? 8 * Z.of_nat (List.length demo_bytes))
       then Ok ((le_value demo_bytes / 2 ^ 6) mod 2 ^ 5)
       else OutOfRange.
Proof.
  split; [lia |]. split; [lia |]. split; [reflexivity |].
  apply (get_bits_spec demo_bytes 6 5); [lia | lia | reflexivity].
Defined.

Lemma get_bit_spec_witness :
  0 <= 9
  /\ get_bit demo_bytes 9
     = if 9 <? 8 * Z.of_nat (List.length demo_bytes)
       then Ok (Z.b2z (Z.testbit (le_value demo_bytes) 9))
       else OutOfRange.
Proof. split; [lia | apply (get_bit_spec demo_bytes 9); lia]. Defined.


(** Reading [n + m] bits at once is reading [n] bits and then [m] more:
    the second read lands above the first. *)
Theorem get_bits_split (bytes : list Byte.byte) (index n m : Z) :
  0 <= index -> 0 <= n -> 0 <= m -> n + m <= 31 ->
  8 * Z.of_nat (List.length bytes) < 2 ^ 64 ->
  index + n + m <= 8 * Z.of_nat (List.length bytes) ->
  exists low high,
    get_bits bytes index n = Ok low
    /\ get_bits bytes (index + n) m = Ok high
    /\ get_bits bytes index (n + m) = Ok (Z.lor low (Z.shiftl high n))
    /\ Z.lor low (Z.shiftl high n) = low + 2 ^ n * high.
Proof.
  intros Hindex Hn Hm Hnm Hspan Hin.
  rewrite !get_bits_in_range by lia. do 2 eexists.
  split; [reflexivity |]. split; [reflexivity |].
  set (V := le_value bytes).
  assert (Hpn : 0 < 2 ^ n) by (apply Z.pow_pos_nonneg; lia).
  assert (Hpm : 0 < 2 ^ m) by (apply Z.pow_pos_nonneg; lia).
  assert (Hpi : 0 < 2 ^ index) by (apply Z.pow_pos_nonneg; lia).
  assert (Hsum : (V / 2 ^ index) mod 2 ^ (n + m)
                 = (V / 2 ^ index) mod 2 ^ n
                   + 2 ^ n * ((V / 2 ^ (index + n)) mod 2 ^ m)).
  { rewrite (Z.pow_add_r 2 n m), (Z.pow_add_r 2 index n) by lia.
    rewrite Z.rem_mul_r by lia. now rewrite Z.div_div by lia. }
  assert (Hlor : Z.lor ((V / 2 ^ index) mod 2 ^ n)
                       (Z.shiftl ((V / 2 ^ (index + n)) mod 2 ^ m) n)
                 = (V / 2 ^ index) mod 2 ^ n
                   + 2 ^ n * ((V / 2 ^ (index + n)) mod 2 ^ m)).
  { rewrite Z.shiftl_mul_pow2 by lia. rewrite (Z.mul_comm (2 ^ n)).
    symmetry. rewrite Z.add_nocarry_lxor.
    - rewrite Z.lxor_lor; [reflexivity |].
      apply Z.bits_inj'. intros i Hi.
      rewrite Z.land_spec, Z.bits_0.
      destruct (Z_lt_le_dec i n) as [Hlt | Hge].
      + replace i with (n + (i - n)) at 2 by lia.
        rewrite Z.mul_pow2_bits_add by lia.
        rewrite (Z.testbit_neg_r _ (i - n)) by lia. apply andb_false_r.
      + rewrite Z.mod_pow2_bits_high by lia. reflexivity.
    - apply Z.bits_inj'. intros i Hi.
      rewrite Z.land_spec, Z.bits_0.
      destruct (Z_lt_le_dec i n) as [Hlt | Hge].
      + replace i with (n + (i - n)) at 2 by lia.
        rewrite Z.mul_pow2_bits_add by lia.
        rewrite (Z.testbit_neg_r _ (i - n)) by lia. apply andb_false_r.
      + rewrite Z.mod_pow2_bits_high by lia. reflexivity. }
  split; [| exact Hlor]. now rewrite Hlor, Hsum.
Qed.

Lemma get_bits_split_witness :
  0 <= 6 /\ 0 <= 5 /\ 0 <= 7 /\ 5 + 7 <= 31
  /\ 8 * Z.of_nat (List.length demo_bytes) < 2 ^ 64
  /\ 6 + 5 + 7 <= 8 * Z.of_nat (List.length demo_bytes)
  /\ exists low high,
       get_bits demo_bytes 6 5 = Ok low
       /\ get_bits demo_bytes (6 + 5) 7 = Ok high
       /\ get_bits demo_bytes 6 (5 + 7) = Ok (Z.lor low (Z.shiftl high 5))
       /\ Z.lor low (Z.shiftl high 5) = low + 2 ^ 5 * high.
Proof.
  split; [lia |]. split; [lia |]. split; [lia |]. split; [lia |].
  split; [reflexivity |]. split; [cbn; lia |].
  apply (get_bits_split demo_bytes 6 5 7); try lia; [reflexivity | cbn; lia].
Defined.

End BitReaderFacts.

(* ================================================================== *)
(** * The Huffman symbol table: order and unused symbols *)

Module HuffmanFacts.

Import Huffman.
Local Open Scope Z_scope.

Lemma less_spec (a b : huffman_symbol) :
  less a b = true <->
  length a < length b \/ (length a = length b /\ symbol a < symbol b).
Proof.
  unfold less. destruct (length a =? length b) eqn:Heq.
  - apply Z.eqb_eq in Heq. rewrite Z.ltb_lt. lia.
  - apply Z.eqb_neq in Heq. rewrite Z.ltb_lt. lia.
Qed.

Lemma less_false (a b : huffman_symbol) : less a b = false -> key_le b a.
Proof.
  intros Hless. unfold key_le.
  destruct (Z_lt_le_dec (length b) (length a)) as [Hlt | Hge]; [now left |].
  assert (Hnot : ~ (length a < length b
                    \/ (length a = length b /\ symbol a < symbol b))).
  { rewrite <- less_spec. congruence. }
  lia.
Qed.

Lemma less_true (a b : huffman_symbol) : less a b = true -> key_le a b.
Proof. rewrite less_spec. unfold key_le. lia. Qed.

Lemma key_le_trans (a b c : huffman_symbol) :
  key_le a b -> key_le b c -> key_le a c.
Proof. unfold key_le. lia. Qed.

Lemma insert_In (x e : huffman_symbol) (table : list huffman_symbol) :
  In e (insert x table) <-> e = x \/ In e table.
Proof.
  induction table as [| y rest IH]; cbn.
  - intuition congruence.
  - destruct (less x y); cbn; rewrite ?IH; intuition congruence.
Qed.

Lemma insert_sorted (x : huffman_symbol) (table : list huffman_symbol) :
  StronglySorted key_le table -> StronglySorted key_le (insert x table).
Proof.
  induction 1 as [| y rest Hsorted IH Hall]; cbn.
  - repeat constructor.
  - destruct (less x y) eqn:Hless.
    + apply less_true in Hless. constructor; [now constructor |].
      constructor; [assumption |].
      eapply Forall_impl; [| exact Hall]. intros e He.
      now apply (key_le_trans x y e).
    + apply less_false in Hless. constructor; [assumption |].
      apply Forall_forall. intros e He. apply insert_In in He.
      destruct He as [-> | He]; [assumption |].
      rewrite Forall_forall in Hall. now apply Hall.
Qed.

Lemma sort_sorted (table : list huffman_symbol) :
  StronglySorted key_le (sort table).
Proof.
  induction table as [| x rest IH]; cbn; [constructor | now apply insert_sorted].
Qed.

Lemma insert_perm (x : huffman_symbol) (table : list huffman_symbol) :
  Permutation (insert x table) (x :: table).
Proof.
  induction table as [| y rest IH]; cbn; [reflexivity |].
  destruct (less x y); [reflexivity |].
  rewrite IH. apply perm_swap.
Qed.

Lemma sort_perm (table : list huffman_symbol) : Permutation (sort table) table.
Proof.
  induction table as [| x rest IH]; cbn; [reflexivity |].
  rewrite insert_perm. now constructor.
Qed.

Lemma assign_codes_keys (code length_ : Z) (table : list huffman_symbol) :
  map key (assign_codes code length_ table) = map key table.
Proof.
  revert code. induction table as [| entry rest IH]; intros code; cbn [assign_codes map].
  - reflexivity.
  - now rewrite IH.
Qed.

Lemma Forall_keys (P : Z * Z -> Prop) (l l' : list huffman_symbol) :
  map key l = map key l' ->
  Forall (fun e => P (key e)) l -> Forall (fun e => P (key e)) l'.
Proof.
  revert l'. induction l as [| a l IH]; intros [| a' l'] Hkeys Hall;
    try discriminate; [constructor |].
  cbn [map] in Hkeys. unfold key at 1 3 in Hkeys.
  injection Hkeys as Hlen Hsym Hl. inversion Hall as [| ? ? Ha Hrest]; subst.
  constructor; [| now apply IH].
  unfold key in *. now rewrite <- Hlen, <- Hsym.
Qed.

Lemma sorted_keys (l l' : list huffman_symbol) :
  map key l = map key l' -> StronglySorted key_le l -> StronglySorted key_le l'.
Proof.
  revert l'. induction l as [| a l IH]; intros [| a' l'] Hkeys Hsorted;
    try discriminate; [constructor |].
  cbn [map] in Hkeys. unfold key at 1 3 in Hkeys.
  injection Hkeys as Hlen Hsym Hl. inversion Hsorted as [| ? ? Hs Hall]; subst.
  constructor; [now apply IH |].
  apply (Forall_keys
           (fun k => length a' < fst k
                     \/ (length a' = fst k /\ symbol a' <= snd k)) l l' Hl).
  rewrite <- Hlen, <- Hsym. exact Hall.
Qed.

(** The table comes back ordered by length and then by symbol, and with
    the symbols and lengths it came with: only the codes are new. *)
Theorem huffman_table_sorted (table : list huffman_symbol) :
  let table' := huffman_symbol_table_from_length table in
  StronglySorted key_le table'
  /\ Permutation (map key table') (map key table).
Proof.
  cbv zeta. unfold huffman_symbol_table_from_length. split.
  - apply (sorted_keys (sort table)); [| apply sort_sorted].
    symmetry. apply assign_codes_keys.
  - rewrite assign_codes_keys. apply Permutation_map. apply sort_perm.
Qed.

Lemma assign_codes_unused (table : list huffman_symbol) :
  StronglySorted key_le table ->
  Forall (fun e => 0 <= length e) table ->
  forall e, In e (assign_codes 0 0 table) -> length e = 0 -> code e = 0.
Proof.
  induction 1 as [| entry rest Hsorted IH Hall]; intros Hpos e Hin Hzero.
  - destruct Hin.
  - inversion Hpos as [| ? ? Hentry Hrest]; subst.
    cbn [assign_codes] in Hin. rewrite Z.sub_0_r in Hin.
    destruct Hin as [<- | Hin]; cbn [code length] in *.
    + rewrite Hzero. reflexivity.
    + destruct (length entry =? 0) eqn:Hlen.
      * apply Z.eqb_eq in Hlen. rewrite Hlen in Hin. cbn [negb] in Hin.
        change (BitReader.int32 (Z.shiftl 0 (BitReader.int32 0))) with 0 in Hin.
        now apply IH.
      * (* past the first used symbol every length is positive *)
        apply Z.eqb_neq in Hlen. exfalso.
        assert (Hkey : In (key e) (map key rest)).
        { rewrite <- (assign_codes_keys
                        (if negb false
                         then BitReader.int32
                                (BitReader.int32
                                   (Z.shiftl 0 (BitReader.int32 (length entry))) + 1)
                         else BitReader.int32
                                (Z.shiftl 0 (BitReader.int32 (length entry)))) 0 rest).
          now apply in_map. }
        apply in_map_iff in Hkey. destruct Hkey as (e0 & Hk & He0).
        rewrite Forall_forall in Hall. specialize (Hall e0 He0).
        unfold key in Hk. injection Hk as Hl0 _. unfold key_le in Hall. lia.
Qed.

(** When no length is negative, every unused symbol (length 0) gets the
    code 0. *)
Theorem huffman_unused_code_zero (table : list huffman_symbol) :
  Forall (fun e => 0 <= length e) table ->
  forall e, In e (huffman_symbol_table_from_length table) ->
            length e = 0 -> code e = 0.
Proof.
  intros Hpos. unfold huffman_symbol_table_from_length.
  apply assign_codes_unused; [apply sort_sorted |].
  apply Forall_forall. intros e He.
  rewrite Forall_forall in Hpos. apply Hpos.
  apply (Permutation_in e (sort_perm table) He).
Qed.

Lemma huffman_unused_code_zero_witness :
  Forall (fun e => 0 <= length e) demo_table
  /\ forall e, In e (huffman_symbol_table_from_length demo_table) ->
               length e = 0 -> code e = 0.
Proof.
  assert (Hpos : Forall (fun e => 0 <= length e) demo_table)
    by (repeat constructor; cbn; lia).
  split; [exact Hpos | exact (huffman_unused_code_zero demo_table Hpos)].
Defined.

End HuffmanFacts.

(* ================================================================== *)
(** * Memory helpers: alignment *)

Module MemoryFacts.

Import Memory.
Local Open Scope Z_scope.

Lemma uint64_small (z : Z) : 0 <= z < 2 ^ 64 -> uint64 z = z.
Proof. intros Hz. unfold uint64. now apply Z.mod_small. Qed.

Lemma floor_value (value alignment : Z) :
  0 <= value < 2 ^ 64 -> 0 < alignment ->
  floor value alignment = value / alignment * alignment.
Proof.
  intros Hv Ha. unfold floor.
  assert (Hq : 0 <= value / alignment) by (apply Z.div_pos; lia).
  assert (Hm : value / alignment * alignment <= value)
    by (rewrite Z.mul_comm; apply Z.mul_div_le; lia).
  assert (Hqv : value / alignment <= value) by (apply Z.div_le_upper_bound; nia).
  rewrite (uint64_small (value / alignment)) by lia.
  apply uint64_small. nia.
Qed.

Lemma floor_bounds (value alignment : Z) :
  0 <= value < 2 ^ 64 -> 0 < alignment ->
  let f := floor value alignment in
  f mod alignment = 0 /\ f <= value < f + alignment.
Proof.
  intros Hv Ha. cbv zeta. rewrite floor_value by lia.
  pose proof (Z.div_mod value alignment ltac:(lia)) as Hdm.
  pose proof (Z.mod_pos_bound value alignment Ha) as Hr.
  split; [apply Z.mod_mul; lia | lia].
Qed.

Lemma ceil_bounds (value alignment : Z) :
  0 <= value < 2 ^ 64 -> 0 < alignment < 2 ^ 64 ->
  value + alignment - 1 < 2 ^ 64 ->
  let c := ceil value alignment in
  c mod alignment = 0 /\ value <= c < value + alignment.
Proof.
  intros Hv Ha Hfit. cbv zeta. unfold ceil.
  rewrite (uint64_small (alignment - 1)) by lia.
  rewrite (uint64_small (value + (alignment - 1))) by lia.
  destruct (floor_bounds (value + (alignment - 1)) alignment ltac:(lia) ltac:(lia))
    as [Hmod Hrange].
  split; [exact Hmod | lia].
Qed.

(** [floor] gives the largest multiple of the alignment that is not above
    the value.  [ceil] gives the smallest multiple of the alignment that is
    not below the value, as long as [value + alignment - 1] fits in the
    type; when it does not, the sum wraps and the result falls below the
    value. *)
Theorem floor_ceil_spec (value alignment : Z) :
  0 <= value < 2 ^ 64 -> 0 < alignment < 2 ^ 64 ->
  let f := floor value alignment in
  let c := ceil value alignment in
  (f mod alignment = 0 /\ f <= value < f + alignment)
  /\ (value + alignment - 1 < 2 ^ 64 ->
      c mod alignment = 0 /\ value <= c < value + alignment)
  /\ (2 ^ 64 <= value + alignment - 1 -> c < value).
Proof.
  intros Hv Ha. cbv zeta.
  split; [apply floor_bounds; lia |].
  split; [intros Hfit; now apply ceil_bounds |].
  intros Hwrap. unfold ceil. rewrite (uint64_small (alignment - 1)) by lia.
  assert (Hsum : uint64 (value + (alignment - 1))
                 = value + (alignment - 1) - 2 ^ 64).
  { unfold uint64.
    replace (value + (alignment - 1))
      with (value + (alignment - 1) - 2 ^ 64 + 1 * 2 ^ 64) at 1 by lia.
    rewrite Z_mod_plus_full. apply Z.mod_small. lia. }
  rewrite Hsum.
  destruct (floor_bounds (value + (alignment - 1) - 2 ^ 64) alignment
              ltac:(lia) ltac:(lia)) as [_ Hrange].
  lia.
Qed.

Lemma floor_ceil_spec_witness :
  0 <= 1000 < 2 ^ 64 /\ 0 < 64 < 2 ^ 64
  /\ (let f := floor 1000 64 in
      let c := ceil 1000 64 in
      (f mod 64 = 0 /\ f <= 1000 < f + 64)
      /\ (1000 + 64 - 1 < 2 ^ 64 -> c mod 64 = 0 /\ 1000 <= c < 1000 + 64)
      /\ (2 ^ 64 <= 1000 + 64 - 1 -> c < 1000)).
Proof.
  split; [lia |]. split; [lia |]. apply (floor_ceil_spec 1000 64); lia.
Defined.






(* ================================================================== *)
(** * Memory helpers: cleaning up weak pointers *)

Lemma nth_error_skipn {A : Type} (v : list A) (i : nat) (p : A) :
  nth_error v i = Some p -> skipn i v = p :: skipn (S i) v.
Proof.
  revert i. induction v as [| a v IH]; intros [| i] Hnth; try discriminate.
  - cbn in Hnth. injection Hnth as ->. reflexivity.
  - cbn in Hnth. cbn [skipn]. now apply IH.
Qed.

Lemma nth_error_firstn {A : Type} (v : list A) (i : nat) (p : A) :
  nth_error v i = Some p -> firstn (S i) v = firstn i v ++ [p].
Proof.
  revert i. induction v as [| a v IH]; intros [| i] Hnth; try discriminate.
  - cbn in Hnth. injection Hnth as ->. reflexivity.
  - cbn in Hnth. cbn [firstn app]. f_equal. now apply IH.
Qed.

Lemma firstn_erase {A : Type} (v : list A) (i : nat) (rest : list A) :
  (i <= List.length v)%nat ->
  firstn i (firstn i v ++ rest) = firstn i v
  /\ skipn i (firstn i v ++ rest) = rest.
Proof.
  intros Hi.
  assert (Hlen : List.length (firstn i v) = i) by (apply firstn_length_le; lia).
  split.
  - rewrite firstn_app, Hlen, Nat.sub_diag, firstn_O, app_nil_r.
    rewrite <- Hlen at 1. apply firstn_all.
  - rewrite skipn_app, Hlen, Nat.sub_diag. cbn [skipn].
    rewrite <- Hlen at 1. now rewrite skipn_all.
Qed.

Section WeakPointerFacts.

Variable weak_ptr : Type.
Variable expired : weak_ptr -> bool.

Local Abbreviation live := (fun p : weak_ptr => negb (expired p)).

Lemma cleanup_vector_loop_spec (fuel : nat) :
  forall (v : list weak_ptr) (i : nat),
    (i <= List.length v)%nat -> (List.length v - i <= fuel)%nat ->
    cleanup_vector_loop expired fuel v i
    = Some (firstn i v ++ filter live (skipn i v)).
Proof.
  induction fuel as [| fuel IH]; intros v i Hi Hfuel.
  - assert (i = List.length v) by lia. subst i. cbn.
    now rewrite Nat.eqb_refl, firstn_all, skipn_all, app_nil_r.
  - cbn [cleanup_vector_loop]. destruct (Nat.eqb i (List.length v)) eqn:Hend.
    + apply Nat.eqb_eq in Hend. subst i.
      now rewrite firstn_all, skipn_all, app_nil_r.
    + apply Nat.eqb_neq in Hend.
      destruct (nth_error v i) as [p |] eqn:Hnth.
      2:{ apply nth_error_None in Hnth. lia. }
      rewrite (nth_error_skipn v i p Hnth). cbn [filter].
      destruct (expired p) eqn:Hp; cbn [negb].
      * unfold erase.
        destruct (firstn_erase v i (skipn (S i) v) Hi) as [Hfirst Hskip].
        rewrite IH.
        -- now rewrite Hfirst, Hskip.
        -- rewrite length_app, firstn_length_le, length_skipn by lia. lia.
        -- rewrite length_app, firstn_length_le, length_skipn by lia. lia.
      * rewrite IH by lia.
        rewrite (nth_error_firstn v i p Hnth), <- app_assoc. reflexivity.
Qed.

(** [cleanupWeakPointers] on a vector always finishes, and what is left
    are the pointers that have not expired, in their order. *)
Theorem cleanupWeakPointers_filter (v : list weak_ptr) :
  cleanupWeakPointers expired v = Some (filter live v).
Proof.
  unfold cleanupWeakPointers. rewrite cleanup_vector_loop_spec by lia.
  reflexivity.
Qed.

Variable K : Type.

Local Abbreviation cleaned :=
  (fun e : K * list weak_ptr => (fst e, filter live (snd e))).
Local Abbreviation nonempty :=
  (fun e : K * list weak_ptr => negb (Nat.eqb (List.length (snd e)) 0)).

Lemma cleanup_map_loop_spec (fuel : nat) :
  forall (v : list (K * list weak_ptr)) (i : nat),
    (i <= List.length v)%nat -> (List.length v - i <= fuel)%nat ->
    cleanup_map_loop expired fuel v i
    = Some (firstn i v ++ filter nonempty (map cleaned (skipn i v))).
Proof.
  induction fuel as [| fuel IH]; intros v i Hi Hfuel.
  - assert (i = List.length v) by lia. subst i. cbn.
    now rewrite Nat.eqb_refl, firstn_all, skipn_all, app_nil_r.
  - cbn [cleanup_map_loop]. destruct (Nat.eqb i (List.length v)) eqn:Hend.
    + apply Nat.eqb_eq in Hend. subst i.
      now rewrite firstn_all, skipn_all, app_nil_r.
    + apply Nat.eqb_neq in Hend.
      destruct (nth_error v i) as [[k second] |] eqn:Hnth.
      2:{ apply nth_error_None in Hnth. lia. }
      assert (Hclean : cleanupWeakPointers expired second
                       = Some (filter live second)).
      { unfold cleanupWeakPointers. now rewrite cleanup_vector_loop_spec by lia. }
      rewrite Hclean.
      rewrite (nth_error_skipn v i _ Hnth). cbn [map filter fst snd].
      destruct (firstn_erase v i ((k, filter live second) :: skipn (S i) v) Hi)
        as [Hfirst Hskip].
      destruct (Nat.eqb (List.length (filter live second)) 0) eqn:Hempty;
        cbn [negb].
      * unfold erase. rewrite Hfirst.
        replace (skipn (S i) (firstn i v ++ (k, filter live second) :: skipn (S i) v))
          with (skipn (S i) v).
        2:{ change (S i) with (1 + i)%nat at 2. rewrite <- skipn_skipn, Hskip.
            reflexivity. }
        destruct (firstn_erase v i (skipn (S i) v) Hi) as [Hfirst' Hskip'].
        rewrite IH.
        -- now rewrite Hfirst', Hskip'.
        -- rewrite length_app, firstn_length_le, length_skipn by lia. lia.
        -- rewrite length_app, firstn_length_le, length_skipn by lia. lia.
      * assert (Hlen : List.length (firstn i v ++ (k, filter live second) :: skipn (S i) v)
                       = List.length v).
        { rewrite length_app, firstn_length_le by lia. cbn [List.length].
          rewrite length_skipn. lia. }
        rewrite IH by (rewrite Hlen; lia).
        assert (Hnth' : nth_error (firstn i v ++ (k, filter live second) :: skipn (S i) v) i
                        = Some (k, filter live second)).
        { rewrite nth_error_app2 by (rewrite firstn_length_le; lia).
          rewrite firstn_length_le, Nat.sub_diag by lia. reflexivity. }
        rewrite (nth_error_firstn _ i _ Hnth'), Hfirst, <- app_assoc.
        replace (skipn (S i) (firstn i v ++ (k, filter live second) :: skipn (S i) v))
          with (skipn (S i) v).
        2:{ change (S i) with (1 + i)%nat at 2. rewrite <- skipn_skipn, Hskip.
            reflexivity. }
        reflexivity.
Qed.

(** [cleanupWeakPointers] on a map of vectors always finishes: every
    vector keeps its pointers that have not expired, and the entries whose
    vector is then empty are gone; the others stay in their order. *)
Theorem cleanupWeakPointers_map_filter (v : list (K * list weak_ptr)) :
  cleanupWeakPointers_map expired v
  = Some (filter nonempty (map cleaned v)).
Proof.
  unfold cleanupWeakPointers_map. rewrite cleanup_map_loop_spec by lia.
  reflexivity.
Qed.

End WeakPointerFacts.

(* ================================================================== *)
(** * Memory helpers: the cache of shared objects *)

Section TryMakeSharedFacts.

Variable K V Args : Type.
Variable K_eqb : K -> K -> bool.
Hypothesis K_eqb_eq : forall a b : K, K_eqb a b = true <-> a = b.

Lemma insert_or_assign_same (map : Map K V) (key : K) (value : V) :
  insert_or_assign K_eqb map key value key = Some value.
Proof.
  unfold insert_or_assign.
  destruct (K_eqb key key) eqn:E; [reflexivity |].
  assert (K_eqb key key = true) by now apply K_eqb_eq. congruence.
Qed.

Lemma insert_or_assign_other (map : Map K V) (key k : K) (value : V) :
  k <> key -> insert_or_assign K_eqb map key value k = map k.
Proof.
  intros Hk. unfold insert_or_assign.
  destruct (K_eqb k key) eqn:E; [| reflexivity].
  apply K_eqb_eq in E. contradiction.
Qed.

(** [try_make_shared] is a cache: afterwards the key is bound to the
    returned value and no other key has changed; an existing entry is
    returned as it is, without making anything; and a second call for the
    same key returns the first call's value whatever its arguments. *)
Theorem try_make_shared_caches (make : Args -> V) (map : Map K V) (key : K)
        (args args' : Args) :
  let (value, map') := try_make_shared K_eqb make map key args in
  map' key = Some value
  /\ (forall k, k <> key -> map' k = map k)
  /\ (forall v, map key = Some v -> value = v /\ map' = map)
  /\ (map key = None -> value = make args)
  /\ try_make_shared K_eqb make map' key args' = (value, map').
Proof.
  unfold try_make_shared. destruct (map key) as [v |] eqn:Hfind.
  - rewrite Hfind. repeat split; congruence.
  - rewrite insert_or_assign_same.
    split; [reflexivity |].
    split; [intros k Hk; now apply insert_or_assign_other |].
    repeat split; congruence.
Qed.

End TryMakeSharedFacts.

Lemma try_make_shared_caches_witness :
  (forall a b : nat, Nat.eqb a b = true <-> a = b)
  /\ let (value, map') :=
       try_make_shared Nat.eqb (fun n : nat => (n + 1)%nat) (fun _ => None) 3%nat 4%nat in
     map' 3%nat = Some value
     /\ (forall k, k <> 3%nat -> map' k = None)
     /\ (forall v, @None nat = Some v -> value = v /\ map' = (fun _ => None))
     /\ (@None nat = None -> value = 5%nat)
     /\ try_make_shared Nat.eqb (fun n : nat => (n + 1)%nat) map' 3%nat 7%nat = (value, map').
Proof.
  split; [exact Nat.eqb_eq |].
  exact (try_make_shared_caches nat nat nat Nat.eqb Nat.eqb_eq
           (fun n : nat => (n + 1)%nat) (fun _ => None) 3%nat 4%nat 7%nat).
Defined.

(* ================================================================== *)
(** * Memory helpers: moving objects between slots *)

Section PlacementFacts.

Variable T : Type.

Local Abbreviation within := (fun (first n p : nat) =>
  andb (Nat.leb first p) (Nat.ltb p (first + n))).

Ltac compare_all :=
  repeat match goal with
    | |- context [Nat.eqb ?a ?b] => destruct (Nat.eqb_spec a b)
    | |- context [Nat.leb ?a ?b] => destruct (Nat.leb_spec a b)
    | |- context [Nat.ltb ?a ?b] => destruct (Nat.ltb_spec a b)
    end; cbn [andb]; try reflexivity; try lia;
  try (f_equal; lia).

Lemma move_up_moved (n : nat) :
  forall (src dst : nat) (mem : Storage T) (p : nat),
    (dst < src \/ src + n <= dst)%nat ->
    move_up n src dst mem p = moved src dst n mem p.
Proof.
  induction n as [| n IH]; intros src dst mem p Hsafe.
  - cbn [move_up]. unfold moved. compare_all.
  - cbn [move_up]. rewrite IH by lia. unfold moved, placement_move.
    compare_all.
Qed.

Lemma move_down_moved (n : nat) :
  forall (src_first dst_first : nat) (mem : Storage T) (p : nat),
    (src_first < dst_first)%nat ->
    move_down n (src_first + n) (dst_first + n) mem p
    = moved src_first dst_first n mem p.
Proof.
  induction n as [| n IH]; intros src_first dst_first mem p Hlt.
  - cbn [move_down]. unfold moved. compare_all.
  - cbn [move_down]. rewrite !Nat.add_succ_r, !Nat.pred_succ.
    rewrite IH by lia. unfold moved, placement_move. compare_all.
Qed.

(** [placement_move_within_array] moves the objects as if through a
    temporary array, also when source and destination overlap, in either
    direction: the destination holds the objects of the source in their
    order, the slots of the source outside the destination hold nothing,
    and every other slot is as it was. *)
Theorem placement_move_within_array_moves
        (src_first src_last dst_first : nat) (mem : Storage T) :
  (src_first <= src_last)%nat ->
  exists mem',
    placement_move_within_array src_first src_last dst_first mem = Some mem'
    /\ forall p, mem' p = moved src_first dst_first (src_last - src_first) mem p.
Proof.
  intros Hle. unfold placement_move_within_array, tt_axiom.
  destruct (Nat.leb_spec src_first src_last); [| lia].
  eexists. split; [reflexivity |]. intros p.
  destruct (Nat.ltb_spec src_first dst_first).
  - replace src_last with (src_first + (src_last - src_first))%nat at 2 by lia.
    now rewrite move_down_moved by lia.
  - destruct (Nat.ltb_spec dst_first src_first).
    + now rewrite move_up_moved by lia.
    + unfold moved. compare_all.
Qed.

(** The plain range [placement_move] does the same when the destination
    starts below the source or at or after its end. *)
Theorem placement_move_range_moves (src src_last dst : nat) (mem : Storage T) :
  (src <= src_last)%nat -> (dst < src \/ src_last <= dst)%nat ->
  exists mem',
    placement_move_range src src_last dst mem = Some mem'
    /\ forall p, mem' p = moved src dst (src_last - src) mem p.
Proof.
  intros Hle Hsafe. unfold placement_move_range, tt_axiom.
  destruct (Nat.leb_spec src src_last); [| lia].
  eexists. split; [reflexivity |]. intros p.
  now rewrite move_up_moved by lia.
Qed.

Lemma move_up_by_one (n : nat) :
  forall (src : nat) (mem : Storage T) (p : nat),
    move_up (S n) src (S src) mem p
    = if Nat.eqb p (src + S n) then mem src
      else if within src (S n) p then None
      else mem p.
Proof.
  induction n as [| n IH]; intros src mem p.
  - cbn [move_up]. unfold placement_move. compare_all.
  - change (move_up (S (S n)) src (S src) mem p)
      with (move_up (S n) (S src) (S (S src)) (placement_move src (S src) mem) p).
    rewrite IH. unfold placement_move. compare_all.
Qed.

(** Used on a destination one slot above the source, the plain range
    [placement_move] loses every object but the first, which ends in the
    last slot of the destination. *)
Theorem placement_move_range_overlap (src src_last : nat) (mem : Storage T) :
  (src < src_last)%nat ->
  exists mem',
    placement_move_range src src_last (S src) mem = Some mem'
    /\ mem' src_last = mem src
    /\ (forall p, (src <= p < src_last)%nat -> mem' p = None)
    /\ (forall p, (p < src \/ src_last < p)%nat -> mem' p = mem p).
Proof.
  intros Hlt. unfold placement_move_range, tt_axiom.
  destruct (Nat.leb_spec src src_last); [| lia].
  eexists. split; [reflexivity |].
  replace (src_last - src)%nat with (S (src_last - src - 1)) by lia.
  repeat split; intros; rewrite move_up_by_one; compare_all.
Qed.

End PlacementFacts.

Lemma placement_move_within_array_moves_witness :
  (1 <= 4)%nat
  /\ exists mem',
       placement_move_within_array 1 4 2 demo_storage = Some mem'
       /\ forall p, mem' p = moved 1 2 (4 - 1) demo_storage p.
Proof.
  split; [lia |].
  apply (placement_move_within_array_moves nat 1 4 2 demo_storage). lia.
Defined.

Lemma placement_move_range_moves_witness :
  (1 <= 4)%nat /\ (0 < 1 \/ 4 <= 0)%nat
  /\ exists mem',
       placement_move_range 1 4 0 demo_storage = Some mem'
       /\ forall p, mem' p = moved 1 0 (4 - 1) demo_storage p.
Proof.
  split; [lia |]. split; [lia |].
  apply (placement_move_range_moves nat 1 4 0 demo_storage); lia.
Defined.

Lemma placement_move_range_overlap_witness :
  (1 < 4)%nat
  /\ exists mem',
       placement_move_range 1 4 2 demo_storage = Some mem'
       /\ mem' 4%nat = demo_storage 1%nat
       /\ (forall p, (1 <= p < 4)%nat -> mem' p = None)
       /\ (forall p, (p < 1 \/ 4 < p)%nat -> mem' p = demo_storage p).
Proof.
  split; [lia |].
  apply (placement_move_range_overlap nat 1 4 demo_storage). lia.
Defined.

End MemoryFacts.

(* ================================================================== *)
(** * Quadratic Bezier contours: the contour is closed *)

Module BezierFacts.

Import Bezier.

Lemma set_back_P2_app (contour : list QBezier) (q : QBezier) (x : vec2) :
  set_back_P2 (contour ++ [q]) x = contour ++ [mk_QBezier (P0 q) (P1 q) x].
Proof.
  induction contour as [| q' contour IH]; [reflexivity |].
  cbn [app set_back_P2]. rewrite IH.
  destruct (contour ++ [q]) eqn:E; [| reflexivity].
  destruct contour; discriminate.
Qed.

Lemma contour_loop_chain (pairs : list (vec2 * vec2)) :
  forall (contour : list QBezier) (a b last : vec2),
  exists last',
    contour_loop (alternate pairs) (contour ++ [mk_QBezier a b last])
    = Some (contour ++ chain a b pairs last').
Proof.
  induction pairs as [| [a' b'] pairs IH]; intros contour a b last.
  - exists last. reflexivity.
  - cbn [alternate flat_map app contour_loop onCurve p fst snd negb].
    rewrite length_app. cbn [List.length].
    replace (Nat.eqb (List.length contour + 1) 0) with false
      by (symmetry; apply Nat.eqb_neq; lia).
    rewrite set_back_P2_app. cbn [P0 P1].
    rewrite <- app_assoc. cbn [app].
    change (contour ++ mk_QBezier a b a' :: [mk_QBezier a' b' (0, 0)])
      with (contour ++ [mk_QBezier a b a'] ++ [mk_QBezier a' b' (0, 0)]).
    rewrite app_assoc. fold (alternate pairs).
    destruct (IH (contour ++ [mk_QBezier a b a']) a' b' (0, 0)) as [last' ->].
    exists last'. rewrite <- app_assoc. reflexivity.
Qed.

Lemma set_back_P2_chain (a b : vec2) (pairs : list (vec2 * vec2)) (last x : vec2) :
  set_back_P2 (chain a b pairs last) x = chain a b pairs x.
Proof.
  revert a b. induction pairs as [| [a' b'] pairs IH]; intros a b; [reflexivity |].
  cbn [chain]. specialize (IH a' b').
  destruct pairs as [| [a'' b''] pairs]; cbn [chain set_back_P2] in *;
    now rewrite ?IH.
Qed.

Lemma chain_closed (first a b : vec2) (pairs : list (vec2 * vec2)) :
  closed_from first (chain a b pairs first).
Proof.
  revert a b. induction pairs as [| [a' b'] pairs IH]; intros a b; [reflexivity |].
  specialize (IH a' b'). cbn [chain] in *.
  destruct pairs as [| [a'' b''] pairs]; cbn [chain closed_from P0 P2] in *;
    split; [reflexivity | exact IH | reflexivity | exact IH].
Qed.

Lemma chain_length (a b : vec2) (pairs : list (vec2 * vec2)) (last : vec2) :
  List.length (chain a b pairs last) = S (List.length pairs).
Proof.
  revert a b. induction pairs as [| [a' b'] pairs IH]; intros a b; [reflexivity |].
  cbn [chain List.length]. now rewrite IH.
Qed.

(** When the normalised points alternate between on-curve and off-curve
    points, starting on the curve, [getContour] returns one curve per pair:
    from the on-curve point, controlled by the off-curve point, to the next
    on-curve point, the last curve returning to the first point.  The
    contour is closed. *)
Theorem getContour_closed
        (normalizePoints : list BezierPoint -> list BezierPoint)
        (points : list BezierPoint) (a b : vec2) (pairs : list (vec2 * vec2)) :
  normalizePoints points = alternate ((a, b) :: pairs) ->
  getContour normalizePoints points = Some (chain a b pairs a)
  /\ closed (chain a b pairs a)
  /\ List.length (chain a b pairs a) = S (List.length pairs).
Proof.
  intros Hnormal. split; [| split].
  - unfold getContour. rewrite Hnormal.
    cbn [alternate flat_map app contour_loop onCurve p fst snd negb
         List.length Nat.eqb].
    fold (alternate pairs).
    destruct (contour_loop_chain pairs [] a b (0, 0)) as [last' Hloop].
    cbn [app] in Hloop. rewrite Hloop.
    rewrite <- (set_back_P2_chain a b pairs last' a).
    destruct pairs as [| [a' b'] pairs]; reflexivity.
  - assert (Hfront : closed (chain a b pairs a)
                     = closed_from a (chain a b pairs a))
      by (destruct pairs as [| [a' b'] pairs]; reflexivity).
    rewrite Hfront. apply chain_closed.
  - apply chain_length.
Qed.

Lemma getContour_closed_witness :
  (fun points : list BezierPoint => points) (alternate demo_pairs)
  = alternate (((0, 0), (1, 0)) :: tl demo_pairs)
  /\ getContour (fun points => points) (alternate demo_pairs)
     = Some (chain (0, 0) (1, 0) (tl demo_pairs) (0, 0))
  /\ closed (chain (0, 0) (1, 0) (tl demo_pairs) (0, 0))
  /\ List.length (chain (0, 0) (1, 0) (tl demo_pairs) (0, 0))
     = S (List.length (tl demo_pairs)).
Proof.
  split; [reflexivity |].
  exact (getContour_closed (fun points => points) (alternate demo_pairs)
           (0, 0) (1, 0) (tl demo_pairs) eq_refl).
Defined.

Lemma contour_loop_skip (pairs : list (vec2 * vec2)) (tail : list BezierPoint) :
  forall contour : list QBezier,
  exists contour',
    contour_loop (alternate pairs ++ tail) contour = contour_loop tail contour'.
Proof.
  induction pairs as [| [a b] pairs IH]; intros contour.
  - exists contour. reflexivity.
  - cbn [alternate flat_map app contour_loop onCurve p fst snd negb].
    fold (alternate pairs). apply IH.
Qed.

(** A point out of turn stops [getContour]: no normalised points at all, an
    odd number of them, or, after any number of well-formed pairs, an
    off-curve point where an on-curve point is due or the reverse, gives no
    contour. *)
Theorem getContour_out_of_turn
        (normalizePoints : list BezierPoint -> list BezierPoint)
        (points : list BezierPoint) (pairs : list (vec2 * vec2))
        (tail : list BezierPoint) :
  normalizePoints points = alternate pairs ++ tail ->
  (pairs = [] /\ tail = [])
  \/ (exists q, tail = [q])
  \/ (exists q1 q2 rest,
        tail = q1 :: q2 :: rest /\ (onCurve q1 = false \/ onCurve q2 = true)) ->
  getContour normalizePoints points = None.
Proof.
  intros Hnormal Hcase. unfold getContour. rewrite Hnormal.
  destruct Hcase as [[-> ->] | [[q ->] | (q1 & q2 & rest & -> & Hflag)]].
  - reflexivity.
  - destruct (contour_loop_skip pairs [q] []) as [contour' ->]. reflexivity.
  - destruct (contour_loop_skip pairs (q1 :: q2 :: rest) []) as [contour' ->].
    cbn [contour_loop]. destruct Hflag as [-> | Hoff]; [reflexivity |].
    rewrite Hoff. now destruct (negb (onCurve q1)).
Qed.

Lemma getContour_out_of_turn_witness :
  (fun points : list BezierPoint => points)
    (alternate demo_pairs ++ [mk_BezierPoint (0, 0) true])
  = alternate demo_pairs ++ [mk_BezierPoint (0, 0) true]
  /\ ((demo_pairs = [] /\ [mk_BezierPoint (0, 0) true] = [])
      \/ (exists q, [mk_BezierPoint (0, 0) true] = [q])
      \/ (exists q1 q2 rest,
            [mk_BezierPoint (0, 0) true] = q1 :: q2 :: rest
            /\ (onCurve q1 = false \/ onCurve q2 = true)))
  /\ getContour (fun points => points)
                (alternate demo_pairs ++ [mk_BezierPoint (0, 0) true])
     = None.
Proof.
  split; [reflexivity |].
  assert (Hcase : (demo_pairs = [] /\ [mk_BezierPoint (0, 0) true] = [])
                  \/ (exists q, [mk_BezierPoint (0, 0) true] = [q])
                  \/ (exists q1 q2 rest,
                        [mk_BezierPoint (0, 0) true] = q1 :: q2 :: rest
                        /\ (onCurve q1 = false \/ onCurve q2 = true))).
  { right. left. eexists. reflexivity. }
  split; [exact Hcase |].
  exact (getContour_out_of_turn (fun points => points) _ demo_pairs
           [mk_BezierPoint (0, 0) true] eq_refl Hcase).
Defined.

End BezierFacts.

(* ================================================================== *)
(** * Line and column: what the scan counts *)

Module ParseErrorFacts.

Import ParseError.
Local Open Scope Z_scope.

Ltac div_lia := Z.div_mod_to_equations; lia.

Lemma scan_app (tab_size : Z) (s : Position) (text rest : list Z) :
  scan tab_size s (text ++ rest) = scan tab_size (scan tab_size s text) rest.
Proof. unfold scan. apply fold_left_app. Qed.

(** Facts about one byte are checked on all 256. *)
Lemma all_bytes (P : Z -> bool) :
  forallb P (map Z.of_nat (seq 0 256)) = true ->
  forall c8, 0 <= c8 < 256 -> P c8 = true.
Proof.
  intros Hall c8 Hc8. rewrite forallb_forall in Hall. apply Hall.
  rewrite <- (Z2Nat.id c8) by lia. apply in_map. apply in_seq. lia.
Qed.

Lemma ascii_byte (c8 : Z) :
  0 <= c8 < 128 -> (Z.land c8 192 =? 128) = false /\ (Z.land c8 128 =? 0) = true.
Proof.
  intros Hc8.
  pose proof (all_bytes
    (fun c => if c <? 128
              then negb (Z.land c 192 =? 128) && (Z.land c 128 =? 0) else true)
    eq_refl c8 ltac:(lia)) as H.
  cbv beta in H. replace (c8 <? 128) with true in H by (symmetry; apply Z.ltb_lt; lia).
  apply andb_true_iff in H. destruct H as [H1 H2].
  apply negb_true_iff in H1. now split.
Qed.

Lemma lead_byte (c8 : Z) :
  192 <= c8 < 248 ->
  (Z.land c8 192 =? 128) = false /\ (Z.land c8 128 =? 0) = false
  /\ Z.land c8 (Z.shiftr 63 (countl_one c8 - 1))
     = (if c8 <? 224 then c8 - 192 else if c8 <? 240 then c8 - 224 else c8 - 240).
Proof.
  intros Hc8.
  pose proof (all_bytes
    (fun c => if (192 <=? c) && (c <? 248)
              then negb (Z.land c 192 =? 128) && negb (Z.land c 128 =? 0)
                   && (Z.land c (Z.shiftr 63 (countl_one c - 1))
                       =? (if c <? 224 then c - 192
                           else if c <? 240 then c - 224 else c - 240))
              else true)
    eq_refl c8 ltac:(lia)) as H.
  cbv beta in H.
  replace ((192 <=? c8) && (c8 <? 248)) with true in H
    by (symmetry; apply andb_true_iff; split; [apply Z.leb_le | apply Z.ltb_lt]; lia).
  apply andb_true_iff in H. destruct H as [H H3].
  apply andb_true_iff in H. destruct H as [H1 H2].
  apply negb_true_iff in H1, H2. apply Z.eqb_eq in H3. now repeat split.
Qed.

Lemma continuation_byte (c8 : Z) :
  128 <= c8 < 192 -> (Z.land c8 192 =? 128) = true /\ Z.land c8 63 = c8 - 128.
Proof.
  intros Hc8.
  pose proof (all_bytes
    (fun c => if (128 <=? c) && (c <? 192)
              then (Z.land c 192 =? 128) && (Z.land c 63 =? c - 128) else true)
    eq_refl c8 ltac:(lia)) as H.
  cbv beta in H.
  replace ((128 <=? c8) && (c8 <? 192)) with true in H
    by (symmetry; apply andb_true_iff; split; [apply Z.leb_le | apply Z.ltb_lt]; lia).
  apply andb_true_iff in H. destruct H as [H1 H2]. apply Z.eqb_eq in H2.
  now split.
Qed.

Lemma lor_low6 (c l : Z) :
  0 <= c -> 0 <= l < 64 -> Z.lor (Z.shiftl c 6) l = 64 * c + l.
Proof.
  intros Hc Hl. rewrite Z.shiftl_mul_pow2 by lia. change (2 ^ 6) with 64.
  rewrite (Z.mul_comm c 64).
  assert (Hdisjoint : Z.land (64 * c) l = 0).
  { apply Z.bits_inj'. intros i Hi. rewrite Z.land_spec, Z.bits_0.
    destruct (Z_lt_le_dec i 6) as [Hlo | Hhi].
    - change 64 with (2 ^ 6). rewrite Z.mul_comm, Z.mul_pow2_bits_low by lia.
      reflexivity.
    - replace l with (l mod 2 ^ 6) by (apply Z.mod_small; change (2 ^ 6) with 64; lia).
      rewrite Z.mod_pow2_bits_high by lia. apply andb_false_r. }
  rewrite <- Z.lxor_lor by exact Hdisjoint.
  symmetry. now apply Z.add_nocarry_lxor.
Qed.

(** One more continuation byte of an unfinished code point. *)
Lemma decode_continuation (c8 : Z) (s : Position) :
  128 <= c8 < 192 -> 0 <= c32 s < 2 ^ 26 -> 0 < continue_count s <= 8 ->
  decode c8 s
  = mk_Position (line_nr s) (column_nr s) (64 * c32 s + (c8 - 128))
                (continue_count s - 1).
Proof.
  intros Hc8 Hc32 Hcount. unfold decode.
  destruct (continuation_byte c8 Hc8) as [-> Hlow]. rewrite Hlow.
  unfold char32_t. rewrite Z.shiftl_mul_pow2 by lia.
  rewrite (Z.mod_small (c32 s * 2 ^ 6)) by (change (2 ^ 6) with 64; lia).
  rewrite <- Z.shiftl_mul_pow2 by lia. rewrite lor_low6 by lia.
  unfold BitReader.int32.
  rewrite (Z.mod_small (continue_count s - 1 + 2 ^ 31)) by lia.
  f_equal. lia.
Qed.

Lemma advance_pending (tab_size : Z) (s : Position) :
  continue_count s <> 0 -> advance tab_size s = s.
Proof.
  intros Hcount. unfold advance.
  now replace (continue_count s =? 0) with false by (symmetry; now apply Z.eqb_neq).
Qed.

Lemma step_lead (tab_size c8 : Z) (s : Position) :
  192 <= c8 < 248 ->
  advance tab_size (decode c8 s)
  = mk_Position (line_nr s) (column_nr s)
      (if c8 <? 224 then c8 - 192 else if c8 <? 240 then c8 - 224 else c8 - 240)
      (if c8 <? 224 then 1 else if c8 <? 240 then 2 else 3).
Proof.
  intros Hc8.
  assert (Hdecode : decode c8 s
    = mk_Position (line_nr s) (column_nr s)
        (if c8 <? 224 then c8 - 192 else if c8 <? 240 then c8 - 224 else c8 - 240)
        (if c8 <? 224 then 1 else if c8 <? 240 then 2 else 3)).
  { unfold decode. destruct (lead_byte c8 Hc8) as (-> & -> & ->).
    cbn [negb]. f_equal. unfold countl_one.
    replace (c8 <? 128) with false by (symmetry; apply Z.ltb_ge; lia).
    replace (c8 <? 192) with false by (symmetry; apply Z.ltb_ge; lia).
    replace (c8 <? 248) with true by (symmetry; apply Z.ltb_lt; lia).
    destruct (c8 <? 224); [reflexivity |]. destruct (c8 <? 240); reflexivity. }
  rewrite Hdecode. apply advance_pending. cbn [continue_count].
  destruct (c8 <? 224); [discriminate |]. destruct (c8 <? 240); discriminate.
Qed.

Lemma step_continuation (tab_size c8 l c v k : Z) :
  128 <= c8 < 192 -> 0 <= v < 2 ^ 26 -> 1 < k <= 8 ->
  advance tab_size (decode c8 (mk_Position l c v k))
  = mk_Position l c (64 * v + (c8 - 128)) (k - 1).
Proof.
  intros Hc8 Hv Hk.
  rewrite decode_continuation by (cbn [c32 continue_count]; lia).
  apply advance_pending. cbn [continue_count]. lia.
Qed.

Lemma step_last (tab_size c8 l c v : Z) :
  128 <= c8 < 192 -> 0 <= v < 2 ^ 26 ->
  advance tab_size (decode c8 (mk_Position l c v 1))
  = advance tab_size (mk_Position l c (64 * v + (c8 - 128)) 0).
Proof.
  intros Hc8 Hv.
  now rewrite decode_continuation by (cbn [c32 continue_count]; lia).
Qed.

(** Scanning the UTF-8 encoding of a code point is one [advance] on that
    code point, whatever was left in [c32] and [continue_count] before. *)
Lemma scan_utf8 (tab_size cp : Z) (s : Position) :
  0 <= cp < 2 ^ 21 ->
  scan tab_size s (utf8 cp)
  = advance tab_size (mk_Position (line_nr s) (column_nr s) cp 0).
Proof.
  intros Hcp. change (2 ^ 21) with 2097152 in Hcp. unfold utf8.
  destruct (cp <? 128) eqn:H1; [apply Z.ltb_lt in H1 | apply Z.ltb_ge in H1].
  { cbn [scan fold_left]. f_equal. unfold decode.
    destruct (ascii_byte cp ltac:(lia)) as [-> ->]. reflexivity. }
  destruct (cp <? 2048) eqn:H2; [apply Z.ltb_lt in H2 | apply Z.ltb_ge in H2].
  { cbn [scan fold_left]. rewrite (step_lead tab_size (192 + cp / 64)) by div_lia.
    replace (192 + cp / 64 <? 224) with true by (symmetry; apply Z.ltb_lt; div_lia).
    rewrite step_last by div_lia. do 2 f_equal. div_lia. }
  destruct (cp <? 65536) eqn:H3; [apply Z.ltb_lt in H3 | apply Z.ltb_ge in H3].
  { cbn [scan fold_left]. rewrite (step_lead tab_size (224 + cp / 4096)) by div_lia.
    replace (224 + cp / 4096 <? 224) with false by (symmetry; apply Z.ltb_ge; div_lia).
    replace (224 + cp / 4096 <? 240) with true by (symmetry; apply Z.ltb_lt; div_lia).
    rewrite step_continuation by div_lia. change (2 - 1) with 1.
    rewrite step_last by div_lia. do 2 f_equal. div_lia. }
  cbn [scan fold_left]. rewrite (step_lead tab_size (240 + cp / 262144)) by div_lia.
  replace (240 + cp / 262144 <? 224) with false by (symmetry; apply Z.ltb_ge; div_lia).
  replace (240 + cp / 262144 <? 240) with false by (symmetry; apply Z.ltb_ge; div_lia).
  rewrite step_continuation by div_lia. change (3 - 1) with 2.
  rewrite step_continuation by div_lia. change (2 - 1) with 1.
  rewrite step_last by div_lia. do 2 f_equal. div_lia.
Qed.

Lemma advance_moved_by (tab_size cp l c : Z) :
  let s := advance tab_size (mk_Position l c cp 0) in
  (line_nr s, column_nr s) = moved_by tab_size cp (l, c).
Proof.
  unfold advance, moved_by, line_break. cbn [continue_count c32 line_nr column_nr].
  change (0 =? 0) with true. cbv iota.
  destruct ((cp =? 10) || (cp =? 11) || (cp =? 12)
            || (cp =? 133) || (cp =? 8232) || (cp =? 8233)); [reflexivity |].
  destruct (cp =? 13); [reflexivity |]. destruct (cp =? 9); reflexivity.
Qed.

Lemma scan_char (tab_size cp : Z) (s : Position) :
  0 <= cp < 2 ^ 21 ->
  let s' := scan tab_size s (utf8 cp) in
  (line_nr s', column_nr s') = moved_by tab_size cp (line_nr s, column_nr s).
Proof.
  intros Hcp. cbv zeta. rewrite scan_utf8 by exact Hcp. apply advance_moved_by.
Qed.



Lemma scan_column_range (tab_size : Z) (text : list Z) :
  forall s, 0 <= column_nr s < 2 ^ 64 ->
            0 <= column_nr (scan tab_size s text) < 2 ^ 64.
Proof.
  induction text as [| c8 text IH]; intros s Hs; [exact Hs |].
  cbn [scan fold_left]. apply IH.
  assert (Hdecode : column_nr (decode c8 s) = column_nr s).
  { unfold decode. destruct (Z.land c8 192 =? 128); [reflexivity |].
    destruct (negb (Z.land c8 128 =? 0)); reflexivity. }
  unfold advance. destruct (continue_count (decode c8 s) =? 0); [| lia].
  assert (Hsize : forall z, 0 <= BitReader.size_t z < 2 ^ 64)
    by (intros z; apply Z.mod_pos_bound; reflexivity).
  repeat match goal with
         | |- context [if ?b then _ else _] => destruct b
         end; cbn [column_nr]; try apply Hsize; lia.
Qed.

(** Text without line breaks, carriage returns and tabs counts one column
    per character, not per byte, and leaves the line alone. *)
Theorem get_line_position_plain (text cps : list Z) (tab_size : Z) :
  Forall (fun cp => 0 <= cp < 2 ^ 21 /\ plain cp = true) cps ->
  get_line_position (text ++ flat_map utf8 cps) tab_size
  = (fst (get_line_position text tab_size),
     BitReader.size_t (snd (get_line_position text tab_size)
                       + Z.of_nat (List.length cps))).
Proof.
  intros Hcps. revert text.
  induction Hcps as [| cp cps [Hcp Hplain] _ IH]; intros text.
  - cbn [flat_map List.length Z.of_nat]. rewrite app_nil_r, Z.add_0_r.
    unfold get_line_position, BitReader.size_t. cbn [fst snd].
    rewrite Z.mod_small; [reflexivity |].
    apply scan_column_range. cbn. lia.
  - cbn [flat_map]. rewrite app_assoc, IH.
    unfold get_line_position at 1 2. rewrite scan_app.
    pose proof (scan_char tab_size cp (scan tab_size (mk_Position 0 0 0 0) text) Hcp)
      as Hchar. cbv zeta in Hchar.
    unfold plain in Hplain. apply andb_true_iff in Hplain.
    destruct Hplain as [Hplain Htab]. apply andb_true_iff in Hplain.
    destruct Hplain as [Hbreak Hcr].
    apply negb_true_iff in Hbreak, Hcr, Htab.
    unfold moved_by in Hchar. rewrite Hbreak, Hcr, Htab in Hchar.
    injection Hchar as Hline Hcolumn. cbn [fst snd]. rewrite Hline, Hcolumn.
    unfold get_line_position. cbn [fst snd]. f_equal.
    unfold BitReader.size_t. rewrite Zplus_mod_idemp_l. f_equal.
    cbn [List.length]. lia.
Qed.

Lemma get_line_position_plain_witness :
  Forall (fun cp => 0 <= cp < 2 ^ 21 /\ plain cp = true) [233; 99; 8364]
  /\ get_line_position ([97; 10] ++ flat_map utf8 [233; 99; 8364]) 8
     = (fst (get_line_position [97; 10] 8),
        BitReader.size_t (snd (get_line_position [97; 10] 8)
                          + Z.of_nat (List.length [233; 99; 8364]))).
Proof.
  assert (Hcps : Forall (fun cp => 0 <= cp < 2 ^ 21 /\ plain cp = true)
                        [233; 99; 8364]).
  { repeat constructor; cbn; lia. }
  split; [exact Hcps |].
  exact (get_line_position_plain [97; 10] [233; 99; 8364] 8 Hcps).
Defined.

Lemma get_line_position_tab_moved (text : list Z) (tab_size : Z) :
  get_line_position (text ++ utf8 9) tab_size
  = moved_by tab_size 9 (get_line_position text tab_size).
Proof.
  unfold get_line_position. rewrite scan_app.
  apply (scan_char tab_size 9). lia.
Qed.

(** A tab takes the column to the last multiple of the tab size that is not
    beyond the column after it: it never moves forward to a tab stop, and
    a tab within the first [tab_size - 1] columns returns to column 0. *)
Theorem get_line_position_tab (text : list Z) (tab_size : Z) :
  0 < tab_size < 2 ^ 64 ->
  let position := get_line_position text tab_size in
  let position' := get_line_position (text ++ [9]) tab_size in
  fst position' = fst position
  /\ snd position' mod tab_size = 0
  /\ (snd position + 1 < 2 ^ 64 ->
      snd position' <= snd position + 1 < snd position' + tab_size)
  /\ (snd position + 1 < tab_size -> snd position' = 0).
Proof.
  intros Htab. cbv zeta.
  assert (Hrange : 0 <= snd (get_line_position text tab_size) < 2 ^ 64).
  { unfold get_line_position. cbn [snd]. apply scan_column_range. cbn. lia. }
  change [9] with (utf8 9).
  rewrite (get_line_position_tab_moved text tab_size).
  destruct (get_line_position text tab_size) as [line column]. cbn [fst snd] in *.
  unfold moved_by. change (line_break 9) with false.
  change (9 =? 13) with false. change (9 =? 9) with true. cbv iota.
  cbn [fst snd].
  set (x := BitReader.size_t (column + 1)).
  assert (Hx : 0 <= x < 2 ^ 64) by (apply Z.mod_pos_bound; reflexivity).
  assert (Hq : 0 <= x / tab_size <= x).
  { split; [apply Z.div_pos; lia |]. apply Z.div_le_upper_bound; nia. }
  assert (Hm : x / tab_size * tab_size <= x)
    by (rewrite Z.mul_comm; apply Z.mul_div_le; lia).
  assert (Hstop : BitReader.size_t (BitReader.size_t (x / tab_size) * tab_size)
                  = x / tab_size * tab_size).
  { unfold BitReader.size_t at 2. rewrite (Z.mod_small (x / tab_size)) by lia.
    unfold BitReader.size_t. apply Z.mod_small. nia. }
  rewrite Hstop.
  split; [reflexivity |]. split; [apply Z.mod_mul; lia |].
  pose proof (Z.div_mod x tab_size ltac:(lia)) as Hdm.
  pose proof (Z.mod_pos_bound x tab_size ltac:(lia)) as Hr.
  rewrite (Z.mul_comm tab_size) in Hdm.
  set (q := x / tab_size) in *. set (r := x mod tab_size) in *.
  split.
  - intros Hfit. assert (x = column + 1)
      by (unfold x, BitReader.size_t; apply Z.mod_small; lia).
    lia.
  - intros Hlow. assert (Hxc : x = column + 1)
      by (unfold x, BitReader.size_t; apply Z.mod_small; lia).
    unfold q. rewrite Z.div_small by lia. reflexivity.
Qed.

Lemma get_line_position_tab_witness :
  0 < 8 < 2 ^ 64
  /\ (let position := get_line_position [97; 98] 8 in
      let position' := get_line_position ([97; 98] ++ [9]) 8 in
      fst position' = fst position
      /\ snd position' mod 8 = 0
      /\ (snd position + 1 < 2 ^ 64 ->
          snd position' <= snd position + 1 < snd position' + 8)
      /\ (snd position + 1 < 8 -> snd position' = 0)).
Proof.
  split; [lia |]. apply (get_line_position_tab [97; 98] 8). lia.
Defined.

End ParseErrorFacts.
